(** * Weatherly: the push-subscription server and its two-hour scheduler

    A shallow embedding of the Express server of the repository
    ([src/unnamed/part_000], second document: the subscription endpoints,
    the push dispatcher and the scheduler) and the properties of the
    specification checked against it.

    Conventions of the embedding.
    - A JavaScript string is the list of its UTF-16 code units.
    - A [Date] is its time value in milliseconds; local time at an
      instant is the time value shifted by the zone offset in force at
      that instant.  The server reads it under the offset [tzOffset] of
      its environment; what is stated about the timers of the scheduler
      says which offset is in force at which instant.
    - JSON values, request bodies and stored documents are [value]s; an
      object is the list of its own properties in insertion order.
    - The MongoDB collection is the list of its documents in insertion
      order; the [_id] the database adds is never read by the program and
      is left out.  A filter selects by equality, which is MongoDB's rule
      for strings; what is stated about the record a filter selects is
      stated for strings as endpoints.
    - Everything the server cannot decide (the clock, the upstream weather
      API, the push service, a store call that fails) is read from an
      environment [env], indexed by the number of interactions so far.
    - An [async] function is a computation in the monad [M]: it threads the
      [world] and either returns or throws. *)

From Equations Require Import Equations.
From Stdlib Require Import String Ascii DecimalString ZArith NArith List Bool Lia.

#[local] Set Warnings "-register-all".
Import ListNotations.

(* ================================================================== *)
(** * Part I: the embedding *)
(* ================================================================== *)

(** ** JavaScript strings *)

Module JsString.

Open Scope N_scope.

Definition jsstring := list N.

(** A literal of the source, written in ASCII. *)
Definition lit (s : string) : jsstring :=
  map N_of_ascii (list_ascii_of_string s).

(** The class [\s] of a regular expression, which is also what
    [String.prototype.trim] strips: WhiteSpace and LineTerminator. *)
Definition isWhiteSpace (c : N) : bool :=
  ((9 <=? c) && (c <=? 13)) || (c =? 32) || (c =? 160) || (c =? 5760)
  || ((8192 <=? c) && (c <=? 8202)) || (c =? 8232) || (c =? 8233)
  || (c =? 8239) || (c =? 8287) || (c =? 12288) || (c =? 65279).

Definition comma : N := 44.

(** [\s*], greedy: the longest run of white space at the front. *)
Fixpoint skipWhiteSpace (s : jsstring) : jsstring :=
  match s with
  | c :: r => if isWhiteSpace c then skipWhiteSpace r else s
  | [] => []
  end.

(** A string that does not open with white space. *)
Definition tight (s : jsstring) : Prop := skipWhiteSpace s = s.

(** The pattern [/\s*,\s*/] tried at the front of [s]; on a match, what
    follows the match.  Backtracking into the first [\s*] cannot help: a
    shorter run is followed by white space, never by the comma. *)
Definition matchSeparator (s : jsstring) : option jsstring :=
  match skipWhiteSpace s with
  | c :: r => if c =? comma then Some (skipWhiteSpace r) else None
  | [] => None
  end.

Lemma skipWhiteSpace_length s :
  (length (skipWhiteSpace s) <= length s)%nat.
Proof.
  induction s as [|c r IH]; simpl; [lia|].
  destruct (isWhiteSpace c); simpl; lia.
Qed.

Lemma matchSeparator_shorter s rest :
  matchSeparator s = Some rest -> (length rest < length s)%nat.
Proof.
  unfold matchSeparator. pose proof (skipWhiteSpace_length s) as Hs.
  destruct (skipWhiteSpace s) as [|c r]; [discriminate|].
  destruct (c =? comma); [|discriminate].
  intros [= <-]. pose proof (skipWhiteSpace_length r). simpl in Hs. lia.
Qed.

Definition inspect {A} (a : A) : {b : A | a = b} := exist _ a eq_refl.

(** [s.replace(/\s*,\s*/g, ',')]: scanning from the left, a match is
    replaced by one comma and the scan resumes after it; where the
    pattern does not match, one code unit is copied. *)
Equations? replaceSeparators (s : jsstring) : jsstring
  by wf (length s) lt :=
  replaceSeparators s with inspect (matchSeparator s) := {
    | exist _ (Some rest) _ => comma :: replaceSeparators rest
    | exist _ None _ with s => {
        | [] => []
        | c :: r => c :: replaceSeparators r } }.
Proof.
  now apply matchSeparator_shorter.
Qed.

(** The normalisation of a location on subscribe (line 143). *)
Definition normalize (location : jsstring) : jsstring :=
  replaceSeparators location.

(** [s.split(',')]: the parts between the commas, at least one. *)
Fixpoint split (s : jsstring) : list jsstring :=
  match s with
  | [] => [[]]
  | c :: r =>
      if c =? comma then [] :: split r
      else match split r with
           | p :: ps => (c :: p) :: ps
           | [] => [[c]]
           end
  end.

(** [s.trim()]. *)
Definition trimStart (s : jsstring) : jsstring := skipWhiteSpace s.
Definition trimEnd (s : jsstring) : jsstring :=
  rev (skipWhiteSpace (rev s)).
Definition trim (s : jsstring) : jsstring := trimEnd (trimStart s).

Definition eqb (s t : jsstring) : bool :=
  if list_eq_dec N.eq_dec s t then true else false.

End JsString.

Export JsString.

(** ** Dates *)

Module JsDate.

Open Scope Z_scope.

Definition msPerSecond : Z := 1000.
Definition msPerMinute : Z := 60000.
Definition msPerHour : Z := 3600000.
Definition msPerDay : Z := 86400000.

(** The abstract operations of the language definition on a time value. *)
Definition Day (t : Z) : Z := t / msPerDay.
Definition HourFromTime (t : Z) : Z := (t / msPerHour) mod 24.
Definition MinFromTime (t : Z) : Z := (t / msPerMinute) mod 60.
Definition MakeTime (h m s ms : Z) : Z :=
  h * msPerHour + m * msPerMinute + s * msPerSecond + ms.
Definition MakeDate (day time : Z) : Z := day * msPerDay + time.

(** Local time at the instant [t], where [tz] is the offset of the
    host's zone (milliseconds east) in force at [t].  The host's zone
    rules can change the offset from one instant to another (daylight
    saving); what is stated about the local times of two instants says
    which offset is in force at each of them. *)
Definition LocalTime (tz t : Z) : Z := t + tz.
Definition UTC (tz t : Z) : Z := t - tz.

Definition getHours (tz t : Z) : Z := HourFromTime (LocalTime tz t).
Definition getMinutes (tz t : Z) : Z := MinFromTime (LocalTime tz t).

(** [d.setHours(h, m, s, ms)]: the day of [d] in local time, with the
    time within the day replaced; hours past 23 run into the next day. *)
Definition setHours (tz t h m s ms : Z) : Z :=
  UTC tz (MakeDate (Day (LocalTime tz t)) (MakeTime h m s ms)).

(** [calculateNextNotificationTime] (lines 201-206). *)
Definition calculateNextNotificationTime (tz now : Z) : Z :=
  let next := now in
  setHours tz next (getHours tz next + (2 - Z.rem (getHours tz next) 1)) 0 0 0.

(** A wall-clock time, for stating examples: day [d] at [h]:[m]. *)
Definition at_ (d h m : Z) : Z := MakeDate d (MakeTime h m 0 0).

End JsDate.

Export JsDate.

(** ** Values: JSON bodies, stored documents, payloads *)

Module JsValue.

Open Scope Z_scope.

(** Numbers are kept as integers: the server never computes with a number
    of a body, it only tests it for truthiness and prints it. *)
Inductive value : Type :=
| VUndefined
| VNull
| VBool (b : bool)
| VNum (n : Z)
| VStr (s : jsstring)
| VDate (t : Z)
| VArr (xs : list value)
| VObj (fields : list (string * value)).

(** An object: its own properties. *)
Abbreviation obj := (list (string * value)).

(** Structural equality of values. *)
Fixpoint value_eqb (a b : value) {struct a} : bool :=
  match a, b with
  | VUndefined, VUndefined => true
  | VNull, VNull => true
  | VBool x, VBool y => Bool.eqb x y
  | VNum x, VNum y => Z.eqb x y
  | VStr x, VStr y => JsString.eqb x y
  | VDate x, VDate y => Z.eqb x y
  | VArr xs, VArr ys =>
      (fix go (xs ys : list value) {struct xs} : bool :=
         match xs, ys with
         | [], [] => true
         | x :: xs', y :: ys' => value_eqb x y && go xs' ys'
         | _, _ => false
         end) xs ys
  | VObj fs, VObj gs =>
      (fix go (fs gs : list (string * value)) {struct fs} : bool :=
         match fs, gs with
         | [], [] => true
         | (k, x) :: fs', (k', y) :: gs' =>
             String.eqb k k' && value_eqb x y && go fs' gs'
         | _, _ => false
         end) fs gs
  | _, _ => false
  end.

(** [ToBoolean]. *)
Definition truthy (v : value) : bool :=
  match v with
  | VUndefined | VNull => false
  | VBool b => b
  | VNum n => negb (n =? 0)
  | VStr s => match s with [] => false | _ => true end
  | VDate _ | VArr _ | VObj _ => true
  end.

(** Own properties of an object.  Where a key is written twice the last
    binding counts, as in an object literal and in [JSON.parse]. *)
Fixpoint lookup (k : string) (o : obj) : option value :=
  match o with
  | [] => None
  | (k', v) :: r =>
      match lookup k r with
      | Some v' => Some v'
      | None => if String.eqb k k' then Some v else None
      end
  end.

Definition field (k : string) (o : obj) : value :=
  match lookup k o with Some v => v | None => VUndefined end.

Definition hasKey (k : string) (o : obj) : bool :=
  existsb (fun kv => String.eqb k (fst kv)) o.

(** [o.k = v]: overwrite where the key stands, or add it at the end. *)
Definition setField (k : string) (v : value) (o : obj) : obj :=
  if hasKey k o
  then map (fun kv => if String.eqb k (fst kv) then (k, v) else kv) o
  else o ++ [(k, v)].

(** [{ ...o, k1: v1, ..., kn: vn }], and the [$set] of an update. *)
Definition assign (o upd : obj) : obj :=
  fold_left (fun acc kv => setField (fst kv) (snd kv) acc) upd o.

(** The own enumerable properties an object spread copies.  The server
    spreads [subscription] only after it has read a truthy
    [subscription.endpoint], which only an object has. *)
Definition spread (v : value) : obj :=
  match v with VObj fs => fs | _ => [] end.

(** Induction on values, through the arrays and the objects. *)
Section ValueInduction.

Variable P : value -> Prop.
Hypothesis Hundefined : P VUndefined.
Hypothesis Hnull : P VNull.
Hypothesis Hbool : forall b, P (VBool b).
Hypothesis Hnum : forall n, P (VNum n).
Hypothesis Hstr : forall s, P (VStr s).
Hypothesis Hdate : forall t, P (VDate t).
Hypothesis Harr : forall xs, Forall P xs -> P (VArr xs).
Hypothesis Hobj : forall fs, Forall (fun kv => P (snd kv)) fs -> P (VObj fs).

Fixpoint value_nested_ind (v : value) : P v :=
  match v with
  | VUndefined => Hundefined
  | VNull => Hnull
  | VBool b => Hbool b
  | VNum n => Hnum n
  | VStr s => Hstr s
  | VDate t => Hdate t
  | VArr xs =>
      Harr xs
        ((fix all (l : list value) : Forall P l :=
            match l with
            | [] => Forall_nil P
            | x :: r => Forall_cons x (value_nested_ind x) (all r)
            end) xs)
  | VObj fs =>
      Hobj fs
        ((fix all (l : list (string * value))
            : Forall (fun kv => P (snd kv)) l :=
            match l with
            | [] => Forall_nil _
            | kv :: r =>
                Forall_cons kv (value_nested_ind (snd kv)) (all r)
            end) fs)
  end.

End ValueInduction.

(** The property key of the index [i]. *)
Definition indexKey (i : nat) : string :=
  NilEmpty.string_of_uint (Nat.to_uint i).

End JsValue.

Export JsValue.

(** ** The collection [subscriptions] *)

Module Store.

(** One condition [{ k: q }] of a filter against the field of a document.
    A [null] (or missing) query value matches a null or missing field;
    any other value matches by equality.  That is MongoDB's rule for a
    query value that is a string (or another scalar) against a field
    that holds no array.  MongoDB reads an object as query operators and
    lets an array field match a value it contains; neither is modelled
    here, and the handlers pass on what the request holds.  What is
    stated about the record a filter selects is therefore stated for
    strings as endpoints, in the request and in the collection. *)
Definition matchValue (q d : value) : bool :=
  match q with
  | VUndefined | VNull =>
      match d with VUndefined | VNull => true | _ => false end
  | _ => value_eqb q d
  end.

Definition matches (filter doc : obj) : bool :=
  forallb (fun kv => matchValue (snd kv) (field (fst kv) doc)) filter.

(** The first document a filter matches, and what stands around it. *)
Inductive firstMatch (filter : obj) : list obj -> list obj -> obj ->
    list obj -> Prop :=
| FirstMatch : forall before d after,
    existsb (matches filter) before = false ->
    matches filter d = true ->
    firstMatch filter (before ++ d :: after) before d after.

(** [updateOne(filter, { $set: upd })] on the first match, if any. *)
Fixpoint updateFirst (filter upd : obj) (c : list obj) : option (list obj) :=
  match c with
  | [] => None
  | d :: r =>
      if matches filter d then Some (assign d upd :: r)
      else option_map (cons d) (updateFirst filter upd r)
  end.

(** [updateOne(filter, { $set: upd }, { upsert: true })]: with no match a
    document is inserted, made of the filter's fields and then [upd]. *)
Definition updateOneUpsert (filter upd : obj) (c : list obj) : list obj :=
  match updateFirst filter upd c with
  | Some c' => c'
  | None => c ++ [assign filter upd]
  end.

(** [deleteOne(filter)]. *)
Fixpoint deleteOne (filter : obj) (c : list obj) : list obj :=
  match c with
  | [] => []
  | d :: r => if matches filter d then r else d :: deleteOne filter r
  end.

Definition deletedCount (filter : obj) (c : list obj) : nat :=
  if existsb (matches filter) c then 1%nat else 0%nat.

(** [find(filter).toArray()] and [findOne(filter)]. *)
Definition find (filter : obj) (c : list obj) : list obj :=
  List.filter (matches filter) c.

Definition findOne (filter : obj) (c : list obj) : option obj :=
  List.find (matches filter) c.

(** [updateMany(filter, { $set: upd })]. *)
Definition updateMany (filter upd : obj) (c : list obj) : list obj :=
  map (fun d => if matches filter d then assign d upd else d) c.

(** The endpoints of the stored records, and their uniqueness. *)
Definition endpoints (c : list obj) : list value :=
  map (field "endpoint") c.

Definition endpointsUnique (c : list obj) : Prop := NoDup (endpoints c).

Definition hasEndpoint (e : value) (c : list obj) : bool :=
  existsb (matches [("endpoint"%string, e)]) c.

End Store.

(** ** Effects: the world, the environment, the monad *)

Open Scope string_scope.
Open Scope list_scope.
Open Scope Z_scope.

(** What is thrown: a type error of the language, a rejected call to the
    collection, to the weather API or to the push service, and the
    server's own [Error('Missing hourly data')]. *)
Inductive exn : Type :=
| TypeError
| StoreError
| UpstreamError
| PushError (statusCode : option Z)
| MissingHourlyData.

(** [err.statusCode]. *)
Definition statusCodeOf (e : exn) : option Z :=
  match e with PushError sc => sc | _ => None end.

Inductive result (A : Type) : Type :=
| Ok (a : A)
| Throw (e : exn).
Arguments Ok {A} a.
Arguments Throw {A} e.

Inductive storeOp : Type :=
| OpUpdateOne | OpDeleteOne | OpFind | OpFindOne | OpUpdateMany.

Inductive pushOutcome : Type :=
| Delivered
| Refused (statusCode : option Z).

(** What the server does not decide.  The index is the number of
    interactions with the outside made so far ([tick]).
    - [tzOffset]: the zone offset of the host, in milliseconds;
    - [clock t]: what [new Date()] reads;
    - [storeFails t op]: the call [op] to the collection rejects;
    - [upstream t params]: [response.data] of the weather API, [None] when
      [axios.get] rejects;
    - [transport t sub payload]: the answer of the push service;
    - [toLocaleTimeString time]: [new Date(time).toLocaleTimeString([],
      ...)] in the locale of the host;
    - [toStringV v]: [v] as a template literal prints it. *)
Record env : Type := {
  tzOffset : Z;
  clock : nat -> Z;
  storeFails : nat -> storeOp -> bool;
  upstream : nat -> obj -> option value;
  transport : nat -> value -> value -> pushOutcome;
  toLocaleTimeString : value -> jsstring;
  toStringV : value -> jsstring
}.

(** A push handed to the push service, with what the service answered. *)
Record delivery : Type := {
  recipient : value;
  payload : value;
  answer : pushOutcome
}.

(** The collection, the pushes handed to the push service and the
    requests made to the weather API, both oldest first, and the number
    of interactions. *)
Record world : Type := {
  db : list obj;
  pushes : list delivery;
  requests : list obj;
  tick : nat
}.

Definition M (A : Type) : Type := world -> result A * world.

Definition ret {A} (a : A) : M A := fun w => (Ok a, w).

Definition throw {A} (e : exn) : M A := fun w => (Throw e, w).

Definition bind {A B} (m : M A) (k : A -> M B) : M B :=
  fun w =>
    match m w with
    | (Ok a, w') => k a w'
    | (Throw e, w') => (Throw e, w')
    end.

(** [try { m } catch (err) { h err }]. *)
Definition tryCatch {A} (m : M A) (h : exn -> M A) : M A :=
  fun w =>
    match m w with
    | (Ok a, w') => (Ok a, w')
    | (Throw e, w') => h e w'
    end.

(** A pure step that may throw. *)
Definition lift {A} (r : result A) : M A := fun w => (r, w).

Declare Scope js_scope.
Delimit Scope js_scope with js.
Notation "x <- m ;; k" := (bind m (fun x => k))
  (at level 61, m at next level, right associativity) : js_scope.
Notation "m ;;; k" := (bind m (fun _ => k))
  (at level 61, right associativity) : js_scope.
Open Scope js_scope.

(** The computation [m] takes every world to one that [R] accepts as its
    successor, whether it returns or throws. *)
Definition preserves (R : world -> world -> Prop) {A} (m : M A) : Prop :=
  forall w, R w (snd (m w)).

(** [v.k]: reading a property of [undefined] or [null] throws. *)
Definition getProp (v : value) (k : string) : result value :=
  match v with
  | VUndefined | VNull => Throw TypeError
  | VObj fs => Ok (field k fs)
  | _ => Ok VUndefined
  end.

(** [v?.k]. *)
Definition optProp (v : value) (k : string) : value :=
  match v with
  | VObj fs => field k fs
  | _ => VUndefined
  end.

(** [v[i]]. *)
Definition getIndex (v : value) (i : nat) : result value :=
  match v with
  | VUndefined | VNull => Throw TypeError
  | VArr xs => Ok (nth i xs VUndefined)
  | VStr s =>
      Ok (match nth_error s i with Some c => VStr [c] | None => VUndefined end)
  | VObj fs => Ok (field (indexKey i) fs)
  | _ => Ok VUndefined
  end.

(** Calling a string method on [v]: a type error unless [v] is a string. *)
Definition asString (v : value) : result jsstring :=
  match v with
  | VStr s => Ok s
  | _ => Throw TypeError
  end.

(** ** The server *)

Record response : Type := {
  status : Z;
  json : value   (* [VUndefined]: the response was ended with no body *)
}.

(** What [Promise.allSettled] reports for one promise. *)
Inductive settled : Type :=
| Fulfilled
| Rejected (reason : exn).

(** [err.statusCode === 410 || err.statusCode === 404]. *)
Definition isGone (sc : option Z) : bool :=
  match sc with
  | Some c => (c =? 410) || (c =? 404)
  | None => false
  end.

(** Keys of a [Map]: SameValueZero.  Two objects read from the store are
    never the same object. *)
Definition sameValueZero (a b : value) : bool :=
  match a with
  | VDate _ | VArr _ | VObj _ => false
  | _ => value_eqb a b
  end.

(** [locationsMap] after one more subscriber (lines 386-391). *)
Fixpoint addToGroup (location : value) (sub : obj)
    (groups : list (value * list obj)) : list (value * list obj) :=
  match groups with
  | [] => [(location, [sub])]
  | (l, subs) :: r =>
      if sameValueZero l location then (l, subs ++ [sub]) :: r
      else (l, subs) :: addToGroup location sub r
  end.

Definition groupByLocation (allSubs : list obj) : list (value * list obj) :=
  fold_left (fun m sub => addToGroup (field "location" sub) sub m) allSubs [].

(** [location.split(',')[0]]. *)
Definition labelOf (location : value) : result jsstring :=
  match asString location with
  | Ok s => Ok (hd [] (split s))
  | Throw e => Throw e
  end.

(** The two failure payloads (lines 227-231 and 418-422). *)
Definition failedPayload (label : jsstring) : value :=
  VObj [("title", VStr (lit "Weather Update Failed"));
        ("body", VStr (lit "Couldn't get latest weather for " ++ label));
        ("icon", VStr (lit "/icons/error.png"))].

Definition failedPayloadBatch (label : jsstring) : value :=
  VObj [("title", VStr (lit "Weather Update Failed"));
        ("body",
         VStr (lit "We couldn't get the latest weather for " ++ label));
        ("icon", VStr (lit "/icons/error.png"))].

(** The pictographs of the notification texts, as code units. *)
Definition stopwatch : jsstring := [9201; 65039]%N.
Definition crystalBall : jsstring := [55357; 56622]%N.
Definition degree : jsstring := [176]%N.
Definition cloud : jsstring := [9729; 65039]%N.
Definition umbrella : jsstring := [9748]%N.
Definition windFace : jsstring := [55356; 57132; 65039]%N.
Definition sun : jsstring := [9728; 65039]%N.
Definition newline : jsstring := [10]%N.

(** [scheduleTwoHourWeatherUpdates]: the delay to the first cycle
    (line 362), in minutes. *)
Definition minutesToNextUpdate (tz now : Z) : Z :=
  Z.rem (120 - (Z.rem (getHours tz now) 2 * 60 + getMinutes tz now)) 120.

Section Server.

Variable E : env.

Definition advance (w : world) : world :=
  {| db := db w; pushes := pushes w; requests := requests w;
     tick := S (tick w) |}.

(** [new Date()]. *)
Definition newDate : M Z :=
  fun w => (Ok (clock E (tick w)), advance w).

(** A call to the collection: it fails as a whole, or it takes effect. *)
Definition storeCall {A} (op : storeOp) (f : list obj -> A * list obj)
  : M A :=
  fun w =>
    if storeFails E (tick w) op then (Throw StoreError, advance w)
    else
      (Ok (fst (f (db w))),
       {| db := snd (f (db w)); pushes := pushes w;
          requests := requests w; tick := S (tick w) |}).

Definition updateOneUpsertM (filter upd : obj) : M unit :=
  storeCall OpUpdateOne (fun c => (tt, Store.updateOneUpsert filter upd c)).

Definition deleteOneM (filter : obj) : M nat :=
  storeCall OpDeleteOne
    (fun c => (Store.deletedCount filter c, Store.deleteOne filter c)).

Definition findM (filter : obj) : M (list obj) :=
  storeCall OpFind (fun c => (Store.find filter c, c)).

Definition findOneM (filter : obj) : M (option obj) :=
  storeCall OpFindOne (fun c => (Store.findOne filter c, c)).

Definition updateManyM (filter upd : obj) : M unit :=
  storeCall OpUpdateMany (fun c => (tt, Store.updateMany filter upd c)).

(** [axios.get(apiUrl, { params })], then [response.data]. *)
Definition axiosGet (params : obj) : M value :=
  fun w =>
    let w' := {| db := db w; pushes := pushes w;
                 requests := requests w ++ [params]; tick := S (tick w) |} in
    match upstream E (tick w) params with
    | Some data => (Ok data, w')
    | None => (Throw UpstreamError, w')
    end.

(** [webpush.sendNotification(sub, JSON.stringify(payload))]. *)
Definition webpushSend (sub payload : value) : M unit :=
  fun w =>
    let answer := transport E (tick w) sub payload in
    let w' := {| db := db w;
                 pushes := pushes w ++ [Build_delivery sub payload answer];
                 requests := requests w; tick := S (tick w) |} in
    match answer with
    | Delivered => (Ok tt, w')
    | Refused sc => (Throw (PushError sc), w')
    end.

(** [p.trim()] for a part [p] of a destructured array: a missing part is
    [undefined], and the call throws. *)
Definition trimPart (p : option jsstring) : result jsstring :=
  match p with
  | Some s => Ok (trim s)
  | None => Throw TypeError
  end.

(** [fetchWeatherData] (lines 244-262). *)
Definition fetchWeatherData (location : value) : M value :=
  tryCatch
    (s <- lift (asString location);;
     let parts := split s in
     let city := nth_error parts 0 in
     let region := nth_error parts 1 in
     let country := nth_error parts 2 in
     name <- lift (trimPart city);;
     region' <- lift (trimPart region);;
     country' <- lift (trimPart country);;
     axiosGet [("name", VStr name); ("region", VStr region');
               ("country", VStr country')])
    (fun err => throw err).

(** [sendNotification] (lines 264-274). *)
Definition sendNotification (subscription payload : value) : M bool :=
  tryCatch
    (webpushSend subscription payload;;;
     ret true)
    (fun err =>
       (if isGone (statusCodeOf err) then
          endpoint <- lift (getProp subscription "endpoint");;
          deleteOneM [("endpoint", endpoint)];;;
          ret tt
        else ret tt);;;
       ret false).

(** The promise of one subscriber inside [sendBatchNotifications]
    (lines 341-348): the delivery, and the handler of its failure, which
    throws again. *)
Definition deliverTo (sub : obj) (payload : value) : M unit :=
  tryCatch
    (webpushSend (VObj sub) payload)
    (fun err =>
       (* sub.endpoint.substring(0, 30), for the log *)
       _ <- lift (asString (field "endpoint" sub));;
       (if isGone (statusCodeOf err) then
          deleteOneM [("endpoint", field "endpoint" sub)];;;
          ret tt
        else ret tt);;;
       throw err).

(** How [Promise.allSettled] sees a promise. *)
Definition settle (m : M unit) : M settled :=
  tryCatch (m;;; ret Fulfilled) (fun reason => ret (Rejected reason)).

Fixpoint mapM {A B} (f : A -> M B) (l : list A) : M (list B) :=
  match l with
  | [] => ret []
  | x :: r =>
      y <- f x;;
      ys <- mapM f r;;
      ret (y :: ys)
  end.

(** [sendBatchNotifications] (lines 334-355); [None] is [undefined].
    The deliveries are started in the order of the list; the handlers of
    the failed ones run as their promises reject.  Each handler touches
    the record of its own endpoint only, so they are run here in the
    order of the list. *)
Definition sendBatchNotifications (subscribers : list obj) (payload : value)
  : M (option (list settled)) :=
  match subscribers with
  | [] => ret None
  | _ =>
      results <- mapM (fun sub => settle (deliverTo sub payload)) subscribers;;
      ret (Some results)
  end.

Definition prop (v : value) (k : string) : M value := lift (getProp v k).

(** The current-conditions payload (lines 291-304). *)
Definition currentNotification (location : value) (currentTime : jsstring)
    (currentHourData : value) : M value :=
  label <- lift (labelOf location);;
  temp_c <- prop currentHourData "temp_c";;
  condition <- prop currentHourData "condition";;
  text <- prop condition "text";;
  cloud' <- prop currentHourData "cloud";;
  chance_of_rain <- prop currentHourData "chance_of_rain";;
  wind_kph <- prop currentHourData "wind_kph";;
  wind_dir <- prop currentHourData "wind_dir";;
  uv <- prop currentHourData "uv";;
  condition' <- prop currentHourData "condition";;
  icon <- prop condition' "icon";;
  time <- prop currentHourData "time";;
  ret (VObj
    [("title",
      VStr (stopwatch ++ lit " " ++ currentTime ++ lit " Weather ("
            ++ label ++ lit ")"));
     ("body",
      VStr (toStringV E temp_c ++ degree ++ lit "C, " ++ toStringV E text
            ++ newline ++ cloud ++ lit " Cloud Cover: "
            ++ toStringV E cloud' ++ lit "%"
            ++ newline ++ umbrella ++ lit " Rain chance: "
            ++ toStringV E chance_of_rain ++ lit "%"
            ++ newline ++ windFace ++ lit " Wind: " ++ toStringV E wind_kph
            ++ lit " kph " ++ toStringV E wind_dir
            ++ newline ++ sun ++ lit " UV Index: " ++ toStringV E uv
            ++ lit "%"));
     ("icon", icon);
     ("data", VObj [("type", VStr (lit "current_weather"));
                    ("location", location);
                    ("time", time)])]).

(** The forecast payload (lines 307-320). *)
Definition forecastNotification (location : value) (nextTime : jsstring)
    (nextHourData : value) : M value :=
  label <- lift (labelOf location);;
  temp_c <- prop nextHourData "temp_c";;
  condition <- prop nextHourData "condition";;
  text <- prop condition "text";;
  cloud' <- prop nextHourData "cloud";;
  chance_of_rain <- prop nextHourData "chance_of_rain";;
  wind_kph <- prop nextHourData "wind_kph";;
  wind_dir <- prop nextHourData "wind_dir";;
  uv <- prop nextHourData "uv";;
  condition' <- prop nextHourData "condition";;
  icon <- prop condition' "icon";;
  time <- prop nextHourData "time";;
  ret (VObj
    [("title",
      VStr (crystalBall ++ lit " " ++ nextTime ++ lit " Forecast ("
            ++ label ++ lit ")"));
     ("body",
      VStr (lit "Expected: " ++ toStringV E temp_c ++ degree ++ lit "C, "
            ++ toStringV E text
            ++ newline ++ cloud ++ lit " Cloud Cover: "
            ++ toStringV E cloud' ++ lit "%"
            ++ newline ++ umbrella ++ lit " Rain chance: "
            ++ toStringV E chance_of_rain ++ lit "%"
            ++ newline ++ windFace ++ lit " Wind: " ++ toStringV E wind_kph
            ++ lit " kph " ++ toStringV E wind_dir
            ++ newline ++ sun ++ lit " UV Index: " ++ toStringV E uv
            ++ lit "%"));
     ("icon", icon);
     ("data", VObj [("type", VStr (lit "forecast"));
                    ("location", location);
                    ("time", time)])]).

(** [sendLocationNotifications] (lines 276-332). *)
Definition sendLocationNotifications
    (location currentHourData nextHourData : value) : M unit :=
  ctime <- prop currentHourData "time";;
  let currentTime := toLocaleTimeString E ctime in
  ntime <- prop nextHourData "time";;
  let nextTime := toLocaleTimeString E ntime in
  locationSubscribers <- findM [("location", location)];;
  match locationSubscribers with
  | [] => ret tt
  | _ =>
      current <- currentNotification location currentTime currentHourData;;
      forecast <- forecastNotification location nextTime nextHourData;;
      sendBatchNotifications locationSubscribers current;;;
      sendBatchNotifications locationSubscribers forecast;;;
      now <- newDate;;
      updateManyM [("location", location)]
        [("lastNotified", VDate now);
         ("nextNotificationTime",
          VDate (calculateNextNotificationTime (tzOffset E) now))]
  end.

(** [weatherData.forecast.forecastday[0].hour[h]]. *)
Definition hourOf (weatherData : value) (h : Z) : M value :=
  forecast <- prop weatherData "forecast";;
  forecastday <- prop forecast "forecastday";;
  today <- lift (getIndex forecastday 0);;
  hour <- prop today "hour";;
  lift (getIndex hour (Z.to_nat h)).

(** The head of both pipelines (lines 211-221 and 399-410, which differ
    in the hour offset only): fetch, pick the two hours, refuse missing
    data. *)
Definition currentAndNext (offset : Z) (location : value)
  : M (value * value) :=
  weatherData <- fetchWeatherData location;;
  now <- newDate;;
  let currentHour := getHours (tzOffset E) now in
  let nextHour := Z.rem (currentHour + offset) 24 in
  currentData <- hourOf weatherData currentHour;;
  nextData <- hourOf weatherData nextHour;;
  if negb (truthy currentData) || negb (truthy nextData)
  then throw MissingHourlyData
  else ret (currentData, nextData).

(** [sendWeatherUpdateForSubscription] (lines 209-233). *)
Definition sendWeatherUpdateForSubscription (subscription location : value)
  : M unit :=
  tryCatch
    (hours <- currentAndNext 1 location;;
     sendLocationNotifications location (fst hours) (snd hours))
    (fun err =>
       label <- lift (labelOf location);;
       sendNotification subscription (failedPayload label);;;
       ret tt).

Definition respond (code : Z) (body : value) : response :=
  {| status := code; json := body |}.

(** [subDoc] (lines 146-152). *)
Definition subDocOf (subscription : value) (normalizedLocation : jsstring)
    (now : Z) : obj :=
  assign (spread subscription)
    [("createdAt", VDate now);
     ("lastNotified", VNull);
     ("location", VStr normalizedLocation);
     ("nextNotificationTime",
      VDate (calculateNextNotificationTime (tzOffset E) now))].

(** [POST /api/subscribe] (lines 135-168). *)
Definition subscribeHandler (body : value) : M response :=
  tryCatch
    (subscription <- prop body "subscription";;
     location <- prop body "location";;
     if negb (truthy (optProp subscription "endpoint"))
        || negb (truthy (optProp subscription "keys"))
     then
       ret (respond 400
              (VObj [("error",
                      VStr (lit "Invalid subscription format"))]))
     else
       s <- lift (asString location);;
       let normalizedLocation := normalize s in
       now <- newDate;;
       let subDoc := subDocOf subscription normalizedLocation now in
       endpoint <- prop subscription "endpoint";;
       updateOneUpsertM [("endpoint", endpoint)] subDoc;;;
       sendWeatherUpdateForSubscription subscription
         (VStr normalizedLocation);;;
       ret (respond 201 (VObj [("success", VBool true)])))
    (fun err =>
       ret (respond 500
              (VObj [("error",
                      VStr (lit "Internal server error"))]))).

(** [DELETE /api/subscribe] (lines 170-181).  The text of [err.message]
    is the driver's; it is left open. *)
Definition unsubscribeHandler (errorMessage : exn -> jsstring)
    (body : value) : M response :=
  tryCatch
    (endpoint <- prop body "endpoint";;
     n <- deleteOneM [("endpoint", endpoint)];;
     if (0 <? n)%nat
     then ret (respond 200 (VObj [("success", VBool true)]))
     else
       ret (respond 404
              (VObj [("error",
                      VStr (lit "Subscription not found"))])))
    (fun err =>
       ret (respond 500 (VObj [("error", VStr (errorMessage err))]))).

(** [POST /api/subscribe/check] (lines 183-198). *)
Definition checkHandler (body : value) : M response :=
  tryCatch
    (endpoint <- prop body "endpoint";;
     found <- findOneM [("endpoint", endpoint)];;
     match found with
     | Some doc =>
         ret (respond 200
                (VObj [("subscribed", VBool true);
                       ("location", field "location" doc)]))
     | None => ret (respond 404 VUndefined)
     end)
    (fun err => ret (respond 500 VUndefined)).

(** [getAllSubscriptions] (lines 235-242). *)
Definition getAllSubscriptions : M (list obj) :=
  tryCatch (findM []) (fun err => ret []).

(** One turn of the loop over [locationsMap] (lines 397-423). *)
Definition processLocation (group : value * list obj) : M unit :=
  let location := fst group in
  let subscribers := snd group in
  tryCatch
    (hours <- currentAndNext 2 location;;
     sendLocationNotifications location (fst hours) (snd hours))
    (fun err =>
       label <- lift (labelOf location);;
       sendBatchNotifications subscribers (failedPayloadBatch label);;;
       ret tt).

Fixpoint forEach {A} (f : A -> M unit) (l : list A) : M unit :=
  match l with
  | [] => ret tt
  | x :: r => f x;;; forEach f r
  end.

(** [sendTwoHourWeatherUpdates] (lines 374-428). *)
Definition sendTwoHourWeatherUpdates : M unit :=
  tryCatch
    (allSubs <- getAllSubscriptions;;
     match allSubs with
     | [] => ret tt
     | _ =>
         let locationsMap := groupByLocation allSubs in
         forEach processLocation locationsMap
     end)
    (fun err => ret tt).

End Server.

(** ** Vocabulary of the statements *)

Definition isString (v : value) : bool :=
  match v with VStr _ => true | _ => false end.

(** Neither [undefined] nor [null]. *)
Definition notNullish (v : value) : bool :=
  match v with VUndefined | VNull => false | _ => true end.

(** The store takes every call of the kind [op]. *)
Definition storeAccepts (E : env) (op : storeOp) : Prop :=
  forall t, storeFails E t op = false.

(** A request body [{ subscription: { endpoint, keys, ... }, location }]
    that passes the check of line 139. *)
Definition wellFormedSubscription (body : obj) : Prop :=
  truthy (optProp (field "subscription" body) "endpoint") = true
  /\ truthy (optProp (field "subscription" body) "keys") = true.

Definition internalServerError : response :=
  respond 500 (VObj [("error", VStr (lit "Internal server error"))]).

Definition created : response :=
  respond 201 (VObj [("success", VBool true)]).

(** How [Promise.allSettled] reports a delivery the push service answered
    with [o], when the handler of a failure runs through. *)
Definition settledOf (o : pushOutcome) : settled :=
  match o with
  | Delivered => Fulfilled
  | Refused sc => Rejected (PushError sc)
  end.

(** The push service reports the endpoint as gone (410) or not found
    (404). *)
Definition permanentFailure (o : pushOutcome) : bool :=
  match o with
  | Delivered => false
  | Refused sc => isGone sc
  end.

(** The pushes made between two worlds. *)
Definition newDeliveries (w w' : world) : list delivery :=
  skipn (length (pushes w)) (pushes w').

(** The deliveries of one payload to a list of subscribers, with the
    answers of the push service. *)
Definition deliveriesTo (subscribers : list obj) (p : value)
    (answers : list pushOutcome) : list delivery :=
  map (fun so => Build_delivery (VObj (fst so)) p (snd so))
      (combine subscribers answers).

(** The collection after the records of the subscribers whose delivery
    failed for good have been removed, one after the other. *)
Fixpoint pruneAll (entries : list (obj * pushOutcome)) (c : list obj)
  : list obj :=
  match entries with
  | [] => c
  | (sub, o) :: r =>
      pruneAll r
        (if permanentFailure o
         then Store.deleteOne [("endpoint", field "endpoint" sub)] c
         else c)
  end.

(** The record of [sub] is (still) in the collection. *)
Definition retained (c : list obj) (sub : obj) : bool :=
  Store.hasEndpoint (field "endpoint" sub) c.

Definition sameEndpoint (a b : obj) : bool :=
  value_eqb (field "endpoint" a) (field "endpoint" b).

Definition isDelivered (o : pushOutcome) : bool :=
  match o with Delivered => true | Refused _ => false end.

Definition isFulfilled (r : settled) : bool :=
  match r with Fulfilled => true | Rejected _ => false end.

(** Some subscriber of the batch with the endpoint of [d] failed for
    good. *)
Definition failedForGood (entries : list (obj * pushOutcome)) (d : obj)
  : bool :=
  existsb (fun so => sameEndpoint (fst so) d && permanentFailure (snd so))
    entries.

Definition stringEndpoint (sub : obj) : Prop :=
  isString (field "endpoint" sub) = true.

Definition stringLocation (doc : obj) : Prop :=
  isString (field "location" doc) = true.

(** The subscription and the endpoint of a request body. *)
Definition requestSubscription (body : obj) : value :=
  field "subscription" body.

Definition requestEndpoint (body : obj) : value :=
  optProp (requestSubscription body) "endpoint".

(** The world in which the subscribe handler goes on after the upsert:
    the clock was read, the document [subDoc] was written. *)
Definition afterUpsert (E : env) (body : obj) (normalizedLocation : jsstring)
    (w : world) : world :=
  {| db := Store.updateOneUpsert [("endpoint", requestEndpoint body)]
             (subDocOf E (requestSubscription body) normalizedLocation
                (clock E (tick w)))
             (db w);
     pushes := pushes w;
     requests := requests w;
     tick := S (S (tick w)) |}.

(** What is left of the subscribe handler after the upsert. *)
Definition notifyAndRespond (E : env) (body : obj)
    (normalizedLocation : jsstring) : M response :=
  tryCatch
    (sendWeatherUpdateForSubscription E (requestSubscription body)
       (VStr normalizedLocation);;;
     ret created)
    (fun err => ret internalServerError).

(** A property of the collection holds after if it held before. *)
Definition keeps (P : list obj -> Prop) (w w' : world) : Prop :=
  P (db w) -> P (db w').

Definition sameStoreAndPushes (w w' : world) : Prop :=
  pushes w' = pushes w /\ db w' = db w.

(** One operation of the server: a request to one of the three
    subscription routes, or one cycle of the scheduler. *)
Inductive serverStep (E : env) : world -> world -> Prop :=
| StepSubscribe : forall body w,
    serverStep E w (snd (subscribeHandler E body w))
| StepUnsubscribe : forall errorMessage body w,
    serverStep E w (snd (unsubscribeHandler E errorMessage body w))
| StepCheck : forall body w,
    serverStep E w (snd (checkHandler E body w))
| StepCycle : forall w,
    serverStep E w (snd (sendTwoHourWeatherUpdates E w)).

(** The worlds the server can be in, starting on an empty collection. *)
Inductive reachable (E : env) : world -> Prop :=
| ReachStart : forall w, db w = [] -> reachable E w
| ReachStep : forall w w',
    reachable E w -> serverStep E w w' -> reachable E w'.

(** The operations whose request names its endpoint by a string, as the
    Push API does, and the worlds the server reaches by them. *)
Inductive stringStep (E : env) : world -> world -> Prop :=
| StringSubscribe : forall body w,
    isString (optProp (optProp body "subscription") "endpoint") = true ->
    stringStep E w (snd (subscribeHandler E body w))
| StringUnsubscribe : forall errorMessage body w,
    isString (optProp body "endpoint") = true ->
    stringStep E w (snd (unsubscribeHandler E errorMessage body w))
| StringCheck : forall body w,
    isString (optProp body "endpoint") = true ->
    stringStep E w (snd (checkHandler E body w))
| StringCycle : forall w,
    stringStep E w (snd (sendTwoHourWeatherUpdates E w)).

Inductive stringReachable (E : env) : world -> Prop :=
| StringStart : forall w, db w = [] -> stringReachable E w
| StringNext : forall w w',
    stringReachable E w -> stringStep E w w' -> stringReachable E w'.

(** The endpoints of the collection are strings, no two of them the
    same. *)
Definition distinctStrings (c : list obj) : Prop :=
  Forall stringEndpoint c /\ Store.endpointsUnique c.

(** The subscriptions a cycle works on, and the world it reads them in. *)
Definition cycleSubscriptions (E : env) (w : world) : list obj :=
  match fst (getAllSubscriptions E w) with
  | Ok allSubs => allSubs
  | Throw _ => []
  end.

Definition cycleStart (E : env) (w : world) : world :=
  snd (getAllSubscriptions E w).

(** An environment and a world for the examples: the clock stands at
    13:45 of day 0, the store works, the weather API is down and the push
    service delivers. *)
Definition quietEnv : env :=
  {| tzOffset := 0;
     clock := fun _ => at_ 0 13 45;
     storeFails := fun _ _ => false;
     upstream := fun _ _ => None;
     transport := fun _ _ _ => Delivered;
     toLocaleTimeString := fun _ => [];
     toStringV := fun _ => [] |}.

Definition emptyWorld : world :=
  {| db := []; pushes := []; requests := []; tick := 0 |}.

Definition subscriptionOf (endpoint : string) : obj :=
  [("endpoint", VStr (lit endpoint));
   ("keys", VObj [("p256dh", VStr (lit "key")); ("auth", VStr (lit "secret"))])].

(** A push service that reports one endpoint as gone, and a collection of
    three records, one of them for that endpoint. *)
Definition goneEndpoint : string := "https://push.example/gone".

Definition goneEnv : env :=
  {| tzOffset := 0;
     clock := fun _ => at_ 0 13 45;
     storeFails := fun _ _ => false;
     upstream := fun _ _ => None;
     transport := fun _ sub _ =>
       if value_eqb (optProp sub "endpoint") (VStr (lit goneEndpoint))
       then Refused (Some 410) else Delivered;
     toLocaleTimeString := fun _ => [];
     toStringV := fun _ => [] |}.

Definition recordOf (endpoint location : string) : obj :=
  subscriptionOf endpoint
  ++ [("createdAt", VDate 0); ("lastNotified", VDate 0);
      ("location", VStr (lit location));
      ("nextNotificationTime", VDate 7200000)].

(** A second subscribe for the endpoint of [parisRecord], with the
    location spelt with blanks around the commas. *)
Definition resubscribeBody : obj :=
  [("subscription", VObj (subscriptionOf "https://push.example/1"));
   ("location", VStr (lit "Paris , Ile-de-France , France"))].

Definition parisRecord : obj :=
  recordOf "https://push.example/1" "Paris,Ile-de-France,France".
Definition goneRecord : obj :=
  recordOf goneEndpoint "Paris,Ile-de-France,France".
Definition osloRecord : obj :=
  recordOf "https://push.example/3" "Oslo,Oslo,Norway".

Definition threeRecords : list obj := [parisRecord; goneRecord; osloRecord].

Definition worldOf (c : list obj) : world :=
  {| db := c; pushes := []; requests := []; tick := 0 |}.

Definition helloPayload : value := VObj [("title", VStr (lit "Hello"))].

(** The weather API is down, the push service reports every endpoint as
    gone, and the store refuses removals (and nothing else). *)
Definition pruneFailsEnv : env :=
  {| tzOffset := 0;
     clock := fun _ => at_ 0 13 45;
     storeFails := fun _ op =>
       match op with OpDeleteOne => true | _ => false end;
     upstream := fun _ _ => None;
     transport := fun _ _ _ => Refused (Some 410);
     toLocaleTimeString := fun _ => [];
     toStringV := fun _ => [] |}.

(** The push service reports one endpoint as gone, as in [goneEnv], and
    the store refuses removals (and nothing else). *)
Definition goneKeptEnv : env :=
  {| tzOffset := 0;
     clock := fun _ => at_ 0 13 45;
     storeFails := fun _ op =>
       match op with OpDeleteOne => true | _ => false end;
     upstream := fun _ _ => None;
     transport := fun _ sub _ =>
       if value_eqb (optProp sub "endpoint") (VStr (lit goneEndpoint))
       then Refused (Some 410) else Delivered;
     toLocaleTimeString := fun _ => [];
     toStringV := fun _ => [] |}.

(** The record of [parisRecord] with the expiration time a browser can
    add to a subscription. *)
Definition expiringRecord : obj :=
  parisRecord ++ [("expirationTime", VNum 1700000000000)].

(** ** The weather routes (first document of the source, lines 12-68) *)

(** A query parameter or the API key inside a string: a string as it is,
    a missing one as ["undefined"], anything else as the language prints
    it. *)
Definition queryText (E : env) (v : value) : jsstring :=
  match v with
  | VStr s => s
  | VUndefined => lit "undefined"
  | VNull => lit "null"
  | _ => toStringV E v
  end.

(** [parts.join(sep)]. *)
Definition joinWith (sep : jsstring) (parts : list jsstring) : jsstring :=
  match parts with
  | [] => []
  | p :: r => p ++ concat (map (fun x => sep ++ x) r)
  end.

(** [[name, region, country].filter(Boolean).join(', ')] (line 28). *)
Definition locationQuery (E : env) (name region country : value)
  : jsstring :=
  joinWith (lit ", ")
    (map (queryText E) (filter truthy [name; region; country])).

(** A request to the forecast API: its URL and its [params]. *)
Definition forecastRequest (key : value) (q : jsstring) : obj :=
  [("url", VStr (lit "https://api.weatherapi.com/v1/forecast.json"));
   ("key", key);
   ("q", VStr q);
   ("days", VNum 3);
   ("aqi", VStr (lit "yes"));
   ("alerts", VStr (lit "yes"))].

Definition searchRequest (E : env) (key : value) (query : jsstring) : obj :=
  [("url",
    VStr (lit "http://api.weatherapi.com/v1/search.json?key="
          ++ queryText E key ++ lit "&q=" ++ query))].

(** [GET /search/:query] (lines 12-20); [key] is [WEATHER_API_KEY]. *)
Definition searchHandler (E : env) (key : value) (query : jsstring)
  : M response :=
  tryCatch
    (data <- axiosGet E (searchRequest E key query);;
     ret (respond 200 data))
    (fun _ =>
       ret (respond 500
              (VObj [("error",
                      VStr (lit "Failed to fetch location suggestions"))]))).

(** [GET /city] (lines 23-45); [query] is [req.query]. *)
Definition cityHandler (E : env) (key : value) (query : value)
  : M response :=
  tryCatch
    (name <- prop query "name";;
     region <- prop query "region";;
     country <- prop query "country";;
     let locationQuery := locationQuery E name region country in
     data <- axiosGet E (forecastRequest key locationQuery);;
     ret (respond 200 data))
    (fun error =>
       ret (respond 500
              (VObj [("error", VStr (lit "City weather fetch failed"))]))).

(** [GET /coords] (lines 48-68). *)
Definition coordsHandler (E : env) (key : value) (query : value)
  : M response :=
  tryCatch
    (lat <- prop query "lat";;
     lon <- prop query "lon";;
     data <- axiosGet E
               (forecastRequest key
                  (queryText E lat ++ lit "," ++ queryText E lon));;
     ret (respond 200 data))
    (fun error =>
       ret (respond 500
              (VObj [("error",
                      VStr (lit "Coordinates weather fetch failed"))]))).

(** ** The service worker ([src/frontend/public/sw.js]) *)

(** [event.data] of a push event: none, data that parses as JSON, or
    data on which [json()] throws. *)
Inductive pushData : Type :=
| NoData
| JsonData (v : value)
| MalformedData.

(** What [showNotification] is called with. *)
Record notification : Type := {
  shownTitle : value;
  shownBody : value;
  shownIcon : value;
  shownBadge : value;
  shownData : value;
  shownVibrate : list Z;
  shownActions : list (jsstring * jsstring)
}.

Definition defaultPayload : value :=
  VObj [("title", VStr (lit "Weather Update"));
        ("body", VStr (lit "New weather information available"));
        ("icon", VStr (lit "/icons/weather.png"))].

(** The [push] listener (lines 14-34); [None]: the listener throws.  The
    payload is truthy, so reading its properties cannot throw. *)
Definition onPush (data : pushData) : option notification :=
  match data with
  | MalformedData => None
  | _ =>
      let parsed := match data with JsonData v => v | _ => VUndefined end in
      let payload := if truthy parsed then parsed else defaultPayload in
      Some {| shownTitle := optProp payload "title";
              shownBody := optProp payload "body";
              shownIcon := optProp payload "icon";
              shownBadge := VStr (lit "/icons/badge.png");
              shownData := optProp payload "data";
              shownVibrate := [200; 100; 200];
              shownActions := [(lit "view", lit "View");
                               (lit "dismiss", lit "Dismiss")] |}
  end.

(** The [notificationclick] listener (lines 36-42): the notification is
    closed; the result is the URL of the window opened, if one is. *)
Definition onNotificationClick (action : value) (data : value)
  : option value :=
  if value_eqb action (VStr (lit "view"))
  then Some (if truthy (optProp data "url") then optProp data "url"
             else VStr (lit "/"))
  else None.

(** ** Vocabulary of the further statements *)

(** A record as the subscribe handler writes it and the scheduler keeps
    it. *)
Definition wellFormedRecord (d : obj) : Prop :=
  truthy (field "endpoint" d) = true
  /\ truthy (field "keys" d) = true
  /\ (exists s, field "location" d = VStr s /\ normalize s = s)
  /\ (exists t, field "createdAt" d = VDate t)
  /\ (field "lastNotified" d = VNull
      \/ exists t, field "lastNotified" d = VDate t)
  /\ (exists t, field "nextNotificationTime" d = VDate t).

Definition nonEmpty (s : jsstring) : bool :=
  match s with [] => false | _ => true end.

(** The records of a location. *)
Definition atLocation (location : value) (d : obj) : bool :=
  value_eqb location (field "location" d).

(** What a group is when [seen] is the list of the subscribers looked at
    so far. *)
Definition groupOf (seen : list obj) (g : value * list obj) : Prop :=
  isString (fst g) = true
  /\ snd g = filter (atLocation (fst g)) seen
  /\ snd g <> [].

(** The groups after the subscribers [seen]. *)
Definition groupsOf (seen : list obj) (groups : list (value * list obj))
  : Prop :=
  NoDup (map fst groups)
  /\ Forall (groupOf seen) groups
  /\ Forall (fun sub => In (field "location" sub) (map fst groups)) seen.

(** An environment like [quietEnv] that prints a string as it is. *)
Definition plainEnv : env :=
  {| tzOffset := 0;
     clock := fun _ => at_ 0 13 45;
     storeFails := fun _ _ => false;
     upstream := fun _ _ => None;
     transport := fun _ _ _ => Delivered;
     toLocaleTimeString := fun _ => lit "01:00 PM";
     toStringV := fun v => match v with VStr s => s | _ => [] end |}.

(** An hourly sample of the weather API. *)
Definition sampleHour (time : string) : value :=
  VObj [("time", VStr (lit time)); ("temp_c", VNum 20);
        ("condition",
         VObj [("text", VStr (lit "Clear")); ("icon", VStr (lit "sun.png"))]);
        ("cloud", VNum 0); ("chance_of_rain", VNum 0);
        ("wind_kph", VNum 5); ("wind_dir", VStr (lit "N")); ("uv", VNum 3)].

(** A computation that neither reads nor changes the world. *)
Definition pureM {A} (m : M A) : Prop :=
  exists r, forall w, m w = (r, w).

(** The payloads of a location for two hourly samples. *)
Definition payloadOf (m : M value) : value :=
  match fst (m emptyWorld) with Ok v => v | Throw _ => VUndefined end.

Definition samplePayloads (E : env) (location current next : value)
  : value * value :=
  (payloadOf (currentNotification E location
                (toLocaleTimeString E (optProp current "time")) current),
   payloadOf (forecastNotification E location
                (toLocaleTimeString E (optProp next "time")) next)).

(** The stamp the scheduler leaves on a record. *)
Definition notifiedAt (tz now : Z) (d : obj) : Prop :=
  field "lastNotified" d = VDate now
  /\ field "nextNotificationTime" d
     = VDate (calculateNextNotificationTime tz now).

(** A day of hourly samples as the weather API answers them, and an
    environment in which it does. *)
Definition sampleForecast : value :=
  VObj [("forecast",
         VObj [("forecastday",
                VArr [VObj [("hour",
                             VArr (repeat (sampleHour "2024-01-01 13:00")
                                     24))]])])].

Definition fairEnv : env :=
  {| tzOffset := 0;
     clock := fun _ => at_ 0 13 45;
     storeFails := fun _ _ => false;
     upstream := fun _ _ => Some sampleForecast;
     transport := fun _ _ _ => Delivered;
     toLocaleTimeString := fun _ => lit "01:00 PM";
     toStringV := fun v => match v with VStr s => s | _ => [] end |}.

(** The payloads the server composes: the two of
    [sendLocationNotifications] and the two failure notices. *)
Inductive composed (E : env) : value -> Prop :=
| ComposedCurrent : forall location currentTime data w p,
    fst (currentNotification E location currentTime data w) = Ok p ->
    composed E p
| ComposedForecast : forall location nextTime data w p,
    fst (forecastNotification E location nextTime data w) = Ok p ->
    composed E p
| ComposedFailed : forall label, composed E (failedPayload label)
| ComposedFailedBatch : forall label,
    composed E (failedPayloadBatch label).

(** Pushes were added, and all of them carry such a payload. *)
Definition pushesComposed (E : env) (w w' : world) : Prop :=
  exists new,
    pushes w' = pushes w ++ new
    /\ Forall (fun d => composed E (payload d)) new.

(** What the service worker makes of a payload: the notification shows
    the title, the body and the icon of the payload, title and body are
    strings, and the action [view] opens the root page. *)
Definition shownAsSent (p : value) : Prop :=
  exists n,
    onPush (JsonData p) = Some n
    /\ shownTitle n = optProp p "title"
    /\ shownBody n = optProp p "body"
    /\ shownIcon n = optProp p "icon"
    /\ isString (shownTitle n) = true
    /\ isString (shownBody n) = true
    /\ onNotificationClick (VStr (lit "view")) (shownData n)
       = Some (VStr (lit "/")).

(** The endpoints of the collection are among [known]. *)
Definition endpointsAmong (known : list value) (c : list obj) : Prop :=
  incl (Store.endpoints c) known.

(** The requests [fetchWeatherData] makes for a location: one, when the
    location is a string of at least three parts. *)
Definition weatherRequests (location : value) : list obj :=
  match location with
  | VStr s =>
      match split s with
      | a :: b :: c :: _ =>
          [[("name", VStr (trim a)); ("region", VStr (trim b));
            ("country", VStr (trim c))]]
      | _ => []
      end
  | _ => []
  end.

(** No request was made. *)
Definition sameRequests (w w' : world) : Prop := requests w' = requests w.

(** The times the timers of [scheduleTwoHourWeatherUpdates] are set for
    (lines 365-369), when it runs at [now]: the timeout after
    [minutesToNextUpdate * 60 * 1000] milliseconds for cycle 0, and the
    interval of [2 * 60 * 60 * 1000] milliseconds, started then, for the
    cycles after it. *)
Definition cycleTime (tz now : Z) (k : nat) : Z :=
  now + minutesToNextUpdate tz now * 60 * 1000
  + Z.of_nat k * (2 * 60 * 60 * 1000).

(** How a weather route answers in [w]: 200 with the data the API gave
    to its one request, or 500 with the error text of the route, after
    one request that failed or after none; the collection and the pushes
    are as they were. *)
Definition routeAnswer (E : env) (failure : string) (w : world)
    (run : result response * world) : Prop :=
  ((exists request data,
      upstream E (tick w) request = Some data
      /\ fst run = Ok (respond 200 data)
      /\ requests (snd run) = requests w ++ [request])
   \/ (fst run = Ok (respond 500 (VObj [("error", VStr (lit failure))]))
       /\ (requests (snd run) = requests w
           \/ exists request,
                upstream E (tick w) request = None
                /\ requests (snd run) = requests w ++ [request])))
  /\ db (snd run) = db w
  /\ pushes (snd run) = pushes w.

(** The turns of the loop of a cycle over the groups: each group with
    the world in which its turn starts, which is the world the turn
    before it has left. *)
Fixpoint turns (E : env) (groups : list (value * list obj)) (w : world)
  : list ((value * list obj) * world) :=
  match groups with
  | [] => []
  | g :: r => (g, w) :: turns E r (snd (processLocation E g w))
  end.

(** What is pushed in a turn. *)
Definition turnDeliveries (E : env) (t : (value * list obj) * world)
  : list delivery :=
  newDeliveries (snd t) (snd (processLocation E (fst t) (snd t))).

(** Pushes were added, none was taken away. *)
Definition extendsPushes (w w' : world) : Prop :=
  exists new, pushes w' = pushes w ++ new.

(** An environment like [fairEnv] in which the weather API has no
    answer for Paris. *)
Definition parisDownEnv : env :=
  {| tzOffset := 0;
     clock := fun _ => at_ 0 13 45;
     storeFails := fun _ _ => false;
     upstream := fun _ params =>
       if value_eqb (field "name" params) (VStr (lit "Paris"))
       then None else Some sampleForecast;
     transport := fun _ _ _ => Delivered;
     toLocaleTimeString := fun _ => lit "01:00 PM";
     toStringV := fun v => match v with VStr s => s | _ => [] end |}.

(* ================================================================== *)
(** * Part II: properties *)
(* ================================================================== *)

(** ** Location normalisation *)

Section Normalisation.

Lemma replaceSeparators_nil : replaceSeparators [] = [].
Proof. reflexivity. Qed.

Lemma replaceSeparators_match s rest :
  matchSeparator s = Some rest ->
  replaceSeparators s = comma :: replaceSeparators rest.
Proof.
  intros Hm. funelim (replaceSeparators s); first [congruence | discriminate].
Qed.

Lemma replaceSeparators_copy c r :
  matchSeparator (c :: r) = None ->
  replaceSeparators (c :: r) = c :: replaceSeparators r.
Proof.
  intros Hm. funelim (replaceSeparators (c :: r)); congruence.
Qed.

Lemma comma_not_space : isWhiteSpace comma = false.
Proof. reflexivity. Qed.

Lemma skipWhiteSpace_tight s : tight (skipWhiteSpace s).
Proof.
  unfold tight. induction s as [|c r IH]; simpl; [reflexivity|].
  destruct (isWhiteSpace c) eqn:Hc; [exact IH|]. simpl. now rewrite Hc.
Qed.

Lemma tight_cons c r : isWhiteSpace c = false -> tight (c :: r).
Proof. intros Hc. unfold tight. simpl. now rewrite Hc. Qed.

Lemma matchSeparator_space c r :
  isWhiteSpace c = true -> matchSeparator (c :: r) = matchSeparator r.
Proof. intros Hc. unfold matchSeparator. simpl. now rewrite Hc. Qed.

Lemma matchSeparator_other c r :
  isWhiteSpace c = false -> (c =? comma)%N = false ->
  matchSeparator (c :: r) = None.
Proof. intros Hc Hn. unfold matchSeparator. simpl. now rewrite Hc, Hn. Qed.

Lemma matchSeparator_comma r :
  matchSeparator (comma :: r) = Some (skipWhiteSpace r).
Proof. reflexivity. Qed.

Lemma matchSeparator_None_head c r :
  matchSeparator (c :: r) = None -> (c =? comma)%N = false.
Proof.
  intros Hm. destruct (c =? comma)%N eqn:Hc; [|reflexivity].
  apply N.eqb_eq in Hc. subst c. discriminate.
Qed.

Lemma matchSeparator_Some_tight s rest :
  matchSeparator s = Some rest -> tight rest.
Proof.
  unfold matchSeparator.
  destruct (skipWhiteSpace s) as [|c r]; [discriminate|].
  destruct (c =? comma)%N; [|discriminate].
  intros [= <-]. apply skipWhiteSpace_tight.
Qed.

(** The result of the replacement opens with white space only if the
    string did. *)
Lemma replaceSeparators_tight s : tight s -> tight (replaceSeparators s).
Proof.
  intros Ht. destruct s as [|c r]; [exact Ht|].
  assert (Hc : isWhiteSpace c = false).
  { unfold tight in Ht. simpl in Ht.
    destruct (isWhiteSpace c) eqn:Hc; [|reflexivity].
    pose proof (skipWhiteSpace_length r) as Hl.
    rewrite Ht in Hl. simpl in Hl. lia. }
  destruct (matchSeparator (c :: r)) as [rest|] eqn:Hm.
  - rewrite (replaceSeparators_match _ _ Hm).
    apply tight_cons, comma_not_space.
  - rewrite (replaceSeparators_copy _ _ Hm). now apply tight_cons.
Qed.

(** Where the pattern does not match, it does not match the result of
    the replacement either. *)
Lemma matchSeparator_replace_None s :
  matchSeparator s = None -> matchSeparator (replaceSeparators s) = None.
Proof.
  induction s as [|c r IH]; intros Hm; [reflexivity|].
  rewrite (replaceSeparators_copy _ _ Hm).
  destruct (isWhiteSpace c) eqn:Hc.
  - rewrite matchSeparator_space by assumption. apply IH.
    now rewrite <- (matchSeparator_space c r Hc).
  - apply matchSeparator_other; [assumption|].
    now apply matchSeparator_None_head with r.
Qed.

Lemma replaceSeparators_idempotent s :
  replaceSeparators (replaceSeparators s) = replaceSeparators s.
Proof.
  funelim (replaceSeparators s).
  - (* a separator was replaced *)
    rewrite (replaceSeparators_match (comma :: replaceSeparators rest)
               (replaceSeparators rest)).
    + now f_equal.
    + rewrite matchSeparator_comma. f_equal.
      apply replaceSeparators_tight.
      now apply matchSeparator_Some_tight with s.
  - reflexivity.
  - (* one code unit was copied *)
    assert (Hm : matchSeparator (c :: r) = None) by assumption.
    rewrite replaceSeparators_copy.
    + now f_equal.
    + destruct (isWhiteSpace c) eqn:Hc.
      * rewrite matchSeparator_space by assumption.
        apply matchSeparator_replace_None.
        now rewrite <- (matchSeparator_space c r Hc).
      * apply matchSeparator_other; [assumption|].
        now apply matchSeparator_None_head with r.
Qed.

End Normalisation.

(** C2.  The normalisation of a location on subscribe is idempotent, and
    it sends ["A , B , C"] and ["A,B,C"] to the same key, ["A,B,C"]. *)
Theorem normalize_idempotent_and_collapses :
  (forall x : jsstring, normalize (normalize x) = normalize x)
  /\ normalize (lit "A , B , C") = normalize (lit "A,B,C")
  /\ normalize (lit "A , B , C") = lit "A,B,C".
Proof.
  split; [|split].
  - intros x. apply replaceSeparators_idempotent.
  - reflexivity.
  - reflexivity.
Qed.

(** ** The next notification time *)

Lemma hour_floor t :
  Day t * msPerDay + HourFromTime t * msPerHour = (t / msPerHour) * msPerHour.
Proof.
  unfold Day, HourFromTime, msPerDay, msPerHour.
  replace 86400000 with (3600000 * 24) by reflexivity.
  rewrite <- Z.div_div by lia.
  pose proof (Z.div_mod (t / 3600000) 24 ltac:(lia)). lia.
Qed.

Lemma calculateNextNotificationTime_local tz now :
  LocalTime tz (calculateNextNotificationTime tz now)
  = (LocalTime tz now / msPerHour) * msPerHour + 2 * msPerHour.
Proof.
  unfold calculateNextNotificationTime, setHours, getHours, UTC, MakeDate,
    MakeTime.
  rewrite Z.rem_1_r.
  pose proof (hour_floor (LocalTime tz now)) as Hf.
  unfold LocalTime in *. lia.
Qed.

(** C1.  [calculateNextNotificationTime] truncates the local time to the
    hour and adds two hours: [hours % 1] is 0 for every hour, so the
    parity of the hour is never looked at.  At 13:45 it answers 15:00,
    where the next even-hour boundary is 14:00. *)
Theorem calculateNextNotificationTime_adds_two_hours :
  (forall tz now,
     LocalTime tz (calculateNextNotificationTime tz now)
     = (LocalTime tz now / msPerHour) * msPerHour + 2 * msPerHour)
  /\ calculateNextNotificationTime 0 (at_ 0 13 45) = at_ 0 15 0
  /\ calculateNextNotificationTime 0 (at_ 0 13 45) <> at_ 0 14 0.
Proof.
  split; [exact calculateNextNotificationTime_local|].
  split; [reflexivity|discriminate].
Qed.

(** ** The weather fetch *)

Lemma fetchWeatherData_short E w s :
  (length (split s) < 3)%nat ->
  fetchWeatherData E (VStr s) w = (Throw TypeError, w).
Proof.
  intros Hlen. unfold fetchWeatherData, tryCatch, bind, lift, throw. simpl.
  destruct (split s) as [|a [|b [|c r]]]; simpl in *; try reflexivity; lia.
Qed.

Lemma fetchWeatherData_three E w s a b c r :
  split s = a :: b :: c :: r ->
  fetchWeatherData E (VStr s) w
  = axiosGet E [("name", VStr (trim a)); ("region", VStr (trim b));
                ("country", VStr (trim c))] w.
Proof.
  intros Hs. unfold fetchWeatherData, tryCatch, bind, lift, throw. simpl.
  rewrite Hs. simpl. unfold axiosGet.
  destruct (upstream E (tick w) _); reflexivity.
Qed.

(** C7.  [fetchWeatherData] calls [trim] on the second and the third
    part of the location whether they are there or not: with one or
    two parts it throws a type error and no request reaches the weather
    API.  With three parts the request is made with the trimmed parts. *)
Theorem fetchWeatherData_needs_three_parts :
  forall E w,
    fetchWeatherData E (VStr (lit "Paris")) w = (Throw TypeError, w)
    /\ fetchWeatherData E (VStr (lit "Paris,France")) w = (Throw TypeError, w)
    /\ fetchWeatherData E (VStr (lit "Paris, Ile-de-France ,France")) w
       = axiosGet E [("name", VStr (lit "Paris"));
                     ("region", VStr (lit "Ile-de-France"));
                     ("country", VStr (lit "France"))] w.
Proof.
  intros E w. split; [|split].
  - apply fetchWeatherData_short. vm_compute. lia.
  - apply fetchWeatherData_short. vm_compute. lia.
  - erewrite fetchWeatherData_three by (vm_compute; reflexivity).
    reflexivity.
Qed.

(** ** Subscribe: a location that is no string *)

(** C10.  A subscribe request that passes the check of endpoint and keys
    and whose location is missing or is no string is answered with 500:
    [location.replace] throws before the clock is read and before the
    store is called, so nothing of the world has changed. *)
Theorem subscribe_location_not_string E w body :
  wellFormedSubscription body ->
  isString (field "location" body) = false ->
  subscribeHandler E (VObj body) w = (Ok internalServerError, w).
Proof.
  intros [Hendpoint Hkeys] Hloc.
  unfold subscribeHandler, tryCatch, bind, prop, lift, ret. simpl.
  rewrite Hendpoint, Hkeys. simpl.
  destruct (field "location" body); simpl in *;
    first [discriminate | reflexivity].
Qed.

Lemma subscribe_location_not_string_witness :
  wellFormedSubscription
    [("subscription", VObj (subscriptionOf "https://push.example/1"))]
  /\ subscribeHandler quietEnv
       (VObj [("subscription", VObj (subscriptionOf "https://push.example/1"))])
       emptyWorld
     = (Ok internalServerError, emptyWorld).
Proof.
  assert (Hwf : wellFormedSubscription
            [("subscription", VObj (subscriptionOf "https://push.example/1"))])
    by (split; reflexivity).
  split; [exact Hwf|].
  apply (subscribe_location_not_string quietEnv emptyWorld _ Hwf).
  reflexivity.
Defined.

(** ** Values and objects *)

Lemma jsstring_eqb_eq s t : JsString.eqb s t = true <-> s = t.
Proof.
  unfold JsString.eqb. destruct (list_eq_dec N.eq_dec s t); split;
    congruence.
Qed.

Lemma value_eqb_eq a : forall b, value_eqb a b = true <-> a = b.
Proof.
  induction a as [| | x | x | x | x | xs IH | fs IH]
    using value_nested_ind;
    intros b; destruct b as [| | y | y | y | y | ys | gs]; simpl;
    try (split; congruence).
  - rewrite Bool.eqb_true_iff. split; congruence.
  - rewrite Z.eqb_eq. split; congruence.
  - rewrite jsstring_eqb_eq. split; congruence.
  - rewrite Z.eqb_eq. split; congruence.
  - (* arrays *)
    revert ys. induction IH as [|x xs Hx _ IHxs]; intros ys.
    + destruct ys; split; congruence.
    + destruct ys as [|y ys]; [split; congruence|].
      rewrite andb_true_iff, Hx. specialize (IHxs ys).
      split.
      * intros [-> Hgo]. apply IHxs in Hgo. congruence.
      * intros [= -> ->]. split; [reflexivity|]. now apply IHxs.
  - (* objects *)
    revert gs. induction IH as [|[k x] fs Hx _ IHfs]; intros gs.
    + destruct gs; split; congruence.
    + destruct gs as [|[k' y] gs]; [split; congruence|].
      rewrite !andb_true_iff, String.eqb_eq. simpl in Hx. rewrite Hx.
      specialize (IHfs gs).
      split.
      * intros [[-> ->] Hgo]. apply IHfs in Hgo. congruence.
      * intros [= -> -> ->]. repeat split. now apply IHfs.
Qed.

Lemma value_eqb_refl a : value_eqb a a = true.
Proof. now apply value_eqb_eq. Qed.

Lemma hasKey_lookup k o : hasKey k o = false -> lookup k o = None.
Proof.
  unfold hasKey. induction o as [|[k' v] r IH]; simpl; [reflexivity|].
  intros H. apply orb_false_iff in H as [Hk Hr].
  rewrite (IH Hr), Hk. reflexivity.
Qed.

Lemma lookup_app k o o' :
  lookup k (o ++ o')
  = match lookup k o' with Some v => Some v | None => lookup k o end.
Proof.
  induction o as [|[k' v] r IH]; simpl.
  - now destruct (lookup k o').
  - rewrite IH. now destruct (lookup k o').
Qed.

Lemma lookup_setField_same k v o : lookup k (setField k v o) = Some v.
Proof.
  unfold setField. destruct (hasKey k o) eqn:Hk.
  - unfold hasKey in Hk. induction o as [|[k' v'] r IH]; [discriminate|].
    simpl in *. destruct (String.eqb k k') eqn:Hkk'; simpl.
    + rewrite String.eqb_refl.
      destruct (existsb (fun kv => String.eqb k (fst kv)) r) eqn:Hr.
      * now rewrite (IH eq_refl).
      * fold (hasKey k r) in Hr.
        assert (Hmap : map (fun kv : string * value =>
                        if String.eqb k (fst kv) then (k, v) else kv) r = r).
        { clear - Hr. unfold hasKey in Hr.
          induction r as [|[k2 v2] r IH]; [reflexivity|]. simpl in *.
          apply orb_false_iff in Hr as [H1 H2]. rewrite H1.
          now rewrite (IH H2). }
        rewrite Hmap, (hasKey_lookup _ _ Hr). reflexivity.
    + rewrite (IH Hk). reflexivity.
  - rewrite lookup_app. simpl. now rewrite String.eqb_refl.
Qed.

Lemma lookup_setField_other k k' v o :
  k <> k' -> lookup k (setField k' v o) = lookup k o.
Proof.
  intros Hne. apply String.eqb_neq in Hne.
  unfold setField. destruct (hasKey k' o).
  - induction o as [|[k2 v2] r IH]; [reflexivity|]. simpl.
    destruct (String.eqb k' k2) eqn:H2; simpl; rewrite IH;
      [|reflexivity].
    apply String.eqb_eq in H2. subst k2. now rewrite Hne.
  - rewrite lookup_app. simpl. now rewrite Hne.
Qed.

Lemma field_setField_same k v o : field k (setField k v o) = v.
Proof. unfold field. now rewrite lookup_setField_same. Qed.

Lemma field_setField_other k k' v o :
  k <> k' -> field k (setField k' v o) = field k o.
Proof. intros H. unfold field. now rewrite lookup_setField_other. Qed.

(** What [{ ...o, ...upd }] holds under the key [k]. *)
Lemma field_assign k upd : forall o,
  field k (assign o upd)
  = match lookup k upd with Some v => v | None => field k o end.
Proof.
  unfold assign.
  induction upd as [|[k' v'] r IH]; intros o; simpl; [reflexivity|].
  rewrite IH. destruct (lookup k r); [reflexivity|].
  destruct (String.eqb k k') eqn:Hk.
  - apply String.eqb_eq in Hk. subst. apply field_setField_same.
  - apply String.eqb_neq in Hk. now apply field_setField_other.
Qed.

Lemma field_assign_absent k upd o :
  lookup k upd = None -> field k (assign o upd) = field k o.
Proof. intros H. now rewrite field_assign, H. Qed.

Lemma field_assign_present k upd o :
  lookup k upd <> None -> field k (assign o upd) = field k upd.
Proof.
  intros H. rewrite field_assign. unfold field.
  destruct (lookup k upd); [reflexivity|congruence].
Qed.

(** ** The collection *)

Import Store.

Lemma truthy_notNullish v : truthy v = true -> notNullish v = true.
Proof. destruct v; simpl; congruence. Qed.

Lemma isString_notNullish v : isString v = true -> notNullish v = true.
Proof. destruct v; simpl; congruence. Qed.

Lemma matches_endpoint e d :
  notNullish e = true ->
  matches [("endpoint", e)] d = true <-> field "endpoint" d = e.
Proof.
  intros He. unfold matches. simpl. rewrite andb_true_r.
  assert (Hm : matchValue e (field "endpoint" d)
               = value_eqb e (field "endpoint" d))
    by (destruct e; simpl in *; congruence).
  rewrite Hm, value_eqb_eq. split; congruence.
Qed.

Lemma matches_endpoint_false e d :
  notNullish e = true ->
  matches [("endpoint", e)] d = false <-> field "endpoint" d <> e.
Proof.
  intros He. rewrite <- (matches_endpoint e d He).
  destruct (matches _ d); split; congruence.
Qed.

Lemma hasEndpoint_In e c :
  notNullish e = true ->
  hasEndpoint e c = true <-> In e (endpoints c).
Proof.
  intros He. unfold hasEndpoint, endpoints.
  rewrite existsb_exists, in_map_iff. split.
  - intros [d [Hin Hm]]. exists d. split; [|assumption].
    now apply matches_endpoint.
  - intros [d [Hf Hin]]. exists d. split; [assumption|].
    now apply matches_endpoint.
Qed.

Lemma hasEndpoint_not_In e c :
  notNullish e = true ->
  hasEndpoint e c = false <-> ~ In e (endpoints c).
Proof.
  intros He. rewrite <- (hasEndpoint_In e c He).
  destruct (hasEndpoint e c); split; congruence.
Qed.

Lemma firstMatch_exists filter c :
  existsb (matches filter) c = true ->
  exists before d after, firstMatch filter c before d after.
Proof.
  induction c as [|d r IH]; simpl; [discriminate|].
  destruct (matches filter d) eqn:Hd; simpl.
  - intros _. exists [], d, r. now apply (FirstMatch filter []).
  - intros Hr. destruct (IH Hr) as [before [d' [after Hfm]]].
    inversion Hfm as [b d0 a Hb Hd0 Heq]; subst.
    exists (d :: before), d', after.
    apply (FirstMatch filter (d :: before)); [|assumption].
    simpl. now rewrite Hd.
Qed.

Lemma updateFirst_firstMatch filter upd c before d after :
  firstMatch filter c before d after ->
  updateFirst filter upd c = Some (before ++ assign d upd :: after).
Proof.
  intros Hfm. inversion Hfm as [b d0 a Hb Hd Heq]; subst. clear Hfm.
  induction before as [|x r IH]; simpl.
  - now rewrite Hd.
  - simpl in Hb. apply orb_false_iff in Hb as [Hx Hr].
    rewrite Hx, (IH Hr). reflexivity.
Qed.

Lemma updateFirst_none filter upd c :
  existsb (matches filter) c = false -> updateFirst filter upd c = None.
Proof.
  induction c as [|d r IH]; simpl; [reflexivity|].
  intros H. apply orb_false_iff in H as [Hd Hr].
  now rewrite Hd, (IH Hr).
Qed.

Lemma deleteOne_firstMatch filter c before d after :
  firstMatch filter c before d after ->
  deleteOne filter c = before ++ after.
Proof.
  intros Hfm. inversion Hfm as [b d0 a Hb Hd Heq]; subst. clear Hfm.
  induction before as [|x r IH]; simpl.
  - now rewrite Hd.
  - simpl in Hb. apply orb_false_iff in Hb as [Hx Hr].
    now rewrite Hx, (IH Hr).
Qed.

Lemma deleteOne_none filter c :
  existsb (matches filter) c = false -> deleteOne filter c = c.
Proof.
  induction c as [|d r IH]; simpl; [reflexivity|].
  intros H. apply orb_false_iff in H as [Hd Hr].
  now rewrite Hd, (IH Hr).
Qed.

(** *** Uniqueness of the endpoints *)

Lemma endpoints_app c c' : endpoints (c ++ c') = endpoints c ++ endpoints c'.
Proof. apply map_app. Qed.

(** The update of a subscribe: the filter asks for the endpoint [e] and
    the document written carries [e] as its endpoint. *)
Lemma upsert_endpoints e upd c :
  notNullish e = true ->
  field "endpoint" upd = e ->
  endpoints (updateOneUpsert [("endpoint", e)] upd c)
  = if hasEndpoint e c then endpoints c else endpoints c ++ [e].
Proof.
  intros He Hupd.
  assert (Hpresent : lookup "endpoint" upd <> None).
  { unfold field in Hupd. destruct (lookup "endpoint" upd); [congruence|].
    subst e. discriminate. }
  unfold updateOneUpsert, hasEndpoint.
  destruct (existsb (matches [("endpoint", e)]) c) eqn:Hex.
  - destruct (firstMatch_exists _ _ Hex) as [before [d [after Hfm]]].
    rewrite (updateFirst_firstMatch _ upd _ _ _ _ Hfm).
    inversion Hfm as [b d0 a Hb Hd Heq]; subst.
    rewrite !endpoints_app. simpl. f_equal. f_equal.
    rewrite (field_assign_present _ _ _ Hpresent).
    symmetry. now apply matches_endpoint.
  - rewrite (updateFirst_none _ _ _ Hex), endpoints_app. simpl.
    f_equal. f_equal. rewrite (field_assign_present _ _ _ Hpresent).
    exact Hupd.
Qed.

Lemma upsert_unique e upd c :
  notNullish e = true ->
  field "endpoint" upd = e ->
  endpointsUnique c ->
  endpointsUnique (updateOneUpsert [("endpoint", e)] upd c).
Proof.
  intros He Hupd Hc. unfold endpointsUnique.
  rewrite (upsert_endpoints e upd c He Hupd).
  destruct (hasEndpoint e c) eqn:Hex; [assumption|].
  apply (hasEndpoint_not_In e c He) in Hex.
  apply NoDup_app; [assumption|repeat constructor; intros []|].
  intros x Hx [<-|[]]. contradiction.
Qed.

Lemma deleteOne_cases filter c :
  deleteOne filter c = c
  \/ exists before d after,
       c = before ++ d :: after /\ deleteOne filter c = before ++ after
       /\ matches filter d = true.
Proof.
  destruct (existsb (matches filter) c) eqn:Hex.
  - right. destruct (firstMatch_exists _ _ Hex) as [before [d [after Hfm]]].
    exists before, d, after.
    rewrite (deleteOne_firstMatch _ _ _ _ _ Hfm).
    inversion Hfm; subst. auto.
  - left. now apply deleteOne_none.
Qed.

Lemma deleteOne_unique filter c :
  endpointsUnique c -> endpointsUnique (deleteOne filter c).
Proof.
  unfold endpointsUnique. intros Hc.
  destruct (deleteOne_cases filter c) as [->|[before [d [after [Hc' [-> _]]]]]];
    [assumption|].
  subst c. rewrite endpoints_app in *. simpl in Hc.
  now apply NoDup_remove_1 in Hc.
Qed.

(** A removal leaves records that were there. *)
Lemma deleteOne_Forall (Q : obj -> Prop) filter c :
  Forall Q c -> Forall Q (Store.deleteOne filter c).
Proof.
  intros H.
  destruct (deleteOne_cases filter c)
    as [->|[before [d [after [-> [-> _]]]]]]; [assumption|].
  apply Forall_app in H as [Hb Ha]. inversion Ha; subst.
  apply Forall_app. auto.
Qed.

Lemma updateMany_endpoints filter upd c :
  lookup "endpoint" upd = None ->
  endpoints (updateMany filter upd c) = endpoints c.
Proof.
  intros Hupd. unfold endpoints, updateMany. rewrite map_map.
  apply map_ext. intros d. destruct (matches filter d); [|reflexivity].
  now apply field_assign_absent.
Qed.

Lemma updateMany_unique filter upd c :
  lookup "endpoint" upd = None ->
  endpointsUnique c -> endpointsUnique (updateMany filter upd c).
Proof.
  intros Hupd. unfold endpointsUnique. now rewrite updateMany_endpoints.
Qed.

(** *** What a removal leaves *)

Lemma deleteOne_removes e c :
  notNullish e = true -> endpointsUnique c ->
  hasEndpoint e (deleteOne [("endpoint", e)] c) = false.
Proof.
  intros He Hc. apply (hasEndpoint_not_In e _ He).
  destruct (existsb (matches [("endpoint", e)]) c) eqn:Hex.
  - destruct (firstMatch_exists _ _ Hex) as [before [d [after Hfm]]].
    rewrite (deleteOne_firstMatch _ _ _ _ _ Hfm).
    inversion Hfm as [b d0 a Hb Hd Heq]; subst.
    unfold endpointsUnique in Hc. rewrite endpoints_app in Hc. simpl in Hc.
    apply NoDup_remove_2 in Hc. rewrite endpoints_app.
    apply (matches_endpoint e d He) in Hd. now rewrite Hd in Hc.
  - rewrite (deleteOne_none _ _ Hex).
    now apply (hasEndpoint_not_In e c He).
Qed.

Lemma deleteOne_keeps_others e d c :
  notNullish e = true ->
  field "endpoint" d <> e ->
  In d (deleteOne [("endpoint", e)] c) <-> In d c.
Proof.
  intros He Hd.
  destruct (deleteOne_cases [("endpoint", e)] c)
    as [->|[before [x [after [-> [-> Hx]]]]]]; [reflexivity|].
  apply (matches_endpoint e x He) in Hx.
  rewrite !in_app_iff. simpl. split; [tauto|].
  intros [H|[H|H]]; [tauto| |tauto]. subst x. contradiction.
Qed.

Lemma deleteOne_hasEndpoint_other e e' c :
  notNullish e = true -> notNullish e' = true -> e' <> e ->
  hasEndpoint e' (deleteOne [("endpoint", e)] c) = hasEndpoint e' c.
Proof.
  intros He He' Hne.
  destruct (deleteOne_cases [("endpoint", e)] c)
    as [->|[before [x [after [-> [-> Hx]]]]]]; [reflexivity|].
  apply (matches_endpoint e x He) in Hx.
  unfold hasEndpoint. rewrite !existsb_app. cbn [existsb].
  assert (Hx' : matches [("endpoint", e')] x = false).
  { apply (matches_endpoint_false e' x He'). congruence. }
  now rewrite Hx'.
Qed.

Lemma deleteOne_length e c :
  hasEndpoint e c = true ->
  S (length (deleteOne [("endpoint", e)] c)) = length c.
Proof.
  unfold hasEndpoint. intros Hex.
  destruct (firstMatch_exists _ _ Hex) as [before [d [after Hfm]]].
  rewrite (deleteOne_firstMatch _ _ _ _ _ Hfm).
  inversion Hfm; subst. rewrite !length_app. simpl. lia.
Qed.

(** ** Running the monad *)

Lemma bind_Ok {A B} (m : M A) (k : A -> M B) w a w' :
  m w = (Ok a, w') -> bind m k w = k a w'.
Proof. intros H. unfold bind. now rewrite H. Qed.

Lemma bind_Throw {A B} (m : M A) (k : A -> M B) w e w' :
  m w = (Throw e, w') -> bind m k w = (Throw e, w').
Proof. intros H. unfold bind. now rewrite H. Qed.

Lemma tryCatch_Ok {A} (m : M A) h w a w' :
  m w = (Ok a, w') -> tryCatch m h w = (Ok a, w').
Proof. intros H. unfold tryCatch. now rewrite H. Qed.

Lemma tryCatch_Throw {A} (m : M A) h w e w' :
  m w = (Throw e, w') -> tryCatch m h w = h e w'.
Proof. intros H. unfold tryCatch. now rewrite H. Qed.

Lemma result_cases {A} (m : M A) w :
  (exists a w', m w = (Ok a, w')) \/ (exists e w', m w = (Throw e, w')).
Proof. destruct (m w) as [[a|e] w']; eauto. Qed.

(** A handler that always returns makes the whole [try] return. *)
Lemma tryCatch_returns {A} (m : M A) h w :
  (forall e w1, exists a w', h e w1 = (Ok a, w')) ->
  exists a w', tryCatch m h w = (Ok a, w').
Proof.
  intros Hh. unfold tryCatch. destruct (m w) as [[a|e] w1]; eauto.
Qed.

Lemma tryCatch_returns_unit (m : M unit) h w :
  (forall e w1, exists w', h e w1 = (Ok tt, w')) ->
  exists w', tryCatch m h w = (Ok tt, w').
Proof.
  intros Hh. unfold tryCatch. destruct (m w) as [[[]|e] w1]; eauto.
Qed.

(** ** One delivery of a batch *)

Ltac run_monad :=
  unfold settle, deliverTo, sendNotification, tryCatch, bind, webpushSend,
    deleteOneM, updateOneUpsertM, updateManyM, findM, findOneM, storeCall,
    newDate, axiosGet, prop, lift, ret, throw, advance; simpl.

(** The promise of one subscriber as [Promise.allSettled] sees it: it
    always settles; the push is handed to the push service once; the
    collection is left alone or loses the record of this endpoint. *)
Lemma settle_deliverTo E sub p w :
  exists res w',
    settle (deliverTo E sub p) w = (Ok res, w')
    /\ pushes w'
       = pushes w
         ++ [Build_delivery (VObj sub) p (transport E (tick w) (VObj sub) p)]
    /\ requests w' = requests w
    /\ (res = Fulfilled <-> transport E (tick w) (VObj sub) p = Delivered)
    /\ (db w' = db w
        \/ db w'
           = Store.deleteOne [("endpoint", field "endpoint" sub)] (db w))
    /\ (storeAccepts E OpDeleteOne -> stringEndpoint sub ->
        res = settledOf (transport E (tick w) (VObj sub) p)
        /\ db w'
           = if permanentFailure (transport E (tick w) (VObj sub) p)
             then Store.deleteOne [("endpoint", field "endpoint" sub)] (db w)
             else db w).
Proof.
  run_monad.
  destruct (transport E (tick w) (VObj sub) p) as [|sc] eqn:Ho; simpl.
  - eexists _, _. repeat split; auto.
  - unfold stringEndpoint.
    destruct (field "endpoint" sub) eqn:Hep; simpl;
      try (eexists _, _; repeat split; auto; discriminate).
    destruct (isGone sc) eqn:Hgone; simpl.
    + destruct (storeFails E (S (tick w)) OpDeleteOne) eqn:Hfail; simpl.
      * eexists _, _. repeat split; auto; try discriminate.
        all: match goal with
             | Hacc : storeAccepts _ _ |- _ =>
                 specialize (Hacc (S (tick w))); congruence
             end.
      * eexists _, _. repeat split; auto; discriminate.
    + eexists _, _. repeat split; auto; discriminate.
Qed.

(** ** A batch *)

Lemma deliveriesTo_cons sub subs p o answers :
  deliveriesTo (sub :: subs) p (o :: answers)
  = Build_delivery (VObj sub) p o :: deliveriesTo subs p answers.
Proof. reflexivity. Qed.

Lemma deliveriesTo_length subs p answers :
  length answers = length subs ->
  length (deliveriesTo subs p answers) = length subs.
Proof.
  intros H. unfold deliveriesTo. rewrite length_map, length_combine. lia.
Qed.

Lemma deliveriesTo_recipients subs p answers :
  length answers = length subs ->
  map (fun d => (recipient d, payload d)) (deliveriesTo subs p answers)
  = map (fun sub => (VObj sub, p)) subs.
Proof.
  revert answers. induction subs as [|sub r IH]; intros [|o answers] H;
    simpl in *; try reflexivity; try discriminate.
  f_equal. apply IH. lia.
Qed.

Lemma deliveriesTo_answers subs p answers :
  length answers = length subs ->
  map answer (deliveriesTo subs p answers) = answers.
Proof.
  revert answers. induction subs as [|sub r IH]; intros [|o answers] H;
    simpl in *; try reflexivity; try discriminate.
  f_equal. apply IH. lia.
Qed.

(** The deliveries of a batch, one subscriber after the other: every
    promise settles, whatever became of the ones before. *)
Lemma batch_settles E p : forall subs w,
  exists answers results w',
    mapM (fun sub => settle (deliverTo E sub p)) subs w = (Ok results, w')
    /\ length answers = length subs
    /\ length results = length subs
    /\ pushes w' = pushes w ++ deliveriesTo subs p answers
    /\ requests w' = requests w
    /\ Forall2 (fun o res => res = Fulfilled <-> o = Delivered)
         answers results
    /\ (storeAccepts E OpDeleteOne -> Forall stringEndpoint subs ->
        results = map settledOf answers
        /\ db w' = pruneAll (combine subs answers) (db w)).
Proof.
  induction subs as [|sub r IH]; intros w.
  - exists [], [], w. simpl. rewrite app_nil_r. repeat split; auto.
  - destruct (settle_deliverTo E sub p w)
      as [res [w1 [Hrun [Hpush [Hreq [Hres [_ Hdb]]]]]]].
    destruct (IH w1)
      as [answers [results [w' [Hrun' [Hla [Hlr [Hpush' [Hreq' [Hall Hdb']]]]]]]]].
    exists (transport E (tick w) (VObj sub) p :: answers), (res :: results), w'.
    split.
    { simpl mapM. rewrite (bind_Ok _ _ _ _ _ Hrun).
      rewrite (bind_Ok _ _ _ _ _ Hrun'). reflexivity. }
    split; [simpl; lia|]. split; [simpl; lia|].
    split.
    { rewrite Hpush', Hpush, deliveriesTo_cons, <- app_assoc. reflexivity. }
    split; [congruence|].
    split; [now constructor|].
    intros Hacc Hstr. inversion Hstr as [|? ? Hsub Hr]; subst.
    destruct (Hdb Hacc Hsub) as [-> Hdb1].
    destruct (Hdb' Hacc Hr) as [-> Hdb2].
    split; [reflexivity|].
    simpl. rewrite Hdb2, Hdb1. reflexivity.
Qed.

(** [sendBatchNotifications] returns: nothing for no subscriber, and
    otherwise one outcome per subscriber. *)
Lemma sendBatchNotifications_settles E p subs w :
  exists answers results w',
    sendBatchNotifications E subs p w
    = (Ok (match subs with [] => None | _ => Some results end), w')
    /\ length answers = length subs
    /\ length results = length subs
    /\ pushes w' = pushes w ++ deliveriesTo subs p answers
    /\ requests w' = requests w
    /\ Forall2 (fun o res => res = Fulfilled <-> o = Delivered)
         answers results
    /\ (storeAccepts E OpDeleteOne -> Forall stringEndpoint subs ->
        results = map settledOf answers
        /\ db w' = pruneAll (combine subs answers) (db w)).
Proof.
  destruct (batch_settles E p subs w)
    as [answers [results [w' [Hrun H]]]].
  exists answers, results, w'. split; [|exact H].
  destruct subs as [|sub r].
  - simpl in Hrun. injection Hrun as _ <-. reflexivity.
  - unfold sendBatchNotifications.
    rewrite (bind_Ok _ _ _ _ _ Hrun). reflexivity.
Qed.

(** ** What the removals of a batch leave *)

Lemma newDeliveries_app w w' new :
  pushes w' = pushes w ++ new -> newDeliveries w w' = new.
Proof.
  intros H. unfold newDeliveries. rewrite H.
  generalize (pushes w) as l. intros l.
  induction l as [|d r IH]; simpl; auto.
Qed.

Lemma pruneAll_unique entries : forall c,
  endpointsUnique c -> endpointsUnique (pruneAll entries c).
Proof.
  induction entries as [|[sub o] r IH]; intros c Hc; simpl; [assumption|].
  apply IH. destruct (permanentFailure o); [|assumption].
  now apply deleteOne_unique.
Qed.

Lemma sameEndpoint_true a b :
  sameEndpoint a b = true <-> field "endpoint" a = field "endpoint" b.
Proof. apply value_eqb_eq. Qed.

Lemma sameEndpoint_false a b :
  sameEndpoint a b = false <-> field "endpoint" a <> field "endpoint" b.
Proof.
  rewrite <- sameEndpoint_true. destruct (sameEndpoint a b); split; congruence.
Qed.

(** A record is in the collection after the removals exactly if it was
    there before and no subscriber with its endpoint failed for good. *)
Lemma pruneAll_retained entries d : forall c,
  endpointsUnique c ->
  Forall (fun so => stringEndpoint (fst so)) entries ->
  stringEndpoint d ->
  retained (pruneAll entries c) d
  = retained c d && negb (failedForGood entries d).
Proof.
  unfold retained, failedForGood.
  induction entries as [|[sub o] r IH]; intros c Hc Hstr Hd; simpl.
  - now rewrite andb_true_r.
  - inversion Hstr as [|? ? Hsub Hr]; subst. simpl in Hsub.
    pose proof (isString_notNullish _ Hsub) as Hn.
    pose proof (isString_notNullish _ Hd) as Hnd.
    destruct (permanentFailure o) eqn:Ho.
    + rewrite IH; [|now apply deleteOne_unique|assumption|assumption].
      destruct (sameEndpoint sub d) eqn:Hsame; simpl.
      * apply sameEndpoint_true in Hsame. rewrite <- Hsame.
        rewrite (deleteOne_removes _ _ Hn Hc). simpl.
        now rewrite andb_false_r.
      * apply sameEndpoint_false in Hsame.
        rewrite deleteOne_hasEndpoint_other by congruence. reflexivity.
    + rewrite andb_false_r. simpl. now apply IH.
Qed.

(** The records of the other endpoints stay as they are. *)
Lemma pruneAll_others entries d : forall c,
  Forall (fun so => stringEndpoint (fst so)) entries ->
  (forall so, In so entries -> permanentFailure (snd so) = true ->
     field "endpoint" (fst so) <> field "endpoint" d) ->
  In d (pruneAll entries c) <-> In d c.
Proof.
  induction entries as [|[sub o] r IH]; intros c Hstr Hother; simpl;
    [reflexivity|].
  inversion Hstr as [|? ? Hsub Hr]; subst. simpl in Hsub.
  rewrite IH; [|assumption|intros so Hin; apply Hother; now right].
  destruct (permanentFailure o) eqn:Ho; [|reflexivity].
  apply deleteOne_keeps_others; [now apply isString_notNullish|].
  intros Heq. apply (Hother (sub, o)); [now left|assumption|now symmetry].
Qed.

Lemma combine_fst_stringEndpoint subs (answers : list pushOutcome) :
  Forall stringEndpoint subs ->
  Forall (fun so => stringEndpoint (fst so)) (combine subs answers).
Proof.
  intros H. revert answers.
  induction H as [|sub r Hsub _ IH]; intros [|o answers]; simpl;
    constructor; auto.
Qed.

(** ** Permanent failures prune the subscription *)

Lemma sendNotification_spec E sub p w :
  storeAccepts E OpDeleteOne ->
  exists w',
    sendNotification E (VObj sub) p w
    = (Ok (isDelivered (transport E (tick w) (VObj sub) p)), w')
    /\ pushes w'
       = pushes w
         ++ [Build_delivery (VObj sub) p (transport E (tick w) (VObj sub) p)]
    /\ requests w' = requests w
    /\ db w' = pruneAll [(sub, transport E (tick w) (VObj sub) p)] (db w).
Proof.
  intros Hacc. run_monad.
  destruct (transport E (tick w) (VObj sub) p) as [|sc] eqn:Ho; simpl.
  - eexists. repeat split.
  - destruct (isGone sc) eqn:Hgone; simpl.
    + rewrite (Hacc (S (tick w))). simpl. eexists. repeat split.
    + eexists. repeat split.
Qed.


Ltac distinct_values :=
  repeat (constructor; [simpl; intuition discriminate|]); constructor.



(** ** One outcome per subscriber *)

Lemma existsb_all_false {A} (f : A -> bool) l :
  (forall x, In x l -> f x = false) -> existsb f l = false.
Proof.
  induction l as [|a r IH]; intros H; simpl; [reflexivity|].
  rewrite (H a (or_introl eq_refl)), IH; [reflexivity|].
  intros x Hx. apply H. now right.
Qed.

Lemma sameEndpoint_refl s : sameEndpoint s s = true.
Proof. apply value_eqb_refl. Qed.

(** Among subscribers with distinct endpoints, the one whose record goes
    is the one whose own delivery failed for good. *)
Lemma failedForGood_own subs : forall (answers : list pushOutcome) pre,
  length answers = length subs ->
  NoDup (endpoints subs) ->
  (forall so s, In so pre -> In s subs -> sameEndpoint (fst so) s = false) ->
  map (fun s => negb (failedForGood (pre ++ combine subs answers) s)) subs
  = map (fun o => negb (permanentFailure o)) answers.
Proof.
  induction subs as [|s0 r IH]; intros [|o answers] pre Hlen Hnd Hpre;
    simpl in *; try reflexivity; try discriminate.
  inversion Hnd as [|? ? Hnotin Hnd']; subst.
  assert (Hdiff : forall s, In s r -> sameEndpoint s0 s = false).
  { intros s Hs. apply sameEndpoint_false. intros Heq. apply Hnotin.
    rewrite Heq. unfold endpoints. now apply in_map. }
  f_equal.
  - f_equal. unfold failedForGood. rewrite existsb_app. simpl.
    rewrite sameEndpoint_refl. simpl.
    rewrite existsb_all_false.
    + simpl. destruct (permanentFailure o); [reflexivity|]. simpl.
      apply existsb_all_false. intros [s o'] Hin. simpl.
      apply in_combine_l in Hin.
      assert (Hs : sameEndpoint s s0 = false).
      { apply sameEndpoint_false. intros Heq.
        specialize (Hdiff s Hin). apply sameEndpoint_false in Hdiff.
        congruence. }
      now rewrite Hs.
    + intros so Hso. rewrite (Hpre so s0 Hso (or_introl eq_refl)).
      reflexivity.
  - specialize (IH answers (pre ++ [(s0, o)])).
    rewrite <- app_assoc in IH. simpl in IH. apply IH.
    + lia.
    + assumption.
    + intros so s Hso Hs. apply in_app_iff in Hso as [Hso|[<-|[]]].
      * apply Hpre; [assumption|now right].
      * simpl. now apply Hdiff.
Qed.

Lemma filter_map_length {A B} (f : A -> bool) (g : B -> bool) l l' :
  map f l = map g l' -> length (filter f l) = length (filter g l').
Proof.
  revert l'. induction l as [|a r IH]; intros [|b r'] H; simpl in *;
    try reflexivity; try discriminate.
  injection H as Hab Hr. rewrite Hab.
  destruct (g b); simpl; auto.
Qed.

(** The subscribers whose record is still there after a batch are as
    many as the deliveries that did not fail for good. *)
Lemma retained_count subs answers c :
  length answers = length subs ->
  endpointsUnique c ->
  Forall stringEndpoint subs ->
  NoDup (endpoints subs) ->
  Forall (fun s => retained c s = true) subs ->
  length (filter (retained (pruneAll (combine subs answers) c)) subs)
  = length (filter (fun o => negb (permanentFailure o)) answers).
Proof.
  intros Hlen Hc Hstr Hnd Hin.
  apply filter_map_length.
  rewrite <- (failedForGood_own subs answers [] Hlen Hnd)
    by (intros so s []).
  apply map_ext_in. intros s Hs. simpl.
  rewrite Forall_forall in Hstr, Hin.
  rewrite pruneAll_retained;
    [|assumption|now apply combine_fst_stringEndpoint, Forall_forall
     |now apply Hstr].
  now rewrite (Hin s Hs).
Qed.

Lemma fulfilled_count answers results :
  Forall2 (fun o res => res = Fulfilled <-> o = Delivered) answers results ->
  length (filter isFulfilled results) = length (filter isDelivered answers).
Proof.
  induction 1 as [|o res answers results [H1 H2] _ IH]; [reflexivity|].
  simpl. destruct res, o; simpl; try (now rewrite IH).
  - specialize (H1 eq_refl). discriminate.
  - specialize (H2 eq_refl). discriminate.
Qed.

(** C5, as the server has it.  [sendBatchNotifications] hands the payload
    to the push service once for every subscriber, in the order of the
    list and whatever the answers to the others were.  For a list that is
    not empty it returns one outcome per subscriber, fulfilled exactly
    where the push was delivered; for the empty list it returns
    [undefined].  With three subscribers stored under distinct endpoints,
    in a collection whose endpoints are strings, no two of them the
    same, that takes the removals: when one of the deliveries fails for
    good while two are delivered, there are three outcomes, two of them
    fulfilled, and two of the three records are left in the store. *)
Theorem batch_one_outcome_per_subscriber E p w subs :
  let run := sendBatchNotifications E subs p w in
  let answers := map answer (newDeliveries w (snd run)) in
  map (fun d => (recipient d, payload d)) (newDeliveries w (snd run))
  = map (fun sub => (VObj sub, p)) subs
  /\ (exists results,
        fst run = Ok (match subs with [] => None | _ => Some results end)
        /\ length results = length subs
        /\ Forall2 (fun o res => res = Fulfilled <-> o = Delivered)
             answers results)
  /\ (storeAccepts E OpDeleteOne ->
      endpointsUnique (db w) ->
      Forall stringEndpoint (db w) ->
      Forall stringEndpoint subs ->
      NoDup (endpoints subs) ->
      Forall (fun s => retained (db w) s = true) subs ->
      length subs = 3%nat ->
      length (filter permanentFailure answers) = 1%nat ->
      length (filter isDelivered answers) = 2%nat ->
      (exists results,
         fst run = Ok (Some results)
         /\ length results = 3%nat
         /\ length (filter isFulfilled results) = 2%nat)
      /\ length (filter (retained (db (snd run))) subs) = 2%nat).
Proof.
  destruct (sendBatchNotifications_settles E p subs w)
    as [answers [results [w' [Hrun [Hla [Hlr [Hpush [_ [Hall Hdb]]]]]]]]].
  cbv zeta. rewrite Hrun. cbn [fst snd].
  rewrite (newDeliveries_app _ _ _ Hpush).
  rewrite (deliveriesTo_answers _ _ _ Hla).
  split; [now apply deliveriesTo_recipients|].
  split; [exists results; auto|].
  intros Hacc Hunique _ Hstr Hnd Hin H3 Hperm Hdel.
  destruct (Hdb Hacc Hstr) as [Hres Hdb'].
  split.
  - exists results. destruct subs as [|s r]; [discriminate|].
    split; [reflexivity|]. split; [lia|].
    now rewrite (fulfilled_count _ _ Hall).
  - rewrite Hdb', (retained_count _ _ _ Hla Hunique Hstr Hnd Hin).
    pose proof (filter_length permanentFailure answers). lia.
Qed.

(** For no subscriber at all there is no outcome set: the guard of line
    335 returns [undefined] before anything is sent. *)
Lemma sendBatchNotifications_no_subscribers :
  sendBatchNotifications quietEnv [] helloPayload emptyWorld
  = (Ok None, emptyWorld)
  /\ fst (sendBatchNotifications quietEnv [] helloPayload emptyWorld)
     <> Ok (Some []).
Proof. split; [reflexivity|discriminate]. Qed.

(** Where the store refuses the removal, the three records stay. *)
Lemma removal_refused_keeps_three :
  length
    (filter permanentFailure
       (map answer
          (newDeliveries (worldOf threeRecords)
             (snd (sendBatchNotifications goneKeptEnv threeRecords
                     helloPayload (worldOf threeRecords)))))) = 1%nat
  /\ db (snd (sendBatchNotifications goneKeptEnv threeRecords helloPayload
                (worldOf threeRecords))) = threeRecords.
Proof. split; reflexivity. Qed.

Lemma batch_one_outcome_per_subscriber_witness :
  (storeAccepts goneEnv OpDeleteOne
   /\ endpointsUnique (db (worldOf threeRecords))
   /\ Forall stringEndpoint (db (worldOf threeRecords))
   /\ Forall stringEndpoint threeRecords
   /\ NoDup (endpoints threeRecords)
   /\ Forall (fun s => retained (db (worldOf threeRecords)) s = true)
        threeRecords)
  /\ (exists results,
        fst (sendBatchNotifications goneEnv threeRecords helloPayload
               (worldOf threeRecords)) = Ok (Some results)
        /\ length results = 3%nat
        /\ length (filter isFulfilled results) = 2%nat)
  /\ length
       (filter
          (retained
             (db (snd (sendBatchNotifications goneEnv threeRecords
                         helloPayload (worldOf threeRecords)))))
          threeRecords) = 2%nat.
Proof.
  assert (H1 : storeAccepts goneEnv OpDeleteOne) by (intros t; reflexivity).
  assert (H2 : endpointsUnique (db (worldOf threeRecords)))
    by (unfold endpointsUnique; simpl; distinct_values).
  assert (H3 : Forall stringEndpoint threeRecords) by (repeat constructor).
  assert (H4 : NoDup (endpoints threeRecords))
    by (simpl; distinct_values).
  assert (H5 : Forall (fun s => retained (db (worldOf threeRecords)) s = true)
                 threeRecords) by (repeat constructor).
  split; [auto 7|].
  destruct (batch_one_outcome_per_subscriber goneEnv helloPayload
              (worldOf threeRecords) threeRecords) as [_ [_ Hscenario]].
  apply (Hscenario H1 H2 H3 H3 H4 H5); reflexivity.
Defined.

(** ** What a computation preserves *)

Section Preservation.

(** [R w w']: the world [w'] is an acceptable successor of [w]. *)
Variable R : world -> world -> Prop.
Hypothesis R_refl : forall w, R w w.
Hypothesis R_trans : forall w1 w2 w3, R w1 w2 -> R w2 w3 -> R w1 w3.

Lemma preserves_ret {A} (a : A) : preserves R (ret a).
Proof. intros w. apply R_refl. Qed.

Lemma preserves_throw {A} e : preserves R (@throw A e).
Proof. intros w. apply R_refl. Qed.

Lemma preserves_lift {A} (r : result A) : preserves R (lift r).
Proof. intros w. apply R_refl. Qed.

Lemma preserves_bind {A B} (m : M A) (k : A -> M B) :
  preserves R m -> (forall a, preserves R (k a)) -> preserves R (bind m k).
Proof.
  intros Hm Hk w. unfold bind. specialize (Hm w).
  destruct (m w) as [[a|e] w1]; simpl in *; [|assumption].
  apply R_trans with w1; [assumption|apply Hk].
Qed.

Lemma preserves_bind_lift {A B} (r : result A) (k : A -> M B) :
  (forall a, r = Ok a -> preserves R (k a)) -> preserves R (bind (lift r) k).
Proof.
  intros Hk w. unfold bind, lift. destruct r as [a|e]; simpl.
  - now apply Hk.
  - apply R_refl.
Qed.

Lemma preserves_tryCatch {A} (m : M A) h :
  preserves R m -> (forall e, preserves R (h e)) -> preserves R (tryCatch m h).
Proof.
  intros Hm Hh w. unfold tryCatch. specialize (Hm w).
  destruct (m w) as [[a|e] w1]; simpl in *; [assumption|].
  apply R_trans with w1; [assumption|apply Hh].
Qed.

Lemma preserves_mapM {A B} (f : A -> M B) l :
  (forall x, preserves R (f x)) -> preserves R (mapM f l).
Proof.
  intros Hf. induction l as [|x r IH]; simpl.
  - apply preserves_ret.
  - apply preserves_bind; [apply Hf|]. intros y.
    apply preserves_bind; [apply IH|]. intros ys. apply preserves_ret.
Qed.

Lemma preserves_forEach {A} (f : A -> M unit) l :
  (forall x, preserves R (f x)) -> preserves R (forEach f l).
Proof.
  intros Hf. induction l as [|x r IH]; simpl.
  - apply preserves_ret.
  - apply preserves_bind; [apply Hf|]. intros _. apply IH.
Qed.

Variable E : env.

(** The steps that leave the collection and the pushes alone. *)
Hypothesis R_step : forall w q,
  R w {| db := db w; pushes := pushes w; requests := q;
         tick := S (tick w) |}.

Lemma preserves_newDate : preserves R (newDate E).
Proof. intros w. apply R_step. Qed.

Lemma preserves_axiosGet params : preserves R (axiosGet E params).
Proof.
  intros w. unfold axiosGet.
  destruct (upstream E (tick w) params); apply R_step.
Qed.

Lemma preserves_storeCall {A} op (f : list obj -> A * list obj) :
  (forall w, R w {| db := snd (f (db w)); pushes := pushes w;
                    requests := requests w; tick := S (tick w) |}) ->
  preserves R (storeCall E op f).
Proof.
  intros Hf w. unfold storeCall.
  destruct (storeFails E (tick w) op); [apply R_step|apply Hf].
Qed.

Lemma preserves_findM filter : preserves R (findM E filter).
Proof. apply preserves_storeCall. intros w. apply R_step. Qed.

Lemma preserves_findOneM filter : preserves R (findOneM E filter).
Proof. apply preserves_storeCall. intros w. apply R_step. Qed.

Ltac preserve_pure :=
  repeat first
    [ apply preserves_ret
    | apply preserves_throw
    | apply preserves_lift
    | apply preserves_newDate
    | apply preserves_axiosGet
    | apply preserves_findM
    | apply preserves_findOneM
    | apply preserves_bind; [|intros ?]
    | apply preserves_tryCatch; [|intros ?]
    | match goal with
      | |- preserves R (if ?c then _ else _) => destruct c
      | |- preserves R (match ?x with _ => _ end) => destruct x
      end ].

Lemma preserves_fetchWeatherData location :
  preserves R (fetchWeatherData E location).
Proof. unfold fetchWeatherData. preserve_pure. Qed.

Lemma preserves_hourOf weatherData h : preserves R (hourOf weatherData h).
Proof. unfold hourOf, prop. preserve_pure. Qed.

Lemma preserves_currentAndNext offset location :
  preserves R (currentAndNext E offset location).
Proof.
  unfold currentAndNext.
  apply preserves_bind; [apply preserves_fetchWeatherData|]. intros data.
  apply preserves_bind; [apply preserves_newDate|]. intros now.
  apply preserves_bind; [apply preserves_hourOf|]. intros currentData.
  apply preserves_bind; [apply preserves_hourOf|]. intros nextData.
  preserve_pure.
Qed.

Lemma preserves_currentNotification location currentTime data :
  preserves R (currentNotification E location currentTime data).
Proof. unfold currentNotification, prop. preserve_pure. Qed.

Lemma preserves_forecastNotification location nextTime data :
  preserves R (forecastNotification E location nextTime data).
Proof. unfold forecastNotification, prop. preserve_pure. Qed.

(** The steps that push, and the three writes of the server. *)
Hypothesis R_push : forall w d,
  R w {| db := db w; pushes := pushes w ++ [d]; requests := requests w;
         tick := S (tick w) |}.

Hypothesis R_delete : forall w filter,
  R w {| db := Store.deleteOne filter (db w); pushes := pushes w;
         requests := requests w; tick := S (tick w) |}.

Hypothesis R_notified : forall w filter now next,
  R w {| db := Store.updateMany filter
                 [("lastNotified", VDate now);
                  ("nextNotificationTime", VDate next)] (db w);
         pushes := pushes w; requests := requests w; tick := S (tick w) |}.

Hypothesis R_upsert : forall w subscription s now,
  truthy (optProp subscription "endpoint") = true ->
  R w {| db := Store.updateOneUpsert
                 [("endpoint", optProp subscription "endpoint")]
                 (subDocOf E subscription s now) (db w);
         pushes := pushes w; requests := requests w; tick := S (tick w) |}.

Lemma preserves_webpushSend sub p : preserves R (webpushSend E sub p).
Proof.
  intros w. unfold webpushSend.
  destruct (transport E (tick w) sub p); apply R_push.
Qed.

Lemma preserves_deleteOneM filter : preserves R (deleteOneM E filter).
Proof. apply preserves_storeCall. intros w. apply R_delete. Qed.

Ltac preserve :=
  repeat first
    [ apply preserves_ret
    | apply preserves_throw
    | apply preserves_lift
    | apply preserves_newDate
    | apply preserves_findM
    | apply preserves_findOneM
    | apply preserves_webpushSend
    | apply preserves_deleteOneM
    | apply preserves_currentAndNext
    | apply preserves_currentNotification
    | apply preserves_forecastNotification
    | apply preserves_bind; [|intros ?]
    | apply preserves_tryCatch; [|intros ?]
    | apply preserves_mapM; intros ?
    | apply preserves_forEach; intros ?
    | match goal with
      | |- preserves R (if ?c then _ else _) => destruct c
      | |- preserves R (match ?x with _ => _ end) => destruct x
      end ].

Lemma preserves_sendNotification subscription p :
  preserves R (sendNotification E subscription p).
Proof. unfold sendNotification, prop. preserve. Qed.

Lemma preserves_sendBatchNotifications subs p :
  preserves R (sendBatchNotifications E subs p).
Proof.
  unfold sendBatchNotifications. destruct subs as [|sub r];
    [apply preserves_ret|].
  apply preserves_bind; [|intros ?; apply preserves_ret].
  apply preserves_mapM. intros x. unfold settle, deliverTo. preserve.
Qed.

Lemma preserves_sendLocationNotifications location current next :
  preserves R (sendLocationNotifications E location current next).
Proof.
  unfold sendLocationNotifications, prop.
  apply preserves_bind; [apply preserves_lift|]. intros ctime.
  apply preserves_bind; [apply preserves_lift|]. intros ntime.
  apply preserves_bind; [apply preserves_findM|]. intros subscribers.
  destruct subscribers as [|sub r]; [apply preserves_ret|].
  apply preserves_bind; [apply preserves_currentNotification|]. intros c.
  apply preserves_bind; [apply preserves_forecastNotification|]. intros f.
  apply preserves_bind; [apply preserves_sendBatchNotifications|]. intros _.
  apply preserves_bind; [apply preserves_sendBatchNotifications|]. intros _.
  apply preserves_bind; [apply preserves_newDate|]. intros now.
  apply preserves_storeCall. intros w. apply R_notified.
Qed.

Lemma preserves_sendWeatherUpdateForSubscription subscription location :
  preserves R (sendWeatherUpdateForSubscription E subscription location).
Proof.
  unfold sendWeatherUpdateForSubscription.
  apply preserves_tryCatch.
  - apply preserves_bind; [apply preserves_currentAndNext|]. intros hours.
    apply preserves_sendLocationNotifications.
  - intros err. apply preserves_bind; [apply preserves_lift|]. intros label.
    apply preserves_bind; [apply preserves_sendNotification|]. intros _.
    apply preserves_ret.
Qed.

Lemma prop_endpoint_optProp subscription endpoint :
  getProp subscription "endpoint" = Ok endpoint ->
  truthy (optProp subscription "endpoint") = true ->
  endpoint = optProp subscription "endpoint".
Proof.
  destruct subscription; simpl; intros H Ht; try discriminate.
  now injection H as <-.
Qed.

Lemma preserves_subscribeHandler body :
  preserves R (subscribeHandler E body).
Proof.
  unfold subscribeHandler, prop.
  apply preserves_tryCatch; [|intros err; apply preserves_ret].
  apply preserves_bind; [apply preserves_lift|]. intros subscription.
  apply preserves_bind; [apply preserves_lift|]. intros location.
  destruct (truthy (optProp subscription "endpoint")) eqn:Hendpoint;
    [|apply preserves_ret].
  destruct (truthy (optProp subscription "keys")); [|apply preserves_ret].
  simpl.
  apply preserves_bind; [apply preserves_lift|]. intros s.
  apply preserves_bind; [apply preserves_newDate|]. intros now.
  apply preserves_bind_lift. intros endpoint Hprop.
  rewrite (prop_endpoint_optProp _ _ Hprop Hendpoint).
  apply preserves_bind.
  - apply preserves_storeCall. intros w. now apply R_upsert.
  - intros _.
    apply preserves_bind;
      [apply preserves_sendWeatherUpdateForSubscription|].
    intros _. apply preserves_ret.
Qed.

Lemma preserves_unsubscribeHandler errorMessage body :
  preserves R (unsubscribeHandler E errorMessage body).
Proof. unfold unsubscribeHandler, prop. preserve. Qed.

Lemma preserves_checkHandler body : preserves R (checkHandler E body).
Proof. unfold checkHandler, prop. preserve. Qed.

Lemma preserves_getAllSubscriptions : preserves R (getAllSubscriptions E).
Proof. unfold getAllSubscriptions. preserve. Qed.

Lemma preserves_processLocation group : preserves R (processLocation E group).
Proof.
  unfold processLocation. apply preserves_tryCatch.
  - apply preserves_bind; [apply preserves_currentAndNext|]. intros hours.
    apply preserves_sendLocationNotifications.
  - intros err. apply preserves_bind; [apply preserves_lift|]. intros label.
    apply preserves_bind; [apply preserves_sendBatchNotifications|].
    intros _. apply preserves_ret.
Qed.

Lemma preserves_sendTwoHourWeatherUpdates :
  preserves R (sendTwoHourWeatherUpdates E).
Proof.
  unfold sendTwoHourWeatherUpdates.
  apply preserves_tryCatch; [|intros err; apply preserves_ret].
  apply preserves_bind; [apply preserves_getAllSubscriptions|].
  intros allSubs. destruct allSubs as [|sub r]; [apply preserves_ret|].
  apply preserves_forEach. intros g. apply preserves_processLocation.
Qed.

End Preservation.

(** ** The upsert of a subscribe *)

Lemma field_defined_lookup k o : field k o <> VUndefined -> lookup k o <> None.
Proof. unfold field. destruct (lookup k o); congruence. Qed.

Lemma wellFormed_object body :
  wellFormedSubscription body ->
  exists fs, requestSubscription body = VObj fs.
Proof.
  intros [He _]. unfold requestSubscription.
  destruct (field "subscription" body); simpl in He; try discriminate.
  eauto.
Qed.

Lemma subDocOf_fields E subscription s now :
  field "createdAt" (subDocOf E subscription s now) = VDate now
  /\ field "lastNotified" (subDocOf E subscription s now) = VNull
  /\ field "location" (subDocOf E subscription s now) = VStr s
  /\ field "nextNotificationTime" (subDocOf E subscription s now)
     = VDate (calculateNextNotificationTime (tzOffset E) now)
  /\ field "endpoint" (subDocOf E subscription s now)
     = optProp subscription "endpoint"
  /\ field "keys" (subDocOf E subscription s now)
     = optProp subscription "keys".
Proof.
  unfold subDocOf. rewrite !field_assign. simpl.
  repeat split; destruct subscription; reflexivity.
Qed.

(** The handler up to the upsert (lines 137-159), for a request that
    passes the check and has a string for its location, when the store
    takes the write. *)
Lemma subscribeHandler_upsert E w body s :
  wellFormedSubscription body ->
  field "location" body = VStr s ->
  storeFails E (S (tick w)) OpUpdateOne = false ->
  subscribeHandler E (VObj body) w
  = notifyAndRespond E body (normalize s) (afterUpsert E body (normalize s) w).
Proof.
  intros Hwf Hloc Hstore.
  destruct (wellFormed_object body Hwf) as [fs Hfs].
  destruct Hwf as [Hendpoint Hkeys].
  unfold notifyAndRespond, afterUpsert, requestEndpoint.
  unfold requestSubscription in *.
  unfold subscribeHandler, tryCatch, bind, prop, lift, ret. simpl.
  rewrite Hendpoint, Hkeys, Hloc, Hfs. simpl.
  unfold newDate, updateOneUpsertM, storeCall. simpl.
  rewrite Hstore. simpl. reflexivity.
Qed.

(** An upsert on an endpoint that has a record rewrites that record
    where it stands. *)
Lemma upsert_in_place e upd c :
  hasEndpoint e c = true ->
  exists before old after,
    c = before ++ old :: after
    /\ existsb (matches [("endpoint", e)]) before = false
    /\ matches [("endpoint", e)] old = true
    /\ updateOneUpsert [("endpoint", e)] upd c
       = before ++ assign old upd :: after.
Proof.
  unfold hasEndpoint. intros Hex.
  destruct (firstMatch_exists _ _ Hex) as [before [old [after Hfm]]].
  exists before, old, after. unfold updateOneUpsert.
  rewrite (updateFirst_firstMatch _ upd _ _ _ _ Hfm).
  inversion Hfm; subst. auto.
Qed.




(** ** Invariants of the collection *)

Lemma getProp_optProp v k r : getProp v k = Ok r -> r = optProp v k.
Proof. destruct v; simpl; congruence. Qed.

Section StoreInvariant.

Variable E : env.
Variable P : list obj -> Prop.

Hypothesis P_delete : forall filter c, P c -> P (Store.deleteOne filter c).
Hypothesis P_notified : forall filter now next c,
  P c ->
  P (Store.updateMany filter
       [("lastNotified", VDate now); ("nextNotificationTime", VDate next)] c).
Hypothesis P_upsert : forall subscription s now c,
  truthy (optProp subscription "endpoint") = true ->
  P c ->
  P (Store.updateOneUpsert [("endpoint", optProp subscription "endpoint")]
       (subDocOf E subscription s now) c).

Lemma keeps_refl w : keeps P w w.
Proof. intros H. exact H. Qed.

Lemma keeps_trans w1 w2 w3 : keeps P w1 w2 -> keeps P w2 w3 -> keeps P w1 w3.
Proof. unfold keeps. auto. Qed.

Lemma serverStep_keeps w w' : serverStep E w w' -> keeps P w w'.
Proof.
  assert (Hstep : forall w q,
            keeps P w {| db := db w; pushes := pushes w; requests := q;
                         tick := S (tick w) |})
    by (intros ? ? H; exact H).
  assert (Hpush : forall w d,
            keeps P w {| db := db w; pushes := pushes w ++ [d];
                         requests := requests w; tick := S (tick w) |})
    by (intros ? ? H; exact H).
  assert (Hdelete : forall w filter,
            keeps P w {| db := Store.deleteOne filter (db w);
                         pushes := pushes w; requests := requests w;
                         tick := S (tick w) |})
    by (intros ? ? H; now apply P_delete).
  assert (Hnotified : forall w filter now next,
            keeps P w {| db := Store.updateMany filter
                                 [("lastNotified", VDate now);
                                  ("nextNotificationTime", VDate next)]
                                 (db w);
                         pushes := pushes w; requests := requests w;
                         tick := S (tick w) |})
    by (intros ? ? ? ? H; now apply P_notified).
  assert (Hupsert : forall w subscription s now,
            truthy (optProp subscription "endpoint") = true ->
            keeps P w {| db := Store.updateOneUpsert
                                 [("endpoint",
                                   optProp subscription "endpoint")]
                                 (subDocOf E subscription s now) (db w);
                         pushes := pushes w; requests := requests w;
                         tick := S (tick w) |})
    by (intros ? ? ? ? Ht H; now apply P_upsert).
  intros Hs. destruct Hs.
  - now apply (preserves_subscribeHandler (keeps P) keeps_refl keeps_trans E).
  - now apply (preserves_unsubscribeHandler (keeps P) keeps_refl keeps_trans
                 E).
  - now apply (preserves_checkHandler (keeps P) keeps_refl keeps_trans E).
  - now apply (preserves_sendTwoHourWeatherUpdates (keeps P) keeps_refl
                 keeps_trans E).
Qed.

Lemma reachable_invariant : P [] -> forall w, reachable E w -> P (db w).
Proof.
  intros Hnil w Hw. induction Hw as [w Hw|w w' _ IH Hs].
  - now rewrite Hw.
  - now apply (serverStep_keeps w w' Hs).
Qed.

End StoreInvariant.

Lemma subDocOf_endpoint_upsert_unique E subscription s now c :
  truthy (optProp subscription "endpoint") = true ->
  endpointsUnique c ->
  endpointsUnique
    (updateOneUpsert [("endpoint", optProp subscription "endpoint")]
       (subDocOf E subscription s now) c).
Proof.
  intros Ht Hc. apply upsert_unique; [now apply truthy_notNullish| |exact Hc].
  apply subDocOf_fields.
Qed.

(** *** Requests that name their endpoint by a string *)

Lemma stringEndpoint_endpoints c :
  Forall stringEndpoint c
  <-> Forall (fun e => isString e = true) (endpoints c).
Proof. unfold endpoints. rewrite Forall_map. reflexivity. Qed.

Lemma deleteOne_distinctStrings filter c :
  distinctStrings c -> distinctStrings (Store.deleteOne filter c).
Proof.
  intros [Hs Hu]. split; [now apply deleteOne_Forall|].
  now apply deleteOne_unique.
Qed.

Lemma updateMany_distinctStrings filter now next c :
  distinctStrings c ->
  distinctStrings
    (Store.updateMany filter
       [("lastNotified", VDate now); ("nextNotificationTime", VDate next)]
       c).
Proof.
  intros [Hs Hu]. split.
  - apply stringEndpoint_endpoints. rewrite updateMany_endpoints by reflexivity.
    now apply stringEndpoint_endpoints.
  - now apply updateMany_unique.
Qed.

Lemma upsert_distinctStrings E subscription s now c :
  isString (optProp subscription "endpoint") = true ->
  distinctStrings c ->
  distinctStrings
    (Store.updateOneUpsert [("endpoint", optProp subscription "endpoint")]
       (subDocOf E subscription s now) c).
Proof.
  intros He [Hs Hu].
  pose proof (isString_notNullish _ He) as Hn.
  split.
  - apply stringEndpoint_endpoints.
    rewrite upsert_endpoints; [|assumption|apply subDocOf_fields].
    apply stringEndpoint_endpoints in Hs.
    destruct (hasEndpoint _ c); [assumption|].
    apply Forall_app. split; [assumption|]. now repeat constructor.
  - apply upsert_unique; [assumption|apply subDocOf_fields|assumption].
Qed.

(** A subscribe keeps what its own upsert keeps, when the removals and
    the update of the notifications keep it. *)
Section OwnUpsert.

Variable E : env.
Variable P : list obj -> Prop.
Variable body : value.

Hypothesis P_delete : forall filter c, P c -> P (Store.deleteOne filter c).
Hypothesis P_notified : forall filter now next c,
  P c ->
  P (Store.updateMany filter
       [("lastNotified", VDate now); ("nextNotificationTime", VDate next)] c).
Hypothesis P_own : forall s now c,
  truthy (optProp (optProp body "subscription") "endpoint") = true ->
  P c ->
  P (Store.updateOneUpsert
       [("endpoint", optProp (optProp body "subscription") "endpoint")]
       (subDocOf E (optProp body "subscription") s now) c).

Lemma own_step w q :
  keeps P w {| db := db w; pushes := pushes w; requests := q;
               tick := S (tick w) |}.
Proof. intros H. exact H. Qed.

Lemma own_push w d :
  keeps P w {| db := db w; pushes := pushes w ++ [d];
               requests := requests w; tick := S (tick w) |}.
Proof. intros H. exact H. Qed.

Lemma own_delete w filter :
  keeps P w {| db := Store.deleteOne filter (db w); pushes := pushes w;
               requests := requests w; tick := S (tick w) |}.
Proof. intros H. now apply P_delete. Qed.

Lemma own_notified w filter now next :
  keeps P w {| db := Store.updateMany filter
                       [("lastNotified", VDate now);
                        ("nextNotificationTime", VDate next)] (db w);
               pushes := pushes w; requests := requests w;
               tick := S (tick w) |}.
Proof. intros H. now apply P_notified. Qed.

Ltac own_side :=
  lazymatch goal with
  | |- preserves _ _ => fail
  | _ => first [ exact (keeps_refl P) | exact (keeps_trans P)
               | exact own_step | exact own_push | exact own_delete
               | exact own_notified ]
  end.

Lemma subscribeHandler_keeps_own :
  preserves (keeps P) (subscribeHandler E body).
Proof.
  unfold subscribeHandler, prop.
  apply preserves_tryCatch; try own_side;
    [|intros err; apply preserves_ret; own_side].
  apply preserves_bind_lift; try own_side. intros subscription Hsub.
  apply getProp_optProp in Hsub. subst subscription.
  apply preserves_bind; try own_side;
    [apply preserves_lift; own_side|].
  intros location.
  destruct (truthy (optProp (optProp body "subscription") "endpoint"))
    eqn:Hendpoint;
    [|apply preserves_ret; own_side].
  destruct (truthy (optProp (optProp body "subscription") "keys"));
    [|apply preserves_ret; own_side].
  simpl.
  apply preserves_bind; try own_side;
    [apply preserves_lift; own_side|].
  intros s.
  apply preserves_bind; try own_side;
    [apply preserves_newDate; own_side|].
  intros now.
  apply preserves_bind_lift; try own_side. intros endpoint Hprop.
  rewrite (prop_endpoint_optProp _ _ Hprop Hendpoint).
  apply preserves_bind; try own_side.
  - apply preserves_storeCall; try own_side.
    intros w H. cbn [db snd]. now apply P_own.
  - intros _.
    apply preserves_bind; try own_side;
      [|intros _; apply preserves_ret; own_side].
    apply preserves_sendWeatherUpdateForSubscription; own_side.
Qed.

Lemma unsubscribeHandler_keeps_own errorMessage request :
  preserves (keeps P) (unsubscribeHandler E errorMessage request).
Proof. apply preserves_unsubscribeHandler; own_side. Qed.

Lemma checkHandler_keeps_own request :
  preserves (keeps P) (checkHandler E request).
Proof. apply preserves_checkHandler; own_side. Qed.

Lemma sendTwoHourWeatherUpdates_keeps_own :
  preserves (keeps P) (sendTwoHourWeatherUpdates E).
Proof. apply preserves_sendTwoHourWeatherUpdates; own_side. Qed.

End OwnUpsert.

Lemma stringStep_distinctStrings E w w' :
  stringStep E w w' -> keeps distinctStrings w w'.
Proof.
  intros Hs. destruct Hs as [body w He|errorMessage body w _|body w _|w].
  - apply subscribeHandler_keeps_own.
    + apply deleteOne_distinctStrings.
    + apply updateMany_distinctStrings.
    + intros s now c _. now apply upsert_distinctStrings.
  - apply unsubscribeHandler_keeps_own; apply deleteOne_distinctStrings.
  - apply checkHandler_keeps_own.
  - apply sendTwoHourWeatherUpdates_keeps_own;
      first [apply deleteOne_distinctStrings
            |apply updateMany_distinctStrings].
Qed.

Lemma stringReachable_distinctStrings E w :
  stringReachable E w -> distinctStrings (db w).
Proof.
  intros Hw. induction Hw as [w Hw|w w' _ IH Hs].
  - rewrite Hw. split; constructor.
  - now apply (stringStep_distinctStrings E w w' Hs).
Qed.

(** C3.  Where endpoints are strings, in the request and in the
    collection: a subscribe request for an endpoint that has a record
    rewrites that record where it stands, with the location and the
    keys of the request, and the collection has as many records as
    before, under the same endpoints.  Every operation of the server
    whose request names its endpoint by a string keeps the endpoints of
    the collection strings, no two of them the same, so they are in
    every world the server reaches by such operations from an empty
    collection. *)
Theorem upsert_keeps_endpoints_unique E :
  (forall w body s,
     wellFormedSubscription body ->
     isString (requestEndpoint body) = true ->
     Forall stringEndpoint (db w) ->
     field "location" body = VStr s ->
     storeFails E (S (tick w)) OpUpdateOne = false ->
     hasEndpoint (requestEndpoint body) (db w) = true ->
     subscribeHandler E (VObj body) w
     = notifyAndRespond E body (normalize s)
         (afterUpsert E body (normalize s) w)
     /\ length (db (afterUpsert E body (normalize s) w)) = length (db w)
     /\ endpoints (db (afterUpsert E body (normalize s) w))
        = endpoints (db w)
     /\ exists before old after,
          let new := assign old
                       (subDocOf E (requestSubscription body) (normalize s)
                          (clock E (tick w))) in
          db w = before ++ old :: after
          /\ field "endpoint" old = requestEndpoint body
          /\ db (afterUpsert E body (normalize s) w)
             = before ++ new :: after
          /\ field "endpoint" new = requestEndpoint body
          /\ field "location" new = VStr (normalize s)
          /\ field "keys" new = optProp (requestSubscription body) "keys")
  /\ (forall w w',
        stringStep E w w' ->
        Forall stringEndpoint (db w) -> endpointsUnique (db w) ->
        Forall stringEndpoint (db w') /\ endpointsUnique (db w'))
  /\ (forall w,
        stringReachable E w ->
        Forall stringEndpoint (db w) /\ endpointsUnique (db w)).
Proof.
  split; [|split].
  - intros w body s Hwf _ _ Hloc Hstore Hex.
    destruct (upsert_in_place _
                (subDocOf E (requestSubscription body) (normalize s)
                   (clock E (tick w))) _ Hex)
      as [before [old [after [Hdb [_ [Hold Hup]]]]]].
    pose proof Hwf as [Hendpoint Hkeys].
    fold (requestSubscription body) in Hendpoint, Hkeys.
    fold (requestEndpoint body) in Hendpoint.
    apply (matches_endpoint _ _ (truthy_notNullish _ Hendpoint)) in Hold.
    destruct (subDocOf_fields E (requestSubscription body) (normalize s)
                (clock E (tick w)))
      as [_ [_ [Hlo' [_ [Hep' Hk']]]]].
    fold (requestEndpoint body) in Hep'.
    assert (Hlo : field "location"
                    (assign old
                       (subDocOf E (requestSubscription body) (normalize s)
                          (clock E (tick w))))
                  = VStr (normalize s)).
    { rewrite field_assign_present; [assumption|].
      apply field_defined_lookup. rewrite Hlo'. discriminate. }
    assert (Hk : field "keys"
                   (assign old
                      (subDocOf E (requestSubscription body) (normalize s)
                         (clock E (tick w))))
                 = optProp (requestSubscription body) "keys").
    { rewrite field_assign_present; [assumption|].
      apply field_defined_lookup. rewrite Hk'.
      intros Hu. rewrite Hu in Hkeys. discriminate. }
    assert (Hep : field "endpoint"
                    (assign old
                       (subDocOf E (requestSubscription body) (normalize s)
                          (clock E (tick w))))
                  = requestEndpoint body).
    { rewrite field_assign_present; [assumption|].
      apply field_defined_lookup. rewrite Hep'.
      intros Hu. rewrite Hu in Hendpoint. discriminate. }
    change (db (afterUpsert E body (normalize s) w)
            = before
              ++ assign old
                   (subDocOf E (requestSubscription body) (normalize s)
                      (clock E (tick w)))
              :: after) in Hup.
    split; [now apply subscribeHandler_upsert|].
    split; [rewrite Hup, Hdb, !length_app; reflexivity|].
    split.
    { rewrite Hup, Hdb, !endpoints_app. simpl. now rewrite Hep, Hold. }
    exists before, old, after. cbv zeta. auto 7.
  - intros w w' Hs Hstr Hu.
    now apply (stringStep_distinctStrings E w w' Hs).
  - intros w. apply stringReachable_distinctStrings.
Qed.

Lemma upsert_keeps_endpoints_unique_witness :
  (wellFormedSubscription resubscribeBody
   /\ isString (requestEndpoint resubscribeBody) = true
   /\ Forall stringEndpoint (db (worldOf threeRecords))
   /\ storeFails quietEnv (S (tick (worldOf threeRecords))) OpUpdateOne = false
   /\ hasEndpoint (requestEndpoint resubscribeBody)
        (db (worldOf threeRecords)) = true)
  /\ length
       (db (afterUpsert quietEnv resubscribeBody
              (normalize (lit "Paris , Ile-de-France , France"))
              (worldOf threeRecords)))
     = length (db (worldOf threeRecords))
  /\ stringStep quietEnv (worldOf threeRecords)
       (snd (subscribeHandler quietEnv (VObj resubscribeBody)
               (worldOf threeRecords)))
  /\ endpointsUnique
       (db (snd (subscribeHandler quietEnv (VObj resubscribeBody)
                   (worldOf threeRecords)))).
Proof.
  assert (H1 : wellFormedSubscription resubscribeBody)
    by (split; reflexivity).
  assert (H2 : storeFails quietEnv (S (tick (worldOf threeRecords)))
                 OpUpdateOne = false) by reflexivity.
  assert (H3 : hasEndpoint (requestEndpoint resubscribeBody)
                 (db (worldOf threeRecords)) = true) by reflexivity.
  assert (H4 : Forall stringEndpoint (db (worldOf threeRecords)))
    by (repeat constructor).
  assert (H5 : endpointsUnique (db (worldOf threeRecords)))
    by (unfold endpointsUnique; simpl; distinct_values).
  assert (H6 : stringStep quietEnv (worldOf threeRecords)
                 (snd (subscribeHandler quietEnv (VObj resubscribeBody)
                         (worldOf threeRecords))))
    by (now apply StringSubscribe).
  split; [auto 6|].
  destruct (upsert_keeps_endpoints_unique quietEnv) as [Hupsert [Hstep _]].
  destruct (Hupsert (worldOf threeRecords) resubscribeBody
              (lit "Paris , Ile-de-France , France") H1 eq_refl H4 eq_refl
              H2 H3)
    as [_ [Hlen _]].
  destruct (Hstep _ _ H6 H4 H5) as [_ Hunique].
  split; [exact Hlen|]. split; [exact H6|exact Hunique].
Defined.

(** ** Subscribe: the answer after the upsert *)

Lemma sameStoreAndPushes_refl w : sameStoreAndPushes w w.
Proof. split; reflexivity. Qed.

Lemma sameStoreAndPushes_trans w1 w2 w3 :
  sameStoreAndPushes w1 w2 -> sameStoreAndPushes w2 w3 ->
  sameStoreAndPushes w1 w3.
Proof. intros [H1 H2] [H3 H4]. split; congruence. Qed.

(** Fetching and picking the hours pushes nothing and writes nothing. *)
Lemma currentAndNext_frame E offset location w :
  sameStoreAndPushes w (snd (currentAndNext E offset location w)).
Proof.
  apply (preserves_currentAndNext sameStoreAndPushes
           sameStoreAndPushes_refl sameStoreAndPushes_trans E).
  intros w0 q. split; reflexivity.
Qed.

Lemma sendWeatherUpdateForSubscription_returns E sub s w :
  storeAccepts E OpDeleteOne ->
  exists w',
    sendWeatherUpdateForSubscription E (VObj sub) (VStr s) w = (Ok tt, w').
Proof.
  intros Hacc. unfold sendWeatherUpdateForSubscription.
  apply tryCatch_returns_unit. intros e w1.
  unfold bind at 1. unfold lift, labelOf. simpl.
  destruct (sendNotification_spec E sub (failedPayload (hd [] (split s))) w1
              Hacc) as [w' [Hrun _]].
  rewrite (bind_Ok _ _ _ _ _ Hrun). eexists. reflexivity.
Qed.

(** When the push service reports the endpoint gone and the store
    refuses the removal, [sendNotification] throws: its [catch] block
    awaits the removal unguarded (line 270). *)
Lemma sendNotification_removal_refused E sub p w :
  permanentFailure (transport E (tick w) (VObj sub) p) = true ->
  storeFails E (S (tick w)) OpDeleteOne = true ->
  exists w',
    sendNotification E (VObj sub) p w = (Throw StoreError, w')
    /\ db w' = db w.
Proof.
  intros Hgone Hstore. run_monad.
  destruct (transport E (tick w) (VObj sub) p) as [|sc]; [discriminate|].
  simpl in Hgone. simpl. rewrite Hgone. simpl. rewrite Hstore. simpl.
  eexists. split; reflexivity.
Qed.

(** C8.  A subscribe request that passes the check and has a string for
    its location, with a string for its endpoint and on a collection
    whose endpoints are strings, when the store takes the upsert: it is
    answered 201 with [success: true], whatever the weather API, the
    hourly data and the push service answer, if the store takes the
    removals.  It is answered 500, with the record written, when the
    head of the pipeline throws, the push service reports the endpoint
    gone at the "Weather Update Failed" notification and the store
    refuses the removal that [sendNotification] then asks for. *)
Theorem subscribe_answer_after_upsert E w body s :
  wellFormedSubscription body ->
  isString (requestEndpoint body) = true ->
  Forall stringEndpoint (db w) ->
  field "location" body = VStr s ->
  storeFails E (S (tick w)) OpUpdateOne = false ->
  (storeAccepts E OpDeleteOne ->
   fst (subscribeHandler E (VObj body) w) = Ok created)
  /\ (forall err w2,
        currentAndNext E 1 (VStr (normalize s))
          (afterUpsert E body (normalize s) w) = (Throw err, w2) ->
        permanentFailure
          (transport E (tick w2) (requestSubscription body)
             (failedPayload (hd [] (split (normalize s))))) = true ->
        storeFails E (S (tick w2)) OpDeleteOne = true ->
        fst (subscribeHandler E (VObj body) w) = Ok internalServerError
        /\ db (snd (subscribeHandler E (VObj body) w))
           = db (afterUpsert E body (normalize s) w)
        /\ hasEndpoint (requestEndpoint body)
             (db (snd (subscribeHandler E (VObj body) w))) = true).
Proof.
  intros Hwf Hstring _ Hloc Hupsert.
  rewrite (subscribeHandler_upsert E w body s Hwf Hloc Hupsert).
  destruct (wellFormed_object body Hwf) as [fs Hfs].
  split.
  - intros Hdelete. unfold notifyAndRespond. rewrite Hfs.
    destruct (sendWeatherUpdateForSubscription_returns E fs (normalize s)
                (afterUpsert E body (normalize s) w) Hdelete) as [w' Hrun].
    erewrite tryCatch_Ok; [reflexivity|].
    rewrite (bind_Ok _ _ _ _ _ Hrun). reflexivity.
  - intros err w2 Hfail Hgone Hrefused.
    pose proof (currentAndNext_frame E 1 (VStr (normalize s))
                  (afterUpsert E body (normalize s) w)) as [_ Hdb].
    rewrite Hfail in Hdb. cbn [snd] in Hdb.
    rewrite Hfs in Hgone.
    destruct (sendNotification_removal_refused E fs
                (failedPayload (hd [] (split (normalize s)))) w2
                Hgone Hrefused) as [w3 [Hrun Hdb3]].
    assert (Hpipeline :
              sendWeatherUpdateForSubscription E (VObj fs)
                (VStr (normalize s)) (afterUpsert E body (normalize s) w)
              = (Throw StoreError, w3)).
    { unfold sendWeatherUpdateForSubscription.
      rewrite (tryCatch_Throw _ _ _ err w2)
        by (now rewrite (bind_Throw _ _ _ _ _ Hfail)).
      unfold bind at 1. unfold lift, labelOf. cbn [asString].
      now rewrite (bind_Throw _ _ _ _ _ Hrun). }
    unfold notifyAndRespond. rewrite Hfs.
    rewrite (tryCatch_Throw _ _ _ StoreError w3)
      by (now rewrite (bind_Throw _ _ _ _ _ Hpipeline)).
    cbn [ret fst snd]. split; [reflexivity|].
    rewrite Hdb3, Hdb. split; [reflexivity|].
    pose proof Hwf as [Hendpoint _].
    fold (requestSubscription body) in Hendpoint.
    fold (requestEndpoint body) in Hendpoint.
    apply hasEndpoint_In; [now apply truthy_notNullish|].
    unfold afterUpsert. cbn [db].
    rewrite upsert_endpoints;
      [|now apply truthy_notNullish|apply subDocOf_fields].
    destruct (hasEndpoint (requestEndpoint body) (db w)) eqn:Hex.
    + apply hasEndpoint_In; [now apply truthy_notNullish|exact Hex].
    + apply in_or_app. right. now left.
Qed.

Lemma subscribe_answer_after_upsert_witness :
  (wellFormedSubscription resubscribeBody
   /\ isString (requestEndpoint resubscribeBody) = true
   /\ Forall stringEndpoint (db emptyWorld)
   /\ storeFails pruneFailsEnv (S (tick emptyWorld)) OpUpdateOne = false)
  /\ fst (subscribeHandler pruneFailsEnv (VObj resubscribeBody) emptyWorld)
     = Ok internalServerError
  /\ endpoints
       (db (snd (subscribeHandler pruneFailsEnv (VObj resubscribeBody)
                   emptyWorld)))
     = [VStr (lit "https://push.example/1")].
Proof.
  assert (H1 : wellFormedSubscription resubscribeBody)
    by (split; reflexivity).
  assert (H2 : Forall stringEndpoint (db emptyWorld)) by constructor.
  split; [auto 6|].
  destruct (subscribe_answer_after_upsert pruneFailsEnv emptyWorld
              resubscribeBody (lit "Paris , Ile-de-France , France")
              H1 eq_refl H2 eq_refl eq_refl) as [_ Hbug].
  destruct (Hbug UpstreamError
              (snd (currentAndNext pruneFailsEnv 1
                      (VStr (normalize
                               (lit "Paris , Ile-de-France , France")))
                      (afterUpsert pruneFailsEnv resubscribeBody
                         (normalize (lit "Paris , Ile-de-France , France"))
                         emptyWorld)))
              eq_refl eq_refl eq_refl) as [H500 [Hdb _]].
  split; [exact H500|]. rewrite Hdb. reflexivity.
Defined.

(** ** The cycle: a location whose weather cannot be had *)

Lemma sendBatchNotifications_returns E subs p w :
  exists r w', sendBatchNotifications E subs p w = (Ok r, w').
Proof.
  destruct (sendBatchNotifications_settles E p subs w)
    as [answers [results [w' [Hrun _]]]]. eauto.
Qed.

(** One turn of the loop returns, whatever happens in it, when the key
    of the group is a string. *)
Lemma processLocation_returns E location subscribers w :
  exists w',
    processLocation E (VStr location, subscribers) w = (Ok tt, w').
Proof.
  unfold processLocation. cbn [fst snd].
  apply tryCatch_returns_unit. intros e w1.
  unfold bind at 1. unfold lift, labelOf. simpl.
  destruct (sendBatchNotifications_returns E subscribers
              (failedPayloadBatch (hd [] (split location))) w1)
    as [r [w' Hrun]].
  rewrite (bind_Ok _ _ _ _ _ Hrun). eexists. reflexivity.
Qed.

(** When the head of the pipeline throws, the turn is the batch of the
    failure payload, started where the head stopped. *)
Lemma processLocation_failed E location subscribers w err w1 :
  currentAndNext E 2 (VStr location) w = (Throw err, w1) ->
  processLocation E (VStr location, subscribers) w
  = (Ok tt,
     snd (sendBatchNotifications E subscribers
            (failedPayloadBatch (hd [] (split location))) w1)).
Proof.
  intros Hfail. unfold processLocation. cbn [fst snd].
  rewrite (tryCatch_Throw _ _ _ err w1).
  - unfold bind at 1. unfold lift, labelOf. simpl.
    destruct (sendBatchNotifications_returns E subscribers
                (failedPayloadBatch (hd [] (split location))) w1)
      as [r [w' Hrun]].
    rewrite (bind_Ok _ _ _ _ _ Hrun), Hrun. reflexivity.
  - now rewrite (bind_Throw _ _ _ _ _ Hfail).
Qed.

Lemma forEach_processLocation E groups : forall w,
  Forall (fun g => isString (fst g) = true) groups ->
  forEach (processLocation E) groups w
  = (Ok tt, fold_left (fun w g => snd (processLocation E g w)) groups w).
Proof.
  induction groups as [|[location subscribers] r IH]; intros w Hkeys;
    [reflexivity|].
  inversion Hkeys as [|? ? Hkey Hr]; subst. simpl in Hkey.
  destruct location; try discriminate.
  destruct (processLocation_returns E s subscribers w) as [w' Hrun].
  cbn [forEach fold_left]. rewrite (bind_Ok _ _ _ _ _ Hrun), Hrun.
  cbn [snd]. now apply IH.
Qed.

Lemma addToGroup_keys location sub groups :
  isString location = true ->
  Forall (fun g : value * list obj => isString (fst g) = true) groups ->
  Forall (fun g : value * list obj => isString (fst g) = true)
    (addToGroup location sub groups).
Proof.
  intros Hloc. induction 1 as [|[l subs] r Hl Hr IH]; simpl.
  - repeat constructor. assumption.
  - destruct (sameValueZero l location); constructor; assumption.
Qed.

Lemma groupByLocation_keys allSubs :
  Forall stringLocation allSubs ->
  Forall (fun g => isString (fst g) = true) (groupByLocation allSubs).
Proof.
  unfold groupByLocation.
  assert (Hgen : forall groups,
            Forall (fun g : value * list obj => isString (fst g) = true)
              groups ->
            Forall stringLocation allSubs ->
            Forall (fun g : value * list obj => isString (fst g) = true)
              (fold_left
                 (fun m sub => addToGroup (field "location" sub) sub m)
                 allSubs groups)).
  { induction allSubs as [|sub r IH]; intros groups Hg Hall; simpl;
      [assumption|].
    inversion Hall; subst. apply IH; [|assumption].
    now apply addToGroup_keys. }
  intros Hall. apply Hgen; [constructor|assumption].
Qed.

Lemma find_all c : Store.find [] c = c.
Proof.
  unfold Store.find. induction c as [|d r IH]; simpl; [reflexivity|].
  now rewrite IH.
Qed.

Lemma getAllSubscriptions_cases E w :
  exists allSubs,
    getAllSubscriptions E w = (Ok allSubs, cycleStart E w)
    /\ cycleSubscriptions E w = allSubs
    /\ (allSubs = db w \/ allSubs = []).
Proof.
  unfold cycleSubscriptions, cycleStart, getAllSubscriptions, tryCatch,
    findM, storeCall, ret.
  destruct (storeFails E (tick w) OpFind); simpl.
  - exists []. auto.
  - exists (Store.find [] (db w)). rewrite find_all. auto.
Qed.

Lemma sendTwoHourWeatherUpdates_all E w :
  Forall stringLocation (db w) ->
  sendTwoHourWeatherUpdates E w
  = (Ok tt,
     fold_left (fun w g => snd (processLocation E g w))
       (groupByLocation (cycleSubscriptions E w)) (cycleStart E w)).
Proof.
  intros Hdb.
  destruct (getAllSubscriptions_cases E w) as [allSubs [Hrun [-> Hcases]]].
  assert (Hall : Forall stringLocation allSubs)
    by (destruct Hcases as [->| ->]; [assumption|constructor]).
  unfold sendTwoHourWeatherUpdates.
  erewrite tryCatch_Ok; [reflexivity|].
  rewrite (bind_Ok _ _ _ _ _ Hrun).
  destruct allSubs as [|sub r] eqn:Hsubs; [reflexivity|].
  rewrite <- Hsubs in *.
  apply forEach_processLocation. now apply groupByLocation_keys.
Qed.


(** The locations of the stored records are strings in every world the
    server reaches. *)
Lemma updateMany_stringLocation filter upd c :
  lookup "location" upd = None ->
  Forall stringLocation c ->
  Forall stringLocation (Store.updateMany filter upd c).
Proof.
  intros Hupd H. unfold Store.updateMany. apply Forall_map.
  apply Forall_impl with (P := stringLocation); [|assumption].
  intros d Hd. destruct (matches filter d); [|assumption].
  unfold stringLocation. now rewrite field_assign_absent.
Qed.

Lemma upsert_stringLocation E subscription s now e c :
  Forall stringLocation c ->
  Forall stringLocation
    (Store.updateOneUpsert [("endpoint", e)]
       (subDocOf E subscription s now) c).
Proof.
  intros H.
  assert (Hnew : forall d,
            stringLocation (assign d (subDocOf E subscription s now))).
  { intros d. unfold stringLocation.
    destruct (subDocOf_fields E subscription s now) as [_ [_ [Hlo _]]].
    rewrite field_assign_present; [now rewrite Hlo|].
    apply field_defined_lookup. rewrite Hlo. discriminate. }
  unfold Store.updateOneUpsert.
  destruct (existsb (matches [("endpoint", e)]) c) eqn:Hex.
  - destruct (firstMatch_exists _ _ Hex) as [before [old [after Hfm]]].
    rewrite (updateFirst_firstMatch _ _ _ _ _ _ Hfm).
    inversion Hfm; subst.
    apply Forall_app in H as [Hb Ha]. inversion Ha; subst.
    apply Forall_app. split; [assumption|]. constructor; auto.
  - rewrite (updateFirst_none _ _ _ Hex).
    apply Forall_app. split; [assumption|]. repeat constructor. apply Hnew.
Qed.

Lemma reachable_stringLocation E w :
  reachable E w -> Forall stringLocation (db w).
Proof.
  apply reachable_invariant.
  - intros filter c. apply deleteOne_Forall.
  - intros filter now next c. now apply updateMany_stringLocation.
  - intros subscription s now c _. apply upsert_stringLocation.
  - constructor.
Qed.

(** *** The groups of the cycle *)

Lemma sameValueZero_string l location :
  isString l = true ->
  sameValueZero l location = true <-> l = location.
Proof.
  destruct l; try discriminate. intros _. unfold sameValueZero.
  apply value_eqb_eq.
Qed.

Lemma atLocation_other l location sub :
  l <> location -> location = field "location" sub ->
  atLocation l sub = false.
Proof.
  intros Hl ->. unfold atLocation.
  destruct (value_eqb l (field "location" sub)) eqn:H; [|reflexivity].
  apply value_eqb_eq in H. contradiction.
Qed.

Lemma atLocation_own location sub :
  location = field "location" sub -> atLocation location sub = true.
Proof. intros ->. apply value_eqb_refl. Qed.

Lemma groupOf_other seen sub location g :
  location = field "location" sub ->
  fst g <> location ->
  groupOf seen g -> groupOf (seen ++ [sub]) g.
Proof.
  intros Hloc Hg [Hs [Hf Hn]]. repeat split; try assumption.
  rewrite filter_app. cbn [filter].
  rewrite (atLocation_other _ _ _ Hg Hloc). now rewrite app_nil_r.
Qed.

Lemma addToGroup_groupOf seen location sub groups :
  isString location = true ->
  location = field "location" sub ->
  NoDup (map fst groups) ->
  Forall (groupOf seen) groups ->
  (~ In location (map fst groups) ->
   filter (atLocation location) seen = []) ->
  Forall (groupOf (seen ++ [sub])) (addToGroup location sub groups).
Proof.
  intros Hs ->. induction groups as [|[l subs] r IH]; intros Hnd Hg Hnew;
    cbn [addToGroup].
  - constructor; [|constructor]. repeat split; cbn [fst snd].
    + assumption.
    + rewrite filter_app, Hnew by (intros []). cbn [filter].
      now rewrite (atLocation_own _ sub eq_refl).
    + discriminate.
  - apply Forall_cons_iff in Hg as [[Hl [Hf Hn]] Hr].
    cbn [map fst] in Hnd. apply NoDup_cons_iff in Hnd as [Hnotin Hnd'].
    cbn [fst snd] in *.
    destruct (sameValueZero l (field "location" sub)) eqn:Hsame.
    + apply (sameValueZero_string _ _ Hl) in Hsame. subst l.
      constructor.
      * repeat split; cbn [fst snd]; [assumption| |].
        -- rewrite filter_app, <- Hf. cbn [filter].
           now rewrite (atLocation_own _ sub eq_refl).
        -- destruct subs; discriminate.
      * rewrite Forall_forall in *. intros g Hin.
        apply groupOf_other with (location := field "location" sub);
          [reflexivity| |now apply Hr].
        intros Heq. apply Hnotin. rewrite <- Heq. now apply in_map.
    + assert (Hne : l <> field "location" sub).
      { intros Heq. apply (sameValueZero_string _ _ Hl) in Heq.
        congruence. }
      constructor.
      * apply groupOf_other with (location := field "location" sub);
          [reflexivity|assumption|]. repeat split; assumption.
      * apply IH; [assumption|assumption|].
        intros Hnot. apply Hnew. cbn [map fst]. intros [Heq|Hin];
          [contradiction|now apply Hnot].
Qed.

Lemma addToGroup_fst location sub groups :
  map fst (addToGroup location sub groups)
  = if existsb (fun l => sameValueZero l location) (map fst groups)
    then map fst groups
    else map fst groups ++ [location].
Proof.
  induction groups as [|[l subs] r IH]; cbn [addToGroup map fst existsb];
    [reflexivity|].
  destruct (sameValueZero l location); cbn [orb map fst]; [reflexivity|].
  rewrite IH. now destruct (existsb _ (map fst r)).
Qed.

Lemma no_group_no_subscriber seen (groups : list (value * list obj))
    location :
  Forall (fun sub => In (field "location" sub) (map fst groups)) seen ->
  ~ In location (map fst groups) ->
  filter (atLocation location) seen = [].
Proof.
  intros Hcover Hnot. induction Hcover as [|sub r Hsub _ IH];
    [reflexivity|].
  cbn [filter]. rewrite IH.
  destruct (atLocation location sub) eqn:Hat; [|reflexivity].
  apply value_eqb_eq in Hat. subst location. contradiction.
Qed.

Lemma addToGroup_groupsOf seen sub groups :
  stringLocation sub ->
  groupsOf seen groups ->
  groupsOf (seen ++ [sub]) (addToGroup (field "location" sub) sub groups).
Proof.
  intros Hs [Hnd [Hg Hcover]].
  assert (Hkeys : Forall (fun l => isString l = true) (map fst groups)).
  { apply Forall_map. apply Forall_impl with (P := groupOf seen);
      [|assumption]. now intros g [H _]. }
  split; [|split].
  - rewrite addToGroup_fst.
    destruct (existsb _ (map fst groups)) eqn:Hex; [assumption|].
    apply NoDup_app; [assumption|repeat constructor; intros []|].
    intros l Hin [Heq|[]].
    assert (Hc : existsb (fun l0 => sameValueZero l0 l) (map fst groups)
                 = true).
    { apply existsb_exists. exists l. split; [assumption|].
      apply sameValueZero_string; [|reflexivity].
      rewrite Forall_forall in Hkeys. now apply Hkeys. }
    rewrite <- Heq in Hc. congruence.
  - apply addToGroup_groupOf; try assumption; [reflexivity|].
    now apply no_group_no_subscriber.
  - rewrite addToGroup_fst. apply Forall_app. split.
    + apply Forall_impl with (2 := Hcover). intros s Hin.
      destruct (existsb _ (map fst groups)); [assumption|].
      apply in_or_app. now left.
    + constructor; [|constructor].
      destruct (existsb _ (map fst groups)) eqn:Hex.
      * apply existsb_exists in Hex as [l [Hin Hsame]].
        rewrite Forall_forall in Hkeys.
        apply (sameValueZero_string _ _ (Hkeys l Hin)) in Hsame.
        now subst l.
      * apply in_or_app. right. now left.
Qed.

Lemma fold_groupsOf rest : forall seen groups,
  Forall stringLocation rest ->
  groupsOf seen groups ->
  groupsOf (seen ++ rest)
    (fold_left (fun m sub => addToGroup (field "location" sub) sub m)
       rest groups).
Proof.
  induction rest as [|sub r IH]; intros seen groups Hall Hg; cbn [fold_left].
  - now rewrite app_nil_r.
  - inversion Hall; subst.
    replace (seen ++ sub :: r) with ((seen ++ [sub]) ++ r)
      by (now rewrite <- app_assoc).
    apply IH; [assumption|]. now apply addToGroup_groupsOf.
Qed.

(** *** The pushes of the turns *)

Lemma extendsPushes_refl w : extendsPushes w w.
Proof. exists []. now rewrite app_nil_r. Qed.

Lemma extendsPushes_trans w1 w2 w3 :
  extendsPushes w1 w2 -> extendsPushes w2 w3 -> extendsPushes w1 w3.
Proof.
  intros [n1 H1] [n2 H2]. exists (n1 ++ n2). now rewrite H2, H1, app_assoc.
Qed.

Lemma processLocation_extends E group w :
  extendsPushes w (snd (processLocation E group w)).
Proof.
  apply (preserves_processLocation extendsPushes extendsPushes_refl
           extendsPushes_trans E).
  - intros w0 q. exists []. cbn. now rewrite app_nil_r.
  - intros w0 d. now exists [d].
  - intros w0 filter. exists []. cbn. now rewrite app_nil_r.
  - intros w0 filter now next. exists []. cbn. now rewrite app_nil_r.
Qed.

Lemma newDeliveries_trans w1 w2 w3 :
  extendsPushes w1 w2 -> extendsPushes w2 w3 ->
  newDeliveries w1 w3 = newDeliveries w1 w2 ++ newDeliveries w2 w3.
Proof.
  intros [n1 H1] [n2 H2].
  rewrite (newDeliveries_app w1 w2 n1 H1), (newDeliveries_app w2 w3 n2 H2).
  apply newDeliveries_app. now rewrite H2, H1, app_assoc.
Qed.

Lemma turns_groups E groups : forall w, map fst (turns E groups w) = groups.
Proof.
  induction groups as [|g r IH]; intros w; cbn [turns map fst];
    [reflexivity|].
  now rewrite IH.
Qed.

(** The pushes of the loop are the pushes of its turns, one turn after
    the other. *)
Lemma fold_turns E groups : forall w,
  extendsPushes w (fold_left (fun w g => snd (processLocation E g w)) groups w)
  /\ newDeliveries w
       (fold_left (fun w g => snd (processLocation E g w)) groups w)
     = concat (map (turnDeliveries E) (turns E groups w)).
Proof.
  induction groups as [|g r IH]; intros w; cbn [fold_left turns map concat].
  - split; [apply extendsPushes_refl|].
    apply newDeliveries_app. now rewrite app_nil_r.
  - destruct (IH (snd (processLocation E g w))) as [Hext Hnew].
    pose proof (processLocation_extends E g w) as Hturn.
    split; [now apply extendsPushes_trans with (2 := Hext)|].
    rewrite (newDeliveries_trans _ _ _ Hturn Hext), Hnew. reflexivity.
Qed.

(** In every turn the group is the list of the records read at the
    start of the cycle that are stored under the key of the turn. *)
Lemma turns_of_groups E allSubs groups : forall w,
  Forall (groupOf allSubs) groups ->
  Forall (fun t =>
            isString (fst (fst t)) = true
            /\ snd (fst t) = filter (atLocation (fst (fst t))) allSubs)
    (turns E groups w).
Proof.
  induction groups as [|g r IH]; intros w Hg; cbn [turns]; [constructor|].
  apply Forall_cons_iff in Hg as [[Hs [Hf _]] Hr].
  constructor; [now split|]. now apply IH.
Qed.

Lemma cycleSubscriptions_read E w :
  storeFails E (tick w) OpFind = false ->
  cycleSubscriptions E w = db w /\ cycleStart E w = advance w.
Proof.
  intros Hfind.
  unfold cycleSubscriptions, cycleStart, getAllSubscriptions, tryCatch,
    findM, storeCall, advance.
  rewrite Hfind. cbn [fst snd]. now rewrite find_all.
Qed.

(** The turn of a location whose weather cannot be had. *)
Lemma processLocation_failed_deliveries E location subscribers w err w1 :
  currentAndNext E 2 (VStr location) w = (Throw err, w1) ->
  map (fun d => (recipient d, payload d))
    (newDeliveries w
       (snd (processLocation E (VStr location, subscribers) w)))
  = map (fun sub =>
           (VObj sub, failedPayloadBatch (hd [] (split location))))
      subscribers.
Proof.
  intros Hfail.
  rewrite (processLocation_failed E location subscribers w err w1 Hfail).
  cbn [snd].
  destruct (sendBatchNotifications_settles E
              (failedPayloadBatch (hd [] (split location))) subscribers w1)
    as [answers [results [w' [Hrun [Hla [_ [Hpush _]]]]]]].
  rewrite Hrun. cbn [snd].
  pose proof (currentAndNext_frame E 2 (VStr location) w) as [Hsame _].
  rewrite Hfail in Hsame. cbn [snd] in Hsame.
  rewrite Hsame in Hpush.
  rewrite (newDeliveries_app _ _ _ Hpush).
  now apply deliveriesTo_recipients.
Qed.

(** C6.  A cycle on a collection whose locations and endpoints are
    strings, when the store answers the read of the subscriptions.  The
    cycle returns
    normally.  Every location of a stored record is the key of exactly
    one group, every group has its turn, one after the other, each in
    the world the turn before it has left, and what the cycle pushes is
    what its turns push, in that order.  In the turn of a location at
    which the head of the pipeline throws (the weather API fails, the
    location has too few parts, the hourly data is missing), exactly one
    "Weather Update Failed" payload is handed to the push service for
    every record stored under that location at the start of the cycle,
    in the order of the collection, and nothing else. *)
Theorem failed_location_isolated E w :
  Forall stringLocation (db w) ->
  Forall stringEndpoint (db w) ->
  storeFails E (tick w) OpFind = false ->
  let groups := groupByLocation (db w) in
  let run := sendTwoHourWeatherUpdates E w in
  let ts := turns E groups (advance w) in
  fst run = Ok tt
  /\ NoDup (map fst groups)
  /\ (forall sub, In sub (db w) -> In (field "location" sub) (map fst groups))
  /\ map fst ts = groups
  /\ newDeliveries w (snd run) = concat (map (turnDeliveries E) ts)
  /\ Forall (fun t =>
               forall location err w1,
                 fst (fst t) = VStr location ->
                 currentAndNext E 2 (VStr location) (snd t)
                 = (Throw err, w1) ->
                 map (fun d => (recipient d, payload d))
                   (turnDeliveries E t)
                 = map (fun sub =>
                          (VObj sub,
                           failedPayloadBatch (hd [] (split location))))
                     (filter (atLocation (VStr location)) (db w)))
       ts
  /\ (forall label,
        optProp (failedPayloadBatch label) "title"
        = VStr (lit "Weather Update Failed")).
Proof.
  intros Hdb _ Hfind groups run ts.
  destruct (cycleSubscriptions_read E w Hfind) as [Hsubs Hstart].
  destruct (fold_groupsOf (db w) [] [] Hdb) as [Hnd [Hg Hcover]].
  { repeat split; constructor. }
  cbn [app] in Hnd, Hg, Hcover. fold (groupByLocation (db w)) in Hnd, Hg, Hcover.
  fold groups in Hnd, Hg, Hcover.
  assert (Hrun : run
                 = (Ok tt,
                    fold_left (fun w g => snd (processLocation E g w))
                      groups (advance w))).
  { unfold run. rewrite (sendTwoHourWeatherUpdates_all E w Hdb).
    now rewrite Hsubs, Hstart. }
  rewrite Hrun. cbn [fst snd].
  split; [reflexivity|]. split; [exact Hnd|].
  split; [now apply Forall_forall|].
  split; [apply turns_groups|].
  destruct (fold_turns E groups (advance w)) as [Hext Hnew].
  unfold ts. split.
  - rewrite <- Hnew.
    assert (Hfirst : extendsPushes w (advance w))
      by (exists []; cbn; now rewrite app_nil_r).
    rewrite (newDeliveries_trans _ _ _ Hfirst Hext).
    unfold newDeliveries at 1. cbn [advance pushes].
    now rewrite skipn_all.
  - split; [|reflexivity].
    apply Forall_impl with (2 := turns_of_groups E (db w) groups (advance w) Hg).
    intros [[key subscribers] wt] [_ Hsubscribers] location err w1 Hkey Hfail.
    cbn [fst snd] in *. subst key. unfold turnDeliveries. cbn [fst snd].
    rewrite (processLocation_failed_deliveries E location subscribers wt
               err w1 Hfail).
    now rewrite Hsubscribers.
Qed.

Lemma failed_location_isolated_witness :
  (Forall stringLocation (db (worldOf threeRecords))
   /\ Forall stringEndpoint (db (worldOf threeRecords))
   /\ storeFails parisDownEnv (tick (worldOf threeRecords)) OpFind = false)
  /\ fst (sendTwoHourWeatherUpdates parisDownEnv (worldOf threeRecords))
     = Ok tt
  /\ map (fun d => (recipient d, payload d))
       (newDeliveries (worldOf threeRecords)
          (snd (sendTwoHourWeatherUpdates parisDownEnv
                  (worldOf threeRecords))))
     = (let p := samplePayloads parisDownEnv
                   (VStr (lit "Oslo,Oslo,Norway"))
                   (sampleHour "2024-01-01 13:00")
                   (sampleHour "2024-01-01 13:00") in
        [(VObj parisRecord, failedPayloadBatch (lit "Paris"));
         (VObj goneRecord, failedPayloadBatch (lit "Paris"));
         (VObj osloRecord, fst p);
         (VObj osloRecord, snd p)]).
Proof.
  assert (H : Forall stringLocation (db (worldOf threeRecords)))
    by (repeat constructor).
  assert (H' : Forall stringEndpoint (db (worldOf threeRecords)))
    by (repeat constructor).
  split; [split; [exact H|split; [exact H'|reflexivity]]|].
  destruct (failed_location_isolated parisDownEnv (worldOf threeRecords)
              H H' eq_refl) as [Hok [_ [_ [_ [Hpushes _]]]]].
  split; [exact Hok|].
  rewrite Hpushes. reflexivity.
Defined.

(* ================================================================== *)
(** * Part III: further properties of the server *)
(* ================================================================== *)

(** ** The first cycle of the scheduler *)

Lemma minute_of_two_hours t :
  Z.rem (HourFromTime t) 2 * 60 + MinFromTime t = (t / msPerMinute) mod 120.
Proof.
  unfold HourFromTime, MinFromTime, msPerHour, msPerMinute.
  replace 3600000 with (60000 * 60) by reflexivity.
  rewrite <- Z.div_div by lia.
  set (T := t / 60000).
  assert (Hh : 0 <= (T / 60) mod 24 < 24) by (apply Z.mod_pos_bound; lia).
  rewrite Z.rem_mod_nonneg by lia.
  pose proof (Z.div_mod T 60 ltac:(lia)) as H60.
  pose proof (Z.mod_pos_bound T 60 ltac:(lia)) as B60.
  pose proof (Z.div_mod (T / 60) 24 ltac:(lia)) as H24.
  pose proof (Z.div_mod ((T / 60) mod 24) 2 ltac:(lia)) as H2.
  pose proof (Z.mod_pos_bound ((T / 60) mod 24) 2 ltac:(lia)) as B2.
  apply Z.mod_unique_pos
    with (q := 12 * (T / 60 / 24) + (T / 60) mod 24 / 2); lia.
Qed.

(** Under one zone offset [tz] for the start and for the time the timer
    is set for. *)
Lemma first_cycle_one_offset tz now :
  0 <= minutesToNextUpdate tz now < 120
  /\ Z.even (getHours tz (now + minutesToNextUpdate tz now * msPerMinute))
     = true
  /\ getMinutes tz (now + minutesToNextUpdate tz now * msPerMinute) = 0
  /\ (minutesToNextUpdate tz now = 0
      <-> Z.even (getHours tz now) = true /\ getMinutes tz now = 0).
Proof.
  unfold minutesToNextUpdate, getHours, getMinutes.
  rewrite minute_of_two_hours.
  set (L := LocalTime tz now).
  assert (HL : LocalTime tz
                 (now + Z.rem (120 - (L / msPerMinute) mod 120) 120
                        * msPerMinute)
               = L + Z.rem (120 - (L / msPerMinute) mod 120) 120
                     * msPerMinute)
    by (unfold L, LocalTime; lia).
  rewrite HL. clear HL.
  set (T := L / msPerMinute).
  pose proof (Z.mod_pos_bound T 120 ltac:(lia)) as B.
  rewrite Z.rem_mod_nonneg by lia.
  set (m := (120 - T mod 120) mod 120).
  assert (Bm : 0 <= m < 120) by (apply Z.mod_pos_bound; lia).
  assert (Hsum : (T + m) mod 120 = 0).
  { unfold m. destruct (Z.eq_dec (T mod 120) 0) as [H0|H0].
    - rewrite H0. simpl. rewrite Z.add_0_r. exact H0.
    - rewrite (Z.mod_small (120 - T mod 120)) by lia.
      pose proof (Z.div_mod T 120 ltac:(lia)).
      replace (T + (120 - T mod 120)) with ((T / 120 + 1) * 120) by lia.
      apply Z.mod_mul. lia. }
  assert (HT : (L + m * msPerMinute) / msPerMinute = T + m).
  { unfold T. rewrite Z.div_add by (unfold msPerMinute; lia). reflexivity. }
  assert (Hmin : MinFromTime (L + m * msPerMinute) = 0).
  { unfold MinFromTime. rewrite HT.
    pose proof (Z.div_mod (T + m) 120 ltac:(lia)) as Hd.
    rewrite Hsum in Hd.
    replace (T + m) with ((2 * ((T + m) / 120)) * 60) by lia.
    apply Z.mod_mul. lia. }
  assert (Hhour : Z.even (HourFromTime (L + m * msPerMinute)) = true).
  { unfold HourFromTime, msPerHour.
    replace 3600000 with (msPerMinute * 60) by reflexivity.
    rewrite <- Z.div_div by (unfold msPerMinute; lia). rewrite HT.
    pose proof (Z.div_mod (T + m) 120 ltac:(lia)) as Hd.
    rewrite Hsum in Hd.
    replace ((T + m) / 60) with (2 * ((T + m) / 120)).
    2:{ apply Z.div_unique with (r := 0); lia. }
    rewrite Z.even_spec.
    pose proof (Z.div_mod (2 * ((T + m) / 120)) 24 ltac:(lia)) as H24.
    exists ((T + m) / 120 - 12 * (2 * ((T + m) / 120) / 24)). lia. }
  split; [exact Bm|]. split; [exact Hhour|]. split; [exact Hmin|].
  assert (Hrem : 0 <= Z.rem (HourFromTime L) 2 < 2).
  { unfold HourFromTime.
    pose proof (Z.mod_pos_bound (L / msPerHour) 24 ltac:(lia)).
    rewrite Z.rem_mod_nonneg by lia. apply Z.mod_pos_bound. lia. }
  assert (Bmin : 0 <= MinFromTime L < 60)
    by (apply Z.mod_pos_bound; lia).
  assert (Heven : Z.even (HourFromTime L) = true
                  <-> Z.rem (HourFromTime L) 2 = 0).
  { rewrite Z.even_spec. unfold HourFromTime.
    pose proof (Z.mod_pos_bound (L / msPerHour) 24 ltac:(lia)).
    rewrite Z.rem_mod_nonneg by lia.
    rewrite Z.mod_divide by lia. unfold Z.divide, Z.Even. split.
    - intros [k Hk]. exists k. lia.
    - intros [k Hk]. exists k. lia. }
  pose proof (minute_of_two_hours L) as Hm2. fold T in Hm2.
  unfold m. rewrite Heven. split.
  - intros H0.
    destruct (Z.eq_dec (T mod 120) 0) as [Hz|Hz]; [lia|].
    rewrite Z.mod_small in H0 by lia. lia.
  - intros [Hr Hmn]. assert (T mod 120 = 0) as -> by lia. reflexivity.
Qed.

(** X1.  [zone] gives the offset of the host's zone at an instant.  The
    delay [scheduleTwoHourWeatherUpdates] computes for the first cycle
    is a number of minutes from 0 to 119, and it is 0 exactly in the
    first minute of an even hour.  When the offset at the time the timer
    is set for is the offset at the start (no change of daylight saving
    in between), the timer is set for the first minute of an even hour
    of local time (the seconds of the start are kept). *)
Theorem first_cycle_in_an_even_hour (zone : Z -> Z) now :
  let delay := minutesToNextUpdate (zone now) now in
  let start := now + delay * msPerMinute in
  0 <= delay < 120
  /\ (delay = 0
      <-> Z.even (getHours (zone now) now) = true
          /\ getMinutes (zone now) now = 0)
  /\ (zone start = zone now ->
      Z.even (getHours (zone start) start) = true
      /\ getMinutes (zone start) start = 0).
Proof.
  intros delay start.
  destruct (first_cycle_one_offset (zone now) now)
    as [Hdelay [Heven [Hmin Hzero]]].
  split; [exact Hdelay|]. split; [exact Hzero|].
  intros Hzone. rewrite Hzone. split; [exact Heven|exact Hmin].
Qed.

Lemma first_cycle_in_an_even_hour_witness :
  (fun _ : Z => 0) (at_ 0 13 45 + 15 * msPerMinute)
  = (fun _ : Z => 0) (at_ 0 13 45)
  /\ minutesToNextUpdate 0 (at_ 0 13 45) = 15
  /\ getHours 0 (at_ 0 13 45 + 15 * msPerMinute) = 14
  /\ getMinutes 0 (at_ 0 13 45 + 15 * msPerMinute) = 0.
Proof.
  split; [reflexivity|]. split; [reflexivity|].
  destruct (first_cycle_in_an_even_hour (fun _ => 0) (at_ 0 13 45))
    as [_ [_ Hstart]].
  destruct (Hstart eq_refl) as [_ Hmin].
  split; [reflexivity|exact Hmin].
Defined.

(** ** Unsubscribe and check *)

(** X2.  [DELETE /api/subscribe] for an endpoint that is a string, on a
    collection whose endpoints are strings, no two of them the same:
    when the store rejects the call the answer is 500
    with the message of the error and nothing is removed; otherwise the
    answer is 200 exactly if the endpoint had a record, which is then
    gone while every record of another endpoint is kept, and 404 with
    the collection as it was if it had none. *)
Theorem unsubscribe_outcome E errorMessage body w :
  endpointsUnique (db w) ->
  Forall stringEndpoint (db w) ->
  isString (field "endpoint" body) = true ->
  (storeFails E (tick w) OpDeleteOne = true ->
   fst (unsubscribeHandler E errorMessage (VObj body) w)
   = Ok (respond 500 (VObj [("error", VStr (errorMessage StoreError))]))
   /\ db (snd (unsubscribeHandler E errorMessage (VObj body) w)) = db w)
  /\ (storeFails E (tick w) OpDeleteOne = false ->
      (hasEndpoint (field "endpoint" body) (db w) = true ->
       fst (unsubscribeHandler E errorMessage (VObj body) w)
       = Ok (respond 200 (VObj [("success", VBool true)]))
       /\ hasEndpoint (field "endpoint" body)
            (db (snd (unsubscribeHandler E errorMessage (VObj body) w)))
          = false
       /\ S (length
               (db (snd (unsubscribeHandler E errorMessage (VObj body) w))))
          = length (db w))
      /\ (hasEndpoint (field "endpoint" body) (db w) = false ->
          fst (unsubscribeHandler E errorMessage (VObj body) w)
          = Ok (respond 404
                  (VObj [("error", VStr (lit "Subscription not found"))]))
          /\ db (snd (unsubscribeHandler E errorMessage (VObj body) w))
             = db w)
      /\ (forall d,
            field "endpoint" d <> field "endpoint" body ->
            In d (db (snd (unsubscribeHandler E errorMessage (VObj body) w)))
            <-> In d (db w))).
Proof.
  intros Hunique _ Hstring.
  pose proof (isString_notNullish _ Hstring) as He.
  unfold unsubscribeHandler, tryCatch, bind, prop, lift, ret, deleteOneM,
    storeCall, deletedCount. cbn [getProp fst snd].
  fold (hasEndpoint (field "endpoint" body) (db w)).
  split.
  - intros ->. cbn. split; reflexivity.
  - intros ->. cbn [fst snd db].
    split; [|split].
    + intros Hex. rewrite Hex. cbn.
      split; [reflexivity|]. split.
      * now apply deleteOne_removes.
      * now apply deleteOne_length.
    + intros Hex. rewrite Hex. cbn. split; [reflexivity|].
      now apply deleteOne_none.
    + intros d Hd.
      destruct (hasEndpoint (field "endpoint" body) (db w)); cbn;
        now apply deleteOne_keeps_others.
Qed.

Lemma unsubscribe_outcome_witness :
  (endpointsUnique (db (worldOf threeRecords))
   /\ Forall stringEndpoint (db (worldOf threeRecords))
   /\ isString (field "endpoint" (subscriptionOf goneEndpoint)) = true)
  /\ fst (unsubscribeHandler quietEnv (fun _ => []) 
            (VObj (subscriptionOf goneEndpoint)) (worldOf threeRecords))
     = Ok (respond 200 (VObj [("success", VBool true)])).
Proof.
  assert (H1 : endpointsUnique (db (worldOf threeRecords)))
    by (unfold endpointsUnique; simpl; distinct_values).
  assert (H2 : isString (field "endpoint" (subscriptionOf goneEndpoint))
               = true) by reflexivity.
  assert (H3 : Forall stringEndpoint (db (worldOf threeRecords)))
    by (repeat constructor).
  split; [auto|].
  destruct (unsubscribe_outcome quietEnv (fun _ => [])
              (subscriptionOf goneEndpoint) (worldOf threeRecords) H1 H3 H2)
    as [_ Hworks].
  destruct (Hworks eq_refl) as [Hfound _].
  destruct (Hfound eq_refl) as [Hanswer _]. exact Hanswer.
Defined.

Lemma find_first {A} (f : A -> bool) before x after :
  existsb f before = false -> f x = true ->
  List.find f (before ++ x :: after) = Some x.
Proof.
  intros Hb Hx. induction before as [|y r IH]; simpl.
  - now rewrite Hx.
  - simpl in Hb. apply orb_false_iff in Hb as [Hy Hr].
    rewrite Hy. now apply IH.
Qed.

(** The record an upsert leaves is the one a look-up of its endpoint
    finds. *)
Lemma findOne_after_upsert e upd c :
  notNullish e = true ->
  field "endpoint" upd = e ->
  exists d,
    Store.findOne [("endpoint", e)] (updateOneUpsert [("endpoint", e)] upd c)
    = Some (assign d upd).
Proof.
  intros He Hupd.
  assert (Hpresent : lookup "endpoint" upd <> None).
  { apply field_defined_lookup. rewrite Hupd. destruct e; discriminate. }
  assert (Hnew : forall d, matches [("endpoint", e)] (assign d upd) = true).
  { intros d. apply matches_endpoint; [assumption|].
    now rewrite field_assign_present. }
  unfold Store.findOne, updateOneUpsert.
  destruct (existsb (matches [("endpoint", e)]) c) eqn:Hex.
  - destruct (firstMatch_exists _ _ Hex) as [before [old [after Hfm]]].
    rewrite (updateFirst_firstMatch _ upd _ _ _ _ Hfm).
    inversion Hfm; subst. exists old. now apply find_first.
  - rewrite (updateFirst_none _ _ _ Hex).
    exists [("endpoint", e)]. now apply find_first.
Qed.

Lemma find_none {A} (f : A -> bool) l :
  existsb f l = false -> List.find f l = None.
Proof.
  induction l as [|x r IH]; simpl; [reflexivity|].
  intros H. apply orb_false_iff in H as [Hx Hr]. now rewrite Hx, IH.
Qed.

(** X3.  Where endpoints are strings, in the requests and in the
    collection: right after the upsert of a subscribe, a check of the
    same endpoint answers 200 with [subscribed: true] and the normalised
    location, and a check of an endpoint without a record answers 404.
    A check the store rejects answers 500, and no check changes the
    collection. *)
Theorem check_finds_the_subscription E :
  (forall w body s query,
     wellFormedSubscription body ->
     isString (requestEndpoint body) = true ->
     Forall stringEndpoint (db w) ->
     field "location" body = VStr s ->
     field "endpoint" query = requestEndpoint body ->
     storeFails E (tick (afterUpsert E body (normalize s) w)) OpFindOne
     = false ->
     fst (checkHandler E (VObj query) (afterUpsert E body (normalize s) w))
     = Ok (respond 200
             (VObj [("subscribed", VBool true);
                    ("location", VStr (normalize s))])))
  /\ (forall w query,
        storeFails E (tick w) OpFindOne = false ->
        isString (field "endpoint" query) = true ->
        Forall stringEndpoint (db w) ->
        hasEndpoint (field "endpoint" query) (db w) = false ->
        fst (checkHandler E (VObj query) w) = Ok (respond 404 VUndefined))
  /\ (forall w query,
        storeFails E (tick w) OpFindOne = true ->
        fst (checkHandler E (VObj query) w) = Ok (respond 500 VUndefined))
  /\ (forall w query, db (snd (checkHandler E query w)) = db w).
Proof.
  split; [|split; [|split]].
  - intros w body s query [Hendpoint Hkeys] _ _ Hloc Hquery Hstore.
    fold (requestSubscription body) in Hendpoint, Hkeys.
    fold (requestEndpoint body) in Hendpoint.
    destruct (findOne_after_upsert (requestEndpoint body)
                (subDocOf E (requestSubscription body) (normalize s)
                   (clock E (tick w))) (db w)
                (truthy_notNullish _ Hendpoint)) as [d Hfind].
    { apply subDocOf_fields. }
    unfold checkHandler, tryCatch, bind, prop, lift, ret, findOneM,
      storeCall. cbn [getProp fst snd].
    rewrite Hstore, Hquery. cbn [fst snd].
    change (db (afterUpsert E body (normalize s) w))
      with (updateOneUpsert [("endpoint", requestEndpoint body)]
              (subDocOf E (requestSubscription body) (normalize s)
                 (clock E (tick w))) (db w)).
    rewrite Hfind. cbn [fst].
    destruct (subDocOf_fields E (requestSubscription body) (normalize s)
                (clock E (tick w))) as [_ [_ [Hlo _]]].
    rewrite field_assign_present; [now rewrite Hlo|].
    apply field_defined_lookup. rewrite Hlo. discriminate.
  - intros w query Hstore _ _ Hex.
    unfold checkHandler, tryCatch, bind, prop, lift, ret, findOneM,
      storeCall. cbn [getProp fst snd].
    rewrite Hstore. cbn [fst snd]. unfold Store.findOne.
    rewrite find_none by exact Hex. reflexivity.
  - intros w query Hstore.
    unfold checkHandler, tryCatch, bind, prop, lift, ret, findOneM,
      storeCall. cbn [getProp fst snd].
    rewrite Hstore. reflexivity.
  - intros w query.
    pose proof (preserves_checkHandler
                  (fun w w' => db w' = db w)
                  (fun w => eq_refl)
                  (fun w1 w2 w3 H1 H2 => eq_trans H2 H1) E
                  (fun w q => eq_refl) query w) as H.
    exact H.
Qed.

Lemma check_finds_the_subscription_witness :
  (wellFormedSubscription resubscribeBody
   /\ isString (requestEndpoint resubscribeBody) = true
   /\ Forall stringEndpoint (db emptyWorld)
   /\ storeFails quietEnv
        (tick (afterUpsert quietEnv resubscribeBody
                 (normalize (lit "Paris , Ile-de-France , France"))
                 emptyWorld)) OpFindOne = false)
  /\ fst (checkHandler quietEnv
            (VObj (subscriptionOf "https://push.example/1"))
            (afterUpsert quietEnv resubscribeBody
               (normalize (lit "Paris , Ile-de-France , France"))
               emptyWorld))
     = Ok (respond 200
             (VObj [("subscribed", VBool true);
                    ("location",
                     VStr (normalize
                             (lit "Paris , Ile-de-France , France")))])).
Proof.
  assert (H1 : wellFormedSubscription resubscribeBody)
    by (split; reflexivity).
  assert (H2 : Forall stringEndpoint (db emptyWorld)) by constructor.
  split;
    [split; [exact H1|split; [reflexivity|split; [exact H2|reflexivity]]]|].
  destruct (check_finds_the_subscription quietEnv) as [Hfound _].
  apply (Hfound emptyWorld resubscribeBody
           (lit "Paris , Ile-de-France , France")
           (subscriptionOf "https://push.example/1") H1 eq_refl H2);
    reflexivity.
Defined.

(** ** A cycle with nothing to do *)

(** X4.  When the read of the subscriptions is rejected by the store, or
    the collection is empty, a cycle of the scheduler returns without
    a request to the weather API, without a push and without a write. *)
Theorem cycle_without_subscriptions E w :
  storeFails E (tick w) OpFind = true \/ db w = [] ->
  sendTwoHourWeatherUpdates E w = (Ok tt, advance w).
Proof.
  intros H.
  unfold sendTwoHourWeatherUpdates, getAllSubscriptions, tryCatch, bind,
    findM, storeCall, ret, advance.
  destruct (storeFails E (tick w) OpFind) eqn:Hstore; cbn [fst snd].
  - reflexivity.
  - destruct H as [H|H]; [discriminate|]. rewrite H. reflexivity.
Qed.

Lemma cycle_without_subscriptions_witness :
  (storeFails quietEnv (tick emptyWorld) OpFind = true \/ db emptyWorld = [])
  /\ sendTwoHourWeatherUpdates quietEnv emptyWorld
     = (Ok tt, advance emptyWorld).
Proof.
  assert (H : storeFails quietEnv (tick emptyWorld) OpFind = true
              \/ db emptyWorld = []) by (right; reflexivity).
  split; [exact H|].
  exact (cycle_without_subscriptions quietEnv emptyWorld H).
Defined.

(** ** A subscribe whose subscription does not last *)

(** X5.  A subscribe can be answered 201 and leave no record behind: when
    the weather step fails and the push service answers 410 or 404 to
    the "Weather Update Failed" notification, the record that was just
    written is removed again (the store taking both writes, the
    endpoint of the request being a string, on a collection whose
    endpoints are strings, no two of them the same), and that
    notification is the only push made. *)
Theorem subscribe_created_yet_pruned E w body s err w2 :
  wellFormedSubscription body ->
  isString (requestEndpoint body) = true ->
  field "location" body = VStr s ->
  storeFails E (S (tick w)) OpUpdateOne = false ->
  storeAccepts E OpDeleteOne ->
  endpointsUnique (db w) ->
  Forall stringEndpoint (db w) ->
  currentAndNext E 1 (VStr (normalize s))
    (afterUpsert E body (normalize s) w) = (Throw err, w2) ->
  permanentFailure
    (transport E (tick w2) (requestSubscription body)
       (failedPayload (hd [] (split (normalize s))))) = true ->
  fst (subscribeHandler E (VObj body) w) = Ok created
  /\ hasEndpoint (requestEndpoint body)
       (db (snd (subscribeHandler E (VObj body) w))) = false
  /\ newDeliveries w (snd (subscribeHandler E (VObj body) w))
     = [Build_delivery (requestSubscription body)
          (failedPayload (hd [] (split (normalize s))))
          (transport E (tick w2) (requestSubscription body)
             (failedPayload (hd [] (split (normalize s)))))].
Proof.
  intros Hwf _ Hloc Hupsert Hdelete Hunique _ Hfail Hgone.
  rewrite (subscribeHandler_upsert E w body s Hwf Hloc Hupsert).
  destruct (wellFormed_object body Hwf) as [fs Hfs].
  pose proof Hwf as [Hendpoint _].
  fold (requestSubscription body) in Hendpoint.
  fold (requestEndpoint body) in Hendpoint.
  pose proof (currentAndNext_frame E 1 (VStr (normalize s))
                (afterUpsert E body (normalize s) w)) as [Hpushes Hdb].
  rewrite Hfail in Hpushes, Hdb. cbn [snd] in Hpushes, Hdb.
  rewrite Hfs in *.
  destruct (sendNotification_spec E fs
              (failedPayload (hd [] (split (normalize s)))) w2 Hdelete)
    as [w3 [Hrun [Hpush3 [_ Hdb3]]]].
  assert (Hpipeline :
            sendWeatherUpdateForSubscription E (VObj fs)
              (VStr (normalize s)) (afterUpsert E body (normalize s) w)
            = (Ok tt, w3)).
  { unfold sendWeatherUpdateForSubscription.
    rewrite (tryCatch_Throw _ _ _ err w2)
      by (now rewrite (bind_Throw _ _ _ _ _ Hfail)).
    unfold bind at 1. unfold lift, labelOf. cbn [asString].
    now rewrite (bind_Ok _ _ _ _ _ Hrun). }
  unfold notifyAndRespond. rewrite Hfs.
  rewrite (tryCatch_Ok _ _ _ created w3)
    by (now rewrite (bind_Ok _ _ _ _ _ Hpipeline)).
  cbn [fst snd]. split; [reflexivity|]. split.
  - rewrite Hdb3. cbn [pruneAll]. rewrite Hgone, Hdb.
    unfold requestEndpoint. rewrite Hfs. cbn [optProp].
    apply deleteOne_removes.
    + apply truthy_notNullish. unfold requestEndpoint in Hendpoint.
      now rewrite Hfs in Hendpoint.
    + unfold afterUpsert. cbn [db].
      replace (requestEndpoint body)
        with (optProp (VObj fs) "endpoint")
        by (unfold requestEndpoint; now rewrite Hfs).
      rewrite Hfs.
      apply subDocOf_endpoint_upsert_unique; [|assumption].
      unfold requestEndpoint in Hendpoint. now rewrite Hfs in Hendpoint.
  - apply newDeliveries_app. rewrite Hpush3, Hpushes. reflexivity.
Qed.

Lemma subscribe_created_yet_pruned_witness :
  (wellFormedSubscription
     [("subscription", VObj (subscriptionOf goneEndpoint));
      ("location", VStr (lit "Oslo,Oslo,Norway"))]
   /\ storeAccepts goneEnv OpDeleteOne
   /\ endpointsUnique (db emptyWorld)
   /\ Forall stringEndpoint (db emptyWorld))
  /\ fst (subscribeHandler goneEnv
            (VObj [("subscription", VObj (subscriptionOf goneEndpoint));
                   ("location", VStr (lit "Oslo,Oslo,Norway"))])
            emptyWorld) = Ok created
  /\ hasEndpoint (VStr (lit goneEndpoint))
       (db (snd (subscribeHandler goneEnv
                   (VObj [("subscription",
                           VObj (subscriptionOf goneEndpoint));
                          ("location", VStr (lit "Oslo,Oslo,Norway"))])
                   emptyWorld))) = false.
Proof.
  assert (H1 : wellFormedSubscription
                 [("subscription", VObj (subscriptionOf goneEndpoint));
                  ("location", VStr (lit "Oslo,Oslo,Norway"))])
    by (split; reflexivity).
  assert (H2 : storeAccepts goneEnv OpDeleteOne) by (intros t; reflexivity).
  assert (H3 : endpointsUnique (db emptyWorld)) by constructor.
  assert (H4 : Forall stringEndpoint (db emptyWorld)) by constructor.
  split; [auto 6|].
  destruct (subscribe_created_yet_pruned goneEnv emptyWorld
              [("subscription", VObj (subscriptionOf goneEndpoint));
               ("location", VStr (lit "Oslo,Oslo,Norway"))]
              (lit "Oslo,Oslo,Norway") UpstreamError
              (snd (currentAndNext goneEnv 1
                      (VStr (normalize (lit "Oslo,Oslo,Norway")))
                      (afterUpsert goneEnv
                         [("subscription",
                           VObj (subscriptionOf goneEndpoint));
                          ("location", VStr (lit "Oslo,Oslo,Norway"))]
                         (normalize (lit "Oslo,Oslo,Norway")) emptyWorld)))
              H1 eq_refl eq_refl eq_refl H2 H3 H4 eq_refl eq_refl)
    as [Hcreated [Hgone _]].
  split; [exact Hcreated|exact Hgone].
Defined.

(** ** The records of the collection *)

Lemma wellFormedRecord_notified d now next :
  wellFormedRecord d ->
  wellFormedRecord
    (assign d [("lastNotified", VDate now);
               ("nextNotificationTime", VDate next)]).
Proof.
  intros [He [Hk [Hl [Hc _]]]]. unfold wellFormedRecord.
  rewrite !field_assign. cbn.
  repeat split; try assumption; eauto.
Qed.

Lemma wellFormedRecord_subDoc E subscription s now d :
  truthy (optProp subscription "endpoint") = true ->
  truthy (optProp subscription "keys") = true ->
  wellFormedRecord (assign d (subDocOf E subscription (normalize s) now)).
Proof.
  intros He Hk.
  destruct (subDocOf_fields E subscription (normalize s) now)
    as [Hc [Hn [Hlo [Hnx [Hen Hke]]]]].
  assert (Hset : forall k,
            field k (subDocOf E subscription (normalize s) now)
            <> VUndefined ->
            field k (assign d (subDocOf E subscription (normalize s) now))
            = field k (subDocOf E subscription (normalize s) now)).
  { intros k Hd. apply field_assign_present.
    now apply field_defined_lookup. }
  unfold wellFormedRecord.
  rewrite (Hset "endpoint"), (Hset "keys"), (Hset "location"),
    (Hset "createdAt"), (Hset "lastNotified"),
    (Hset "nextNotificationTime");
    rewrite ?Hc, ?Hn, ?Hlo, ?Hnx, ?Hen, ?Hke;
    try discriminate;
    try (intros Hu; rewrite Hu in *; discriminate).
  repeat split; try assumption; eauto.
  exists (normalize s). split; [reflexivity|].
  apply replaceSeparators_idempotent.
Qed.

Lemma upsert_wellFormed E subscription s now c :
  truthy (optProp subscription "endpoint") = true ->
  truthy (optProp subscription "keys") = true ->
  Forall wellFormedRecord c ->
  Forall wellFormedRecord
    (Store.updateOneUpsert [("endpoint", optProp subscription "endpoint")]
       (subDocOf E subscription (normalize s) now) c).
Proof.
  intros He Hk H. unfold Store.updateOneUpsert.
  destruct (existsb
              (matches [("endpoint", optProp subscription "endpoint")]) c)
    eqn:Hex.
  - destruct (firstMatch_exists _ _ Hex) as [before [old [after Hfm]]].
    rewrite (updateFirst_firstMatch _ _ _ _ _ _ Hfm).
    inversion Hfm; subst.
    apply Forall_app in H as [Hb Ha]. inversion Ha; subst.
    apply Forall_app. split; [assumption|]. constructor; [|assumption].
    now apply wellFormedRecord_subDoc.
  - rewrite (updateFirst_none _ _ _ Hex).
    apply Forall_app. split; [assumption|]. constructor; [|constructor].
    now apply wellFormedRecord_subDoc.
Qed.

Lemma updateMany_wellFormed filter now next c :
  Forall wellFormedRecord c ->
  Forall wellFormedRecord
    (Store.updateMany filter
       [("lastNotified", VDate now); ("nextNotificationTime", VDate next)]
       c).
Proof.
  intros H. unfold Store.updateMany. apply Forall_map.
  apply Forall_impl with (P := wellFormedRecord); [|assumption].
  intros d Hd. destruct (matches filter d); [|assumption].
  now apply wellFormedRecord_notified.
Qed.

Section RecordInvariant.

Variable E : env.

#[local] Abbreviation R := (keeps (Forall wellFormedRecord)).

Lemma records_step w q :
  R w {| db := db w; pushes := pushes w; requests := q;
         tick := S (tick w) |}.
Proof. intros H. exact H. Qed.

Lemma records_push w d :
  R w {| db := db w; pushes := pushes w ++ [d]; requests := requests w;
         tick := S (tick w) |}.
Proof. intros H. exact H. Qed.

Lemma records_delete w filter :
  R w {| db := Store.deleteOne filter (db w); pushes := pushes w;
         requests := requests w; tick := S (tick w) |}.
Proof. intros H. now apply deleteOne_Forall. Qed.

Lemma records_notified w filter now next :
  R w {| db := Store.updateMany filter
                 [("lastNotified", VDate now);
                  ("nextNotificationTime", VDate next)] (db w);
         pushes := pushes w; requests := requests w; tick := S (tick w) |}.
Proof. intros H. now apply updateMany_wellFormed. Qed.

Ltac records_side :=
  lazymatch goal with
  | |- preserves _ _ => fail
  | _ => first [ exact (keeps_refl (Forall wellFormedRecord))
               | exact (keeps_trans (Forall wellFormedRecord))
               | exact records_step
               | exact records_push | exact records_delete
               | exact records_notified ]
  end.

Lemma subscribeHandler_records body :
  preserves R (subscribeHandler E body).
Proof.
  unfold subscribeHandler, prop.
  apply preserves_tryCatch; try records_side;
    [|intros err; apply preserves_ret; records_side].
  apply preserves_bind; try records_side;
    [apply preserves_lift; records_side|].
  intros subscription.
  apply preserves_bind; try records_side;
    [apply preserves_lift; records_side|].
  intros location.
  destruct (truthy (optProp subscription "endpoint")) eqn:Hendpoint;
    [|apply preserves_ret; records_side].
  destruct (truthy (optProp subscription "keys")) eqn:Hkeys;
    [|apply preserves_ret; records_side].
  simpl.
  apply preserves_bind; try records_side;
    [apply preserves_lift; records_side|].
  intros s.
  apply preserves_bind; try records_side;
    [apply preserves_newDate; records_side|].
  intros now.
  apply preserves_bind_lift; try records_side. intros endpoint Hprop.
  rewrite (prop_endpoint_optProp _ _ Hprop Hendpoint).
  apply preserves_bind; try records_side.
  - apply preserves_storeCall; try records_side.
    intros w H. cbn [db snd]. now apply upsert_wellFormed.
  - intros _.
    apply preserves_bind; try records_side;
      [|intros _; apply preserves_ret; records_side].
    apply preserves_sendWeatherUpdateForSubscription; records_side.
Qed.

Lemma serverStep_records w w' :
  serverStep E w w' -> R w w'.
Proof.
  intros Hs. destruct Hs.
  - apply subscribeHandler_records.
  - apply preserves_unsubscribeHandler; records_side.
  - apply preserves_checkHandler; records_side.
  - apply preserves_sendTwoHourWeatherUpdates; records_side.
Qed.

End RecordInvariant.

(** X6.  Every record of the collection, in every world the server
    reaches from an empty collection, has a truthy endpoint and truthy
    keys, a string for its location that normalisation leaves as it is,
    dates for [createdAt] and [nextNotificationTime], and [null] or a
    date for [lastNotified]. *)
Theorem reachable_records_well_formed E w :
  reachable E w -> Forall wellFormedRecord (db w).
Proof.
  intros Hw. induction Hw as [w Hw|w w' _ IH Hs].
  - rewrite Hw. constructor.
  - now apply (serverStep_records E w w' Hs).
Qed.

Lemma reachable_records_well_formed_witness :
  reachable quietEnv
    (snd (subscribeHandler quietEnv (VObj resubscribeBody) emptyWorld))
  /\ Forall wellFormedRecord
       (db (snd (subscribeHandler quietEnv (VObj resubscribeBody)
                   emptyWorld))).
Proof.
  assert (H : reachable quietEnv
                (snd (subscribeHandler quietEnv (VObj resubscribeBody)
                        emptyWorld))).
  { apply ReachStep with emptyWorld; [now apply ReachStart|].
    apply StepSubscribe. }
  split; [exact H|].
  exact (reachable_records_well_formed quietEnv _ H).
Defined.

(** ** The groups of a cycle *)

(** X7.  The map of a cycle partitions the subscriptions by location:
    on subscriptions whose locations are strings, the keys are pairwise
    distinct, the group of a key holds exactly the subscriptions of that
    location, in the order of the collection, and is never empty, and
    the location of every subscription is a key. *)
Theorem groupByLocation_partitions allSubs :
  Forall stringLocation allSubs ->
  NoDup (map fst (groupByLocation allSubs))
  /\ Forall (fun g => snd g = filter (atLocation (fst g)) allSubs
                      /\ snd g <> [])
       (groupByLocation allSubs)
  /\ Forall (fun sub =>
               In (field "location" sub)
                 (map fst (groupByLocation allSubs)))
       allSubs.
Proof.
  intros Hall.
  destruct (fold_groupsOf allSubs [] [] Hall) as [Hnd [Hg Hcover]].
  { repeat split; constructor. }
  cbn [app] in *. unfold groupByLocation.
  split; [assumption|]. split; [|assumption].
  apply Forall_impl with (2 := Hg). now intros g [_ H].
Qed.

Lemma groupByLocation_partitions_witness :
  Forall stringLocation threeRecords
  /\ NoDup (map fst (groupByLocation threeRecords))
  /\ Forall (fun g => snd g = filter (atLocation (fst g)) threeRecords
                      /\ snd g <> [])
       (groupByLocation threeRecords).
Proof.
  assert (H : Forall stringLocation threeRecords)
    by (repeat constructor).
  split; [exact H|].
  destruct (groupByLocation_partitions threeRecords H) as [Hnd [Hg _]].
  split; [exact Hnd|exact Hg].
Defined.

(** ** The notifications of a location *)

Lemma pureM_ret {A} (a : A) : pureM (ret a).
Proof. exists (Ok a). reflexivity. Qed.

Lemma pureM_lift {A} (r : result A) : pureM (lift r).
Proof. exists r. reflexivity. Qed.

Lemma pureM_bind {A B} (m : M A) (k : A -> M B) :
  pureM m -> (forall a, pureM (k a)) -> pureM (bind m k).
Proof.
  intros [r Hm] Hk. destruct r as [a|e].
  - destruct (Hk a) as [r' Hka]. exists r'. intros w.
    now rewrite (bind_Ok _ _ _ _ _ (Hm w)).
  - exists (Throw e). intros w. now rewrite (bind_Throw _ _ _ _ _ (Hm w)).
Qed.

Ltac pure_monad :=
  unfold prop;
  repeat first [ apply pureM_ret | apply pureM_lift
               | apply pureM_bind; [|intros ?] ].

Lemma pureM_currentNotification E location currentTime data :
  pureM (currentNotification E location currentTime data).
Proof. unfold currentNotification. pure_monad. Qed.

Lemma pureM_forecastNotification E location nextTime data :
  pureM (forecastNotification E location nextTime data).
Proof. unfold forecastNotification. pure_monad. Qed.

Lemma pureM_Ok {A} (m : M A) w a :
  pureM m -> fst (m w) = Ok a -> forall w', m w' = (Ok a, w').
Proof.
  intros [r Hm] H w'. rewrite Hm in H. cbn [fst] in H. subst r. apply Hm.
Qed.

Lemma getProp_defined v k : notNullish v = true -> getProp v k = Ok (optProp v k).
Proof. destruct v; simpl; congruence. Qed.

Lemma currentNotification_data E s currentTime data w cur :
  fst (currentNotification E (VStr s) currentTime data w) = Ok cur ->
  notNullish data = true.
Proof. destruct data; try reflexivity; discriminate. Qed.

Lemma forecastNotification_data E s nextTime data w fore :
  fst (forecastNotification E (VStr s) nextTime data w) = Ok fore ->
  notNullish data = true.
Proof. destruct data; try reflexivity; discriminate. Qed.

Lemma matches_location s d :
  matches [("location", VStr s)] d = atLocation (VStr s) d.
Proof. unfold matches, atLocation. simpl. apply andb_true_r. Qed.

Lemma find_In filter d c : In d (Store.find filter c) -> In d c.
Proof. unfold Store.find. intros H. now apply filter_In in H. Qed.

Lemma pruneAll_In entries d : forall c, In d (pruneAll entries c) -> In d c.
Proof.
  induction entries as [|[sub o] r IH]; intros c; simpl; [auto|].
  intros H. apply IH in H. destruct (permanentFailure o); [|assumption].
  assert (Hall : Forall (fun x => In x c) c) by (now apply Forall_forall).
  apply (deleteOne_Forall _ [("endpoint", field "endpoint" sub)]) in Hall.
  rewrite Forall_forall in Hall. now apply Hall.
Qed.

Lemma endpoints_injective c a b :
  endpointsUnique c -> In a c -> In b c ->
  field "endpoint" a = field "endpoint" b -> a = b.
Proof.
  unfold endpointsUnique, endpoints.
  induction c as [|x r IH]; simpl; [intros _ []|].
  intros Hnd Ha Hb Heq. apply NoDup_cons_iff in Hnd as [Hx Hr].
  destruct Ha as [->|Ha], Hb as [->|Hb]; [reflexivity| | |now apply IH].
  - exfalso. apply Hx. rewrite Heq. now apply in_map.
  - exfalso. apply Hx. rewrite <- Heq. now apply in_map.
Qed.

(** The records of other locations are out of reach of the removals of
    a batch to the subscribers of one location. *)
Lemma pruneAll_other_location s subs answers d c0 : forall c,
  endpointsUnique c0 ->
  Forall stringEndpoint subs ->
  (forall sub, In sub subs -> In sub c0 /\ atLocation (VStr s) sub = true) ->
  In d c0 -> atLocation (VStr s) d = false ->
  In d (pruneAll (combine subs answers) c) <-> In d c.
Proof.
  intros c Hu Hstr Hsubs Hd Hat. apply pruneAll_others.
  - now apply combine_fst_stringEndpoint.
  - intros [sub o] Hin _ Heq. cbn [fst] in Heq.
    apply in_combine_l in Hin. destruct (Hsubs sub Hin) as [Hc Hs].
    assert (sub = d) by (now apply (endpoints_injective c0)).
    subst sub. congruence.
Qed.

(** What [sendLocationNotifications] does when the location has
    subscribers and the two payloads can be composed. *)
Lemma sendLocationNotifications_run E s current next w cur fore :
  storeFails E (tick w) OpFind = false ->
  Store.find [("location", VStr s)] (db w) <> [] ->
  fst (currentNotification E (VStr s)
         (toLocaleTimeString E (optProp current "time")) current w)
  = Ok cur ->
  fst (forecastNotification E (VStr s)
         (toLocaleTimeString E (optProp next "time")) next w)
  = Ok fore ->
  let subs := Store.find [("location", VStr s)] (db w) in
  exists a1 a2 w3,
    length a1 = length subs /\ length a2 = length subs
    /\ pushes w3
       = pushes w ++ deliveriesTo subs cur a1 ++ deliveriesTo subs fore a2
    /\ (storeAccepts E OpDeleteOne -> Forall stringEndpoint subs ->
        db w3 = pruneAll (combine subs a2)
                  (pruneAll (combine subs a1) (db w)))
    /\ sendLocationNotifications E (VStr s) current next w
       = updateManyM E [("location", VStr s)]
           [("lastNotified", VDate (clock E (tick w3)));
            ("nextNotificationTime",
             VDate (calculateNextNotificationTime (tzOffset E)
                      (clock E (tick w3))))]
           (advance w3).
Proof.
  intros Hfind Hsubs Hcur Hfore subs.
  pose proof (currentNotification_data _ _ _ _ _ _ Hcur) as Hc.
  pose proof (forecastNotification_data _ _ _ _ _ _ Hfore) as Hn.
  pose proof (pureM_Ok _ _ _ (pureM_currentNotification _ _ _ _) Hcur)
    as Hcur'.
  pose proof (pureM_Ok _ _ _ (pureM_forecastNotification _ _ _ _) Hfore)
    as Hfore'.
  destruct (sendBatchNotifications_settles E cur subs (advance w))
    as [a1 [r1 [w1 [Hrun1 [Hl1 [_ [Hp1 [_ [_ Hdb1]]]]]]]]].
  destruct (sendBatchNotifications_settles E fore subs w1)
    as [a2 [r2 [w2 [Hrun2 [Hl2 [_ [Hp2 [_ [_ Hdb2]]]]]]]]].
  exists a1, a2, w2. split; [assumption|]. split; [assumption|].
  split; [rewrite Hp2, Hp1; cbn [advance pushes]; now rewrite app_assoc|].
  split.
  - intros Hacc Hstr. destruct (Hdb1 Hacc Hstr) as [_ Hd1].
    destruct (Hdb2 Hacc Hstr) as [_ Hd2]. now rewrite Hd2, Hd1.
  - unfold sendLocationNotifications, prop.
    rewrite (bind_Ok _ _ w (optProp current "time") w)
      by (unfold lift; now rewrite getProp_defined).
    rewrite (bind_Ok _ _ w (optProp next "time") w)
      by (unfold lift; now rewrite getProp_defined).
    rewrite (bind_Ok _ _ w subs (advance w))
      by (unfold findM, storeCall; rewrite Hfind; now destruct w).
    fold subs in Hsubs. destruct subs as [|sub r] eqn:Hs; [contradiction|].
    rewrite (bind_Ok _ _ _ _ _ (Hcur' (advance w))).
    rewrite (bind_Ok _ _ _ _ _ (Hfore' (advance w))).
    rewrite (bind_Ok _ _ _ _ _ Hrun1).
    rewrite (bind_Ok _ _ _ _ _ Hrun2).
    now rewrite (bind_Ok _ _ w2 (clock E (tick w2)) (advance w2)).
Qed.

(** X8.  When a location has subscribers and the two payloads can be
    composed, [sendLocationNotifications] hands the current-conditions
    payload to the push service for every record of the location, in
    the order of the collection, and then the forecast payload for every
    one of them again, also for those the first round found gone.  When
    the store takes the removals and the update, it returns normally,
    every record of the location that is left carries the time of the
    update as [lastNotified] and the time two hours after its hour as
    [nextNotificationTime], and the records of the other locations are
    the ones there were. *)
Theorem location_notifications_reach_all E s current next w cur fore :
  storeFails E (tick w) OpFind = false ->
  Store.find [("location", VStr s)] (db w) <> [] ->
  fst (currentNotification E (VStr s)
         (toLocaleTimeString E (optProp current "time")) current w)
  = Ok cur ->
  fst (forecastNotification E (VStr s)
         (toLocaleTimeString E (optProp next "time")) next w)
  = Ok fore ->
  let subs := Store.find [("location", VStr s)] (db w) in
  let run := sendLocationNotifications E (VStr s) current next w in
  map (fun d => (recipient d, payload d)) (newDeliveries w (snd run))
  = map (fun sub => (VObj sub, cur)) subs
    ++ map (fun sub => (VObj sub, fore)) subs
  /\ (storeAccepts E OpDeleteOne -> storeAccepts E OpUpdateMany ->
      endpointsUnique (db w) -> Forall stringEndpoint (db w) ->
      fst run = Ok tt
      /\ (exists t,
            Forall (fun d => atLocation (VStr s) d = true ->
                             notifiedAt (tzOffset E) (clock E t) d)
              (db (snd run)))
      /\ forall d, atLocation (VStr s) d = false ->
           (In d (db (snd run)) <-> In d (db w))).
Proof.
  intros Hfind Hsubs Hcur Hfore subs run.
  destruct (sendLocationNotifications_run E s current next w cur fore
              Hfind Hsubs Hcur Hfore)
    as [a1 [a2 [w3 [Hl1 [Hl2 [Hp [Hdb Hrun]]]]]]].
  fold subs in Hl1, Hl2, Hp, Hdb. fold run in Hrun.
  split.
  - assert (Hpushes : pushes (snd run) = pushes w3).
    { rewrite Hrun. unfold updateManyM, storeCall.
      now destruct (storeFails E (tick (advance w3)) OpUpdateMany). }
    rewrite (newDeliveries_app w (snd run) _ (eq_trans Hpushes Hp)).
    rewrite map_app.
    now rewrite !deliveriesTo_recipients by assumption.
  - intros Hdel Hupd Hu Hstr.
    assert (Hstr' : Forall stringEndpoint subs).
    { rewrite Forall_forall in *. intros sub Hin. apply Hstr.
      now apply find_In in Hin. }
    assert (Hin_subs : forall sub, In sub subs ->
              In sub (db w) /\ atLocation (VStr s) sub = true).
    { intros sub Hin. apply filter_In in Hin as [Hin Hm].
      now rewrite matches_location in Hm. }
    specialize (Hdb Hdel Hstr').
    rewrite Hrun. unfold updateManyM, storeCall.
    rewrite (Hupd (tick (advance w3))). cbn [fst snd db advance].
    rewrite Hdb. split; [reflexivity|]. split.
    + exists (tick w3). unfold Store.updateMany. apply Forall_map.
      apply Forall_forall. intros d0 _.
      rewrite matches_location.
      destruct (atLocation (VStr s) d0) eqn:Hat.
      * intros _. unfold notifiedAt. rewrite !field_assign. now cbn.
      * congruence.
    + intros d Hat. unfold Store.updateMany. rewrite in_map_iff. split.
      * intros [d0 [Heq Hin]]. rewrite matches_location in Heq.
        destruct (atLocation (VStr s) d0) eqn:Hat0.
        -- exfalso. subst d. unfold atLocation in Hat, Hat0.
           rewrite field_assign_absent in Hat by reflexivity. congruence.
        -- subst d0. now apply pruneAll_In, pruneAll_In in Hin.
      * intros Hin. exists d. rewrite matches_location, Hat.
        split; [reflexivity|].
        apply (pruneAll_other_location s subs a2 d (db w)); try assumption.
        now apply (pruneAll_other_location s subs a1 d (db w)).
Qed.

Lemma location_notifications_reach_all_witness :
  (Store.find [("location", VStr (lit "Paris,Ile-de-France,France"))]
     (db (worldOf threeRecords)) <> []
   /\ storeAccepts plainEnv OpDeleteOne
   /\ storeAccepts plainEnv OpUpdateMany
   /\ endpointsUnique (db (worldOf threeRecords))
   /\ Forall stringEndpoint (db (worldOf threeRecords)))
  /\ map (fun d => (recipient d, payload d))
       (newDeliveries (worldOf threeRecords)
          (snd (sendLocationNotifications plainEnv
                  (VStr (lit "Paris,Ile-de-France,France"))
                  (sampleHour "2024-01-01 13:00")
                  (sampleHour "2024-01-01 14:00")
                  (worldOf threeRecords))))
     = (let p := samplePayloads plainEnv
                   (VStr (lit "Paris,Ile-de-France,France"))
                   (sampleHour "2024-01-01 13:00")
                   (sampleHour "2024-01-01 14:00") in
        [(VObj parisRecord, fst p); (VObj goneRecord, fst p);
         (VObj parisRecord, snd p); (VObj goneRecord, snd p)])
  /\ fst (sendLocationNotifications plainEnv
            (VStr (lit "Paris,Ile-de-France,France"))
            (sampleHour "2024-01-01 13:00")
            (sampleHour "2024-01-01 14:00")
            (worldOf threeRecords)) = Ok tt.
Proof.
  assert (H1 : Store.find
                 [("location", VStr (lit "Paris,Ile-de-France,France"))]
                 (db (worldOf threeRecords)) <> []) by discriminate.
  assert (H2 : storeAccepts plainEnv OpDeleteOne) by (intros t; reflexivity).
  assert (H3 : storeAccepts plainEnv OpUpdateMany)
    by (intros t; reflexivity).
  assert (H4 : endpointsUnique (db (worldOf threeRecords))).
  { repeat constructor; simpl; intuition discriminate. }
  assert (H5 : Forall stringEndpoint (db (worldOf threeRecords)))
    by (repeat constructor).
  split; [auto|].
  destruct (location_notifications_reach_all plainEnv
              (lit "Paris,Ile-de-France,France")
              (sampleHour "2024-01-01 13:00") (sampleHour "2024-01-01 14:00")
              (worldOf threeRecords)
              (fst (samplePayloads plainEnv
                      (VStr (lit "Paris,Ile-de-France,France"))
                      (sampleHour "2024-01-01 13:00")
                      (sampleHour "2024-01-01 14:00")))
              (snd (samplePayloads plainEnv
                      (VStr (lit "Paris,Ile-de-France,France"))
                      (sampleHour "2024-01-01 13:00")
                      (sampleHour "2024-01-01 14:00")))
              eq_refl H1 eq_refl eq_refl)
    as [Hpush Hrest].
  destruct (Hrest H2 H3 H4 H5) as [Hok _].
  split; [exact Hpush|exact Hok].
Defined.

(** ** A subscribe and the other subscribers of the location *)

Lemma upsert_has_document filter upd c :
  exists base, In (assign base upd) (updateOneUpsert filter upd c).
Proof.
  unfold updateOneUpsert.
  destruct (existsb (matches filter) c) eqn:Hex.
  - destruct (firstMatch_exists _ _ Hex) as [before [old [after Hfm]]].
    rewrite (updateFirst_firstMatch _ _ _ _ _ _ Hfm).
    exists old. apply in_or_app. right. now left.
  - rewrite (updateFirst_none _ _ _ Hex). exists filter.
    apply in_or_app. right. now left.
Qed.

Lemma upsert_keeps_unmatched filter upd c d :
  In d c -> matches filter d = false ->
  In d (updateOneUpsert filter upd c).
Proof.
  intros Hin Hd. unfold updateOneUpsert.
  destruct (existsb (matches filter) c) eqn:Hex.
  - destruct (firstMatch_exists _ _ Hex) as [before [old [after Hfm]]].
    rewrite (updateFirst_firstMatch _ _ _ _ _ _ Hfm).
    inversion Hfm as [b d0 a Hb Hold Heq]; subst.
    apply in_app_or in Hin as [Hin|[Heq|Hin]].
    + apply in_or_app. now left.
    + subst d. congruence.
    + apply in_or_app. right. now right.
  - rewrite (updateFirst_none _ _ _ Hex). apply in_or_app. now left.
Qed.

(** X9.  Where endpoints are strings, in the request and in the
    collection, no two of the collection the same: a subscribe that
    reaches the notifications (the upsert is taken, the weather API
    answers, the payloads can be composed, the store takes the query
    and the update) is answered 201, and it pushes
    the two payloads to every record stored under the normalised
    location, the current conditions to all of them and then the
    forecast to all of them: to the record of the request, and to every
    record another endpoint had there before. *)
Theorem subscribe_notifies_whole_location E w body s hours w2 cur fore :
  wellFormedSubscription body ->
  isString (requestEndpoint body) = true ->
  endpointsUnique (db w) ->
  Forall stringEndpoint (db w) ->
  field "location" body = VStr s ->
  storeFails E (S (tick w)) OpUpdateOne = false ->
  storeAccepts E OpUpdateMany ->
  currentAndNext E 1 (VStr (normalize s))
    (afterUpsert E body (normalize s) w) = (Ok hours, w2) ->
  storeFails E (tick w2) OpFind = false ->
  fst (currentNotification E (VStr (normalize s))
         (toLocaleTimeString E (optProp (fst hours) "time")) (fst hours) w2)
  = Ok cur ->
  fst (forecastNotification E (VStr (normalize s))
         (toLocaleTimeString E (optProp (snd hours) "time")) (snd hours) w2)
  = Ok fore ->
  let subs := Store.find [("location", VStr (normalize s))]
                (db (afterUpsert E body (normalize s) w)) in
  let run := subscribeHandler E (VObj body) w in
  fst run = Ok created
  /\ map (fun d => (recipient d, payload d)) (newDeliveries w (snd run))
     = map (fun sub => (VObj sub, cur)) subs
       ++ map (fun sub => (VObj sub, fore)) subs
  /\ (exists d, In d subs /\ field "endpoint" d = requestEndpoint body)
  /\ (forall d, In d (db w) ->
        atLocation (VStr (normalize s)) d = true ->
        field "endpoint" d <> requestEndpoint body -> In d subs).
Proof.
  intros Hwf _ _ _ Hloc Hupsert Hupdate Hhours Hfind Hcur Hfore subs run.
  pose proof Hwf as [Hendpoint _].
  fold (requestSubscription body) in Hendpoint.
  fold (requestEndpoint body) in Hendpoint.
  pose proof (currentAndNext_frame E 1 (VStr (normalize s))
                (afterUpsert E body (normalize s) w)) as [Hpushes Hdb].
  rewrite Hhours in Hpushes, Hdb. cbn [snd] in Hpushes, Hdb.
  assert (Hown : exists d, In d subs
                           /\ field "endpoint" d = requestEndpoint body).
  { destruct (upsert_has_document [("endpoint", requestEndpoint body)]
                (subDocOf E (requestSubscription body) (normalize s)
                   (clock E (tick w))) (db w)) as [base Hin].
    destruct (subDocOf_fields E (requestSubscription body) (normalize s)
                (clock E (tick w))) as [_ [_ [Hlo [_ [Hen _]]]]].
    eexists. split.
    - apply filter_In. split; [exact Hin|].
      rewrite matches_location. unfold atLocation.
      rewrite field_assign_present
        by (apply field_defined_lookup; rewrite Hlo; discriminate).
      rewrite Hlo. apply value_eqb_refl.
    - rewrite field_assign_present; [exact Hen|].
      apply field_defined_lookup. rewrite Hen.
      fold (requestEndpoint body). intros Hu. rewrite Hu in Hendpoint.
      discriminate. }
  assert (Hsubs : Store.find [("location", VStr (normalize s))] (db w2)
                  <> []).
  { rewrite Hdb. destruct Hown as [d [Hin _]]. fold subs.
    destruct subs; [destruct Hin|discriminate]. }
  destruct (sendLocationNotifications_run E (normalize s) (fst hours)
              (snd hours) w2 cur fore Hfind Hsubs Hcur Hfore)
    as [a1 [a2 [w3 [Hl1 [Hl2 [Hp [_ Hrun]]]]]]].
  rewrite Hdb in Hl1, Hl2, Hp. fold subs in Hl1, Hl2, Hp.
  set (w4 := snd (sendLocationNotifications E (VStr (normalize s))
                    (fst hours) (snd hours) w2)).
  assert (Hsend : sendLocationNotifications E (VStr (normalize s))
                    (fst hours) (snd hours) w2 = (Ok tt, w4)).
  { unfold w4. rewrite Hrun. unfold updateManyM, storeCall.
    now rewrite (Hupdate (tick (advance w3))). }
  assert (Hp4 : pushes w4 = pushes w3).
  { unfold w4. rewrite Hrun. unfold updateManyM, storeCall.
    now destruct (storeFails E (tick (advance w3)) OpUpdateMany). }
  assert (Hpipeline :
            sendWeatherUpdateForSubscription E (requestSubscription body)
              (VStr (normalize s)) (afterUpsert E body (normalize s) w)
            = (Ok tt, w4)).
  { unfold sendWeatherUpdateForSubscription.
    apply tryCatch_Ok. now rewrite (bind_Ok _ _ _ _ _ Hhours). }
  unfold run.
  rewrite (subscribeHandler_upsert E w body s Hwf Hloc Hupsert).
  unfold notifyAndRespond.
  rewrite (tryCatch_Ok _ _ _ created w4)
    by (now rewrite (bind_Ok _ _ _ _ _ Hpipeline)).
  cbn [fst snd]. split; [reflexivity|]. split; [|split].
  - rewrite (newDeliveries_app w w4
               (deliveriesTo subs cur a1 ++ deliveriesTo subs fore a2))
      by (now rewrite Hp4, Hp, Hpushes).
    rewrite map_app. now rewrite !deliveriesTo_recipients by assumption.
  - exact Hown.
  - intros d Hin Hat Hother. apply filter_In. split.
    + apply upsert_keeps_unmatched; [assumption|].
      apply matches_endpoint_false; [|assumption].
      now apply truthy_notNullish.
    + now rewrite matches_location.
Qed.

Lemma subscribe_notifies_whole_location_witness :
  (wellFormedSubscription resubscribeBody
   /\ endpointsUnique (db (worldOf threeRecords))
   /\ Forall stringEndpoint (db (worldOf threeRecords))
   /\ storeAccepts fairEnv OpUpdateMany)
  /\ fst (subscribeHandler fairEnv (VObj resubscribeBody)
            (worldOf threeRecords)) = Ok created
  /\ In goneRecord
       (Store.find
          [("location",
            VStr (normalize (lit "Paris , Ile-de-France , France")))]
          (db (afterUpsert fairEnv resubscribeBody
                 (normalize (lit "Paris , Ile-de-France , France"))
                 (worldOf threeRecords)))).
Proof.
  assert (H1 : wellFormedSubscription resubscribeBody)
    by (split; reflexivity).
  assert (H2 : storeAccepts fairEnv OpUpdateMany) by (intros t; reflexivity).
  assert (H3 : endpointsUnique (db (worldOf threeRecords)))
    by (unfold endpointsUnique; simpl; distinct_values).
  assert (H4 : Forall stringEndpoint (db (worldOf threeRecords)))
    by (repeat constructor).
  split; [auto 6|].
  destruct (subscribe_notifies_whole_location fairEnv (worldOf threeRecords)
              resubscribeBody (lit "Paris , Ile-de-France , France")
              (sampleHour "2024-01-01 13:00", sampleHour "2024-01-01 13:00")
              (snd (currentAndNext fairEnv 1
                      (VStr (normalize
                               (lit "Paris , Ile-de-France , France")))
                      (afterUpsert fairEnv resubscribeBody
                         (normalize (lit "Paris , Ile-de-France , France"))
                         (worldOf threeRecords))))
              (fst (samplePayloads fairEnv
                      (VStr (lit "Paris,Ile-de-France,France"))
                      (sampleHour "2024-01-01 13:00")
                      (sampleHour "2024-01-01 13:00")))
              (snd (samplePayloads fairEnv
                      (VStr (lit "Paris,Ile-de-France,France"))
                      (sampleHour "2024-01-01 13:00")
                      (sampleHour "2024-01-01 13:00")))
              H1 eq_refl H3 H4 eq_refl eq_refl H2 eq_refl eq_refl eq_refl
              eq_refl)
    as [Hcreated [_ [_ Hothers]]].
  split; [exact Hcreated|].
  apply Hothers.
  - right. now left.
  - reflexivity.
  - discriminate.
Defined.

(** ** Normalisation and the weather request *)

Lemma skipWhiteSpace_blank ws s :
  forallb isWhiteSpace ws = true ->
  skipWhiteSpace (ws ++ s) = skipWhiteSpace s.
Proof.
  induction ws as [|c r IH]; simpl; [reflexivity|].
  intros H. apply andb_true_iff in H as [Hc Hr]. now rewrite Hc, IH.
Qed.

Lemma skipWhiteSpace_blank_nil ws :
  forallb isWhiteSpace ws = true -> skipWhiteSpace ws = [].
Proof.
  intros H. rewrite <- (app_nil_r ws). now rewrite skipWhiteSpace_blank.
Qed.

Lemma skipWhiteSpace_decompose s :
  exists ws, s = ws ++ skipWhiteSpace s /\ forallb isWhiteSpace ws = true.
Proof.
  induction s as [|c r [ws [Hr Hws]]]; [now exists []|]. simpl.
  destruct (isWhiteSpace c) eqn:Hc.
  - exists (c :: ws). simpl. rewrite Hc, Hws. split; [now f_equal|reflexivity].
  - now exists [].
Qed.

Lemma skipWhiteSpace_snoc l c :
  skipWhiteSpace (l ++ [c])
  = if forallb isWhiteSpace l then skipWhiteSpace [c]
    else skipWhiteSpace l ++ [c].
Proof.
  induction l as [|x r IH]; simpl; [reflexivity|].
  destruct (isWhiteSpace x); simpl; [exact IH|reflexivity].
Qed.

Lemma forallb_rev {A} (f : A -> bool) l : forallb f (rev l) = forallb f l.
Proof.
  induction l as [|x r IH]; simpl; [reflexivity|].
  rewrite forallb_app, IH. simpl. rewrite andb_true_r. apply andb_comm.
Qed.

Lemma trimEnd_cons c p :
  trimEnd (c :: p)
  = if forallb isWhiteSpace p
    then (if isWhiteSpace c then [] else [c])
    else c :: trimEnd p.
Proof.
  unfold trimEnd. simpl rev. rewrite skipWhiteSpace_snoc, forallb_rev.
  destruct (forallb isWhiteSpace p).
  - simpl. now destruct (isWhiteSpace c).
  - now rewrite rev_app_distr.
Qed.

Lemma blank_trimEnd p :
  forallb isWhiteSpace p
  = match trimEnd p with [] => true | _ => false end.
Proof.
  destruct p as [|c r]; [reflexivity|]. rewrite trimEnd_cons. simpl.
  destruct (forallb isWhiteSpace r); [|now rewrite andb_false_r].
  rewrite andb_true_r. now destruct (isWhiteSpace c).
Qed.

Lemma trimEnd_blank ws : forallb isWhiteSpace ws = true -> trimEnd ws = [].
Proof.
  rewrite blank_trimEnd. now destruct (trimEnd ws).
Qed.

Lemma trimEnd_cons_eq c p p' :
  trimEnd p = trimEnd p' -> trimEnd (c :: p) = trimEnd (c :: p').
Proof.
  intros H. rewrite !trimEnd_cons, !blank_trimEnd. now rewrite H.
Qed.

(** Trimming the two ends in either order. *)
Lemma trimEnd_trimStart s :
  trimEnd (trimStart s) = trimStart (trimEnd s).
Proof.
  unfold trimStart. induction s as [|c r IH]; [reflexivity|].
  rewrite trimEnd_cons. simpl skipWhiteSpace at 1.
  destruct (isWhiteSpace c) eqn:Hc.
  - destruct (forallb isWhiteSpace r) eqn:Hr.
    + now rewrite (skipWhiteSpace_blank_nil r Hr).
    + simpl. now rewrite Hc.
  - rewrite trimEnd_cons.
    destruct (forallb isWhiteSpace r); simpl; now rewrite Hc.
Qed.

Lemma trim_trimEnd_eq a b : trimEnd a = trimEnd b -> trim a = trim b.
Proof.
  intros H. unfold trim. now rewrite !trimEnd_trimStart, H.
Qed.

Lemma trim_blank_app ws s :
  forallb isWhiteSpace ws = true -> trim (ws ++ s) = trim s.
Proof.
  intros H. unfold trim, trimStart. now rewrite skipWhiteSpace_blank.
Qed.

Lemma split_parts s : split s = hd [] (split s) :: tl (split s).
Proof.
  induction s as [|c r IH]; [reflexivity|]. simpl.
  destruct (N.eqb c comma); [reflexivity|].
  now destruct (split r).
Qed.

Lemma split_copy c r :
  N.eqb c comma = false ->
  split (c :: r) = (c :: hd [] (split r)) :: tl (split r).
Proof.
  intros Hc. simpl. rewrite Hc. rewrite (split_parts r) at 1. reflexivity.
Qed.

Lemma blank_not_comma c : isWhiteSpace c = true -> N.eqb c comma = false.
Proof.
  intros Hc. destruct (N.eqb c comma) eqn:H; [|reflexivity].
  apply N.eqb_eq in H. subst c. discriminate.
Qed.

Lemma split_blank_app ws s :
  forallb isWhiteSpace ws = true ->
  split (ws ++ s) = (ws ++ hd [] (split s)) :: tl (split s).
Proof.
  induction ws as [|c r IH]; intros H; [apply split_parts|].
  simpl in H. apply andb_true_iff in H as [Hc Hr].
  cbn [app]. rewrite (split_copy c (r ++ s) (blank_not_comma c Hc)).
  now rewrite (IH Hr).
Qed.

(** A separator at the front: blanks, the comma, blanks, and what
    follows. *)
Lemma matchSeparator_Some s rest :
  matchSeparator s = Some rest ->
  exists ws ws',
    s = ws ++ comma :: ws' ++ rest
    /\ forallb isWhiteSpace ws = true
    /\ forallb isWhiteSpace ws' = true.
Proof.
  unfold matchSeparator. intros H.
  destruct (skipWhiteSpace_decompose s) as [ws [Hs Hws]].
  destruct (skipWhiteSpace s) as [|c r]; [discriminate|].
  destruct (N.eqb c comma) eqn:Hc; [|discriminate].
  apply N.eqb_eq in Hc. subst c. injection H as <-.
  destruct (skipWhiteSpace_decompose r) as [ws' [Hr Hws']].
  exists ws, ws'. rewrite <- Hr. auto.
Qed.

Lemma matchSeparator_None_copy c r :
  matchSeparator (c :: r) = None -> N.eqb c comma = false.
Proof.
  unfold matchSeparator. simpl.
  destruct (isWhiteSpace c) eqn:Hc; [intros _; now apply blank_not_comma|].
  now destruct (N.eqb c comma).
Qed.

(** The parts of the normalised string are the parts of the string, up
    to blanks at their ends. *)
Lemma split_replaceSeparators n : forall s,
  (length s < n)%nat ->
  trimEnd (hd [] (split (replaceSeparators s))) = trimEnd (hd [] (split s))
  /\ map trim (tl (split (replaceSeparators s))) = map trim (tl (split s)).
Proof.
  induction n as [|n IH]; intros s Hlen; [lia|].
  destruct (matchSeparator s) as [rest|] eqn:Hm.
  - rewrite (replaceSeparators_match s rest Hm).
    pose proof (matchSeparator_shorter s rest Hm) as Hshort.
    destruct (IH rest ltac:(lia)) as [Hhd Htl].
    destruct (matchSeparator_Some s rest Hm) as [ws [ws' [-> [Hws Hws']]]].
    rewrite (split_blank_app ws _ Hws).
    change (split (comma :: replaceSeparators rest))
      with ([] :: split (replaceSeparators rest)).
    change (split (comma :: ws' ++ rest)) with ([] :: split (ws' ++ rest)).
    cbn [hd tl]. rewrite app_nil_r. split.
    + now rewrite (trimEnd_blank ws Hws).
    + rewrite (split_blank_app ws' rest Hws').
      rewrite (split_parts (replaceSeparators rest)). cbn [map].
      rewrite (trim_blank_app ws' _ Hws'), Htl.
      now rewrite (trim_trimEnd_eq _ _ Hhd).
  - destruct s as [|c r]; [now split|].
    rewrite (replaceSeparators_copy c r Hm).
    pose proof (matchSeparator_None_copy c r Hm) as Hc.
    rewrite !(split_copy c _ Hc). cbn [hd tl].
    simpl in Hlen. destruct (IH r ltac:(lia)) as [Hhd Htl].
    split; [now apply trimEnd_cons_eq|assumption].
Qed.

Lemma trimmed_parts_normalize s :
  map trim (split (normalize s)) = map trim (split s).
Proof.
  unfold normalize.
  destruct (split_replaceSeparators (S (length s)) s ltac:(lia))
    as [Hhd Htl].
  rewrite (split_parts (replaceSeparators s)), (split_parts s). cbn [map].
  now rewrite Htl, (trim_trimEnd_eq _ _ Hhd).
Qed.

(** X10.  Normalising a location changes nothing in what is asked about
    it: the trimmed parts of the normalised string are the trimmed parts
    of the string as it was typed, and [fetchWeatherData] on the one
    does what it does on the other, in every world: the same request
    with the same answer, or the same exception. *)
Theorem normalize_keeps_the_weather_request s :
  map trim (split (normalize s)) = map trim (split s)
  /\ forall E w,
       fetchWeatherData E (VStr (normalize s)) w
       = fetchWeatherData E (VStr s) w.
Proof.
  split; [apply trimmed_parts_normalize|].
  intros E w.
  assert (Hpart : forall i,
            trimPart (nth_error (split (normalize s)) i)
            = trimPart (nth_error (split s) i)).
  { intros i.
    assert (Hmap : forall l,
              trimPart (nth_error l i)
              = match nth_error (map trim l) i with
                | Some p => Ok p
                | None => Throw TypeError
                end).
    { intros l. rewrite nth_error_map.
      now destruct (nth_error l i). }
    now rewrite !Hmap, trimmed_parts_normalize. }
  unfold fetchWeatherData, tryCatch, bind, lift. cbn [asString].
  now rewrite !Hpart.
Qed.

(** ** The city route behind [fetchWeatherData] *)

Lemma locationQuery_strings E a b c :
  locationQuery E (VStr a) (VStr b) (VStr c)
  = joinWith (lit ", ") (filter nonEmpty [a; b; c]).
Proof.
  unfold locationQuery. f_equal. cbn [filter truthy nonEmpty].
  destruct a, b, c; reflexivity.
Qed.

(** X11.  For a location of at least three parts, [fetchWeatherData]
    asks the city route with the first three parts, trimmed, and the
    city route, given that query, asks the forecast API once, for the
    parts that are not empty joined by a comma and a blank; it answers
    200 with the data of the API, or 500 with its own error when the API
    fails, and it leaves the collection and the pushes alone. *)
Theorem city_route_asks_for_the_parts E key s a b c r w :
  split s = a :: b :: c :: r ->
  let params := [("name", VStr (trim a)); ("region", VStr (trim b));
                 ("country", VStr (trim c))] in
  let request :=
    forecastRequest key
      (joinWith (lit ", ") (filter nonEmpty [trim a; trim b; trim c])) in
  (forall w0,
     requests (snd (fetchWeatherData E (VStr s) w0))
     = requests w0 ++ [params])
  /\ cityHandler E key (VObj params) w
     = (Ok (match upstream E (tick w) request with
            | Some data => respond 200 data
            | None =>
                respond 500
                  (VObj [("error", VStr (lit "City weather fetch failed"))])
            end),
        {| db := db w; pushes := pushes w;
           requests := requests w ++ [request]; tick := S (tick w) |}).
Proof.
  intros Hsplit params request. split.
  - intros w0. rewrite (fetchWeatherData_three E w0 s a b c r Hsplit).
    unfold axiosGet. now destruct (upstream E (tick w0) _).
  - unfold cityHandler, prop, tryCatch, bind, lift, ret, axiosGet.
    cbn [getProp params field lookup String.eqb Ascii.eqb Bool.eqb fst snd].
    rewrite locationQuery_strings. fold request.
    now destruct (upstream E (tick w) request).
Qed.

Lemma city_route_asks_for_the_parts_witness :
  split (lit "Paris, ,France") = [lit "Paris"; lit " "; lit "France"]
  /\ requests
       (snd (cityHandler quietEnv (VStr (lit "key"))
               (VObj [("name", VStr (trim (lit "Paris")));
                      ("region", VStr (trim (lit " ")));
                      ("country", VStr (trim (lit "France")))])
               emptyWorld))
     = [forecastRequest (VStr (lit "key")) (lit "Paris, France")].
Proof.
  split; [reflexivity|].
  destruct (city_route_asks_for_the_parts quietEnv (VStr (lit "key"))
              (lit "Paris, ,France") (lit "Paris") (lit " ") (lit "France")
              [] emptyWorld eq_refl) as [_ Hcity].
  rewrite Hcity. reflexivity.
Defined.

(** ** From the server's payloads to the notification on the screen *)

Ltac split_binds H :=
  repeat match type of H with
         | context [match ?r with Ok _ => _ | Throw _ => _ end] =>
             destruct r; cbn in H; try discriminate
         end.

Lemma currentNotification_shown E location currentTime data w p :
  fst (currentNotification E location currentTime data w) = Ok p ->
  shownAsSent p.
Proof.
  unfold currentNotification, prop, bind, lift, ret. intros H. cbn in H.
  split_binds H. injection H as <-.
  eexists. repeat split.
Qed.

Lemma forecastNotification_shown E location nextTime data w p :
  fst (forecastNotification E location nextTime data w) = Ok p ->
  shownAsSent p.
Proof.
  unfold forecastNotification, prop, bind, lift, ret. intros H. cbn in H.
  split_binds H. injection H as <-.
  eexists. repeat split.
Qed.

Lemma composed_shown E p : composed E p -> shownAsSent p.
Proof.
  intros [location t data w p' H|location t data w p' H|label|label].
  - now apply currentNotification_shown in H.
  - now apply forecastNotification_shown in H.
  - eexists. repeat split.
  - eexists. repeat split.
Qed.

Section ComposedPushes.

Variable E : env.

#[local] Abbreviation R := (pushesComposed E).

Lemma pushesComposed_refl w : R w w.
Proof. exists []. split; [now rewrite app_nil_r|constructor]. Qed.

Lemma pushesComposed_trans w1 w2 w3 : R w1 w2 -> R w2 w3 -> R w1 w3.
Proof.
  intros [n1 [H1 F1]] [n2 [H2 F2]]. exists (n1 ++ n2). split.
  - now rewrite H2, H1, app_assoc.
  - apply Forall_app. auto.
Qed.

Lemma pushesComposed_step w q :
  R w {| db := db w; pushes := pushes w; requests := q;
         tick := S (tick w) |}.
Proof. exists []. split; [cbn; now rewrite app_nil_r|constructor]. Qed.

Lemma pushesComposed_store w c :
  R w {| db := c; pushes := pushes w; requests := requests w;
         tick := S (tick w) |}.
Proof. exists []. split; [cbn; now rewrite app_nil_r|constructor]. Qed.

Ltac composed_side :=
  lazymatch goal with
  | |- preserves _ _ => fail
  | _ => first [ exact pushesComposed_refl | exact pushesComposed_trans
               | exact pushesComposed_step
               | intros; apply pushesComposed_store ]
  end.

Ltac composed_bind :=
  apply preserves_bind; [composed_side| |].

Lemma composed_webpushSend sub p :
  composed E p -> preserves R (webpushSend E sub p).
Proof.
  intros Hp w. unfold webpushSend.
  destruct (transport E (tick w) sub p); cbn [snd];
    (eexists; split; [reflexivity|]; repeat constructor; exact Hp).
Qed.

Lemma composed_deleteOneM filter : preserves R (deleteOneM E filter).
Proof. apply preserves_deleteOneM; composed_side. Qed.

Lemma composed_ret {A} (a : A) : preserves R (ret a).
Proof. apply preserves_ret; composed_side. Qed.

Lemma composed_lift {A} (r : result A) : preserves R (lift r).
Proof. apply preserves_lift; composed_side. Qed.

Lemma composed_sendNotification subscription p :
  composed E p -> preserves R (sendNotification E subscription p).
Proof.
  intros Hp. unfold sendNotification, prop.
  apply preserves_tryCatch; [composed_side| |].
  - composed_bind; [now apply composed_webpushSend|].
    intros _. apply composed_ret.
  - intros err. composed_bind.
    + destruct (isGone (statusCodeOf err)); [|apply composed_ret].
      composed_bind; [apply composed_lift|]. intros endpoint.
      composed_bind; [apply composed_deleteOneM|].
      intros _. apply composed_ret.
    + intros _. apply composed_ret.
Qed.

Lemma composed_sendBatchNotifications subs p :
  composed E p -> preserves R (sendBatchNotifications E subs p).
Proof.
  intros Hp. unfold sendBatchNotifications.
  destruct subs as [|sub r]; [apply composed_ret|].
  composed_bind; [|intros ?; apply composed_ret].
  apply preserves_mapM; try composed_side. intros x.
  unfold settle, deliverTo.
  apply preserves_tryCatch; [composed_side| |intros ?; apply composed_ret].
  composed_bind; [|intros _; apply composed_ret].
  apply preserves_tryCatch; [composed_side| |].
  - now apply composed_webpushSend.
  - intros err. composed_bind; [apply composed_lift|]. intros _.
    composed_bind; [|intros _; apply preserves_throw; composed_side].
    destruct (isGone (statusCodeOf err)); [|apply composed_ret].
    composed_bind; [apply composed_deleteOneM|].
    intros _. apply composed_ret.
Qed.

(** A computation that only reads hands on a result it can give. *)
Lemma composed_bind_pure {A B} (m : M A) (k : A -> M B) :
  pureM m ->
  (forall a w, fst (m w) = Ok a -> preserves R (k a)) ->
  preserves R (bind m k).
Proof.
  intros [r Hm] Hk w. destruct r as [a|e].
  - rewrite (bind_Ok _ _ _ _ _ (Hm w)). apply (Hk a w).
    now rewrite Hm.
  - rewrite (bind_Throw _ _ _ _ _ (Hm w)). apply pushesComposed_refl.
Qed.

Lemma composed_sendLocationNotifications location current next :
  preserves R (sendLocationNotifications E location current next).
Proof.
  unfold sendLocationNotifications, prop.
  composed_bind; [apply composed_lift|]. intros ctime.
  composed_bind; [apply composed_lift|]. intros ntime.
  composed_bind; [apply preserves_findM; composed_side|].
  intros subscribers.
  destruct subscribers as [|sub r]; [apply composed_ret|].
  apply composed_bind_pure; [apply pureM_currentNotification|].
  intros c wc Hc.
  apply composed_bind_pure; [apply pureM_forecastNotification|].
  intros f wf Hf.
  composed_bind;
    [apply composed_sendBatchNotifications; now apply ComposedCurrent in Hc|].
  intros _.
  composed_bind;
    [apply composed_sendBatchNotifications;
     now apply ComposedForecast in Hf|].
  intros _.
  composed_bind; [apply preserves_newDate; composed_side|]. intros now.
  apply preserves_storeCall; composed_side.
Qed.

Lemma composed_currentAndNext offset location :
  preserves R (currentAndNext E offset location).
Proof. apply preserves_currentAndNext; composed_side. Qed.

Lemma composed_sendWeatherUpdateForSubscription subscription location :
  preserves R (sendWeatherUpdateForSubscription E subscription location).
Proof.
  unfold sendWeatherUpdateForSubscription.
  apply preserves_tryCatch; [composed_side| |].
  - composed_bind; [apply composed_currentAndNext|]. intros hours.
    apply composed_sendLocationNotifications.
  - intros err. composed_bind; [apply composed_lift|]. intros label.
    composed_bind; [apply composed_sendNotification; constructor|].
    intros _. apply composed_ret.
Qed.

Lemma composed_subscribeHandler body :
  preserves R (subscribeHandler E body).
Proof.
  unfold subscribeHandler, prop.
  apply preserves_tryCatch; [composed_side| |intros err; apply composed_ret].
  composed_bind; [apply composed_lift|]. intros subscription.
  composed_bind; [apply composed_lift|]. intros location.
  destruct (negb (truthy (optProp subscription "endpoint"))
            || negb (truthy (optProp subscription "keys")));
    [apply composed_ret|].
  composed_bind; [apply composed_lift|]. intros s.
  composed_bind; [apply preserves_newDate; composed_side|]. intros now.
  composed_bind; [apply composed_lift|]. intros endpoint.
  composed_bind; [apply preserves_storeCall; composed_side|]. intros _.
  composed_bind; [apply composed_sendWeatherUpdateForSubscription|].
  intros _. apply composed_ret.
Qed.

Lemma composed_processLocation group :
  preserves R (processLocation E group).
Proof.
  unfold processLocation. apply preserves_tryCatch; [composed_side| |].
  - composed_bind; [apply composed_currentAndNext|]. intros hours.
    apply composed_sendLocationNotifications.
  - intros err. composed_bind; [apply composed_lift|]. intros label.
    composed_bind; [apply composed_sendBatchNotifications; constructor|].
    intros _. apply composed_ret.
Qed.

Lemma composed_sendTwoHourWeatherUpdates :
  preserves R (sendTwoHourWeatherUpdates E).
Proof.
  unfold sendTwoHourWeatherUpdates.
  apply preserves_tryCatch; [composed_side| |intros err; apply composed_ret].
  composed_bind; [apply preserves_getAllSubscriptions; composed_side|].
  intros allSubs. destruct allSubs as [|sub r]; [apply composed_ret|].
  apply preserves_forEach; try composed_side.
  intros g. apply composed_processLocation.
Qed.

Lemma serverStep_pushesComposed w w' : serverStep E w w' -> R w w'.
Proof.
  intros Hs. destruct Hs.
  - apply composed_subscribeHandler.
  - apply preserves_unsubscribeHandler; composed_side.
  - apply preserves_checkHandler; composed_side.
  - apply composed_sendTwoHourWeatherUpdates.
Qed.

End ComposedPushes.

(** X12.  Whatever the server pushes in an operation, a subscribe, an
    unsubscribe, a check or a cycle, is one of the payloads it composes,
    and the service worker that receives such a payload shows a
    notification with the title, the body and the icon of the payload,
    title and body being strings; the action [view] on it opens the root
    page, since no payload of the server carries a URL. *)
Theorem pushes_are_shown_as_sent E w w' :
  serverStep E w w' ->
  Forall (fun d => composed E (payload d) /\ shownAsSent (payload d))
    (newDeliveries w w').
Proof.
  intros Hs. destruct (serverStep_pushesComposed E w w' Hs) as [new [Hp Hc]].
  rewrite (newDeliveries_app w w' new Hp).
  apply Forall_impl with (2 := Hc). intros d Hd.
  split; [assumption|now apply composed_shown with E].
Qed.

Lemma pushes_are_shown_as_sent_witness :
  serverStep quietEnv emptyWorld
    (snd (subscribeHandler quietEnv (VObj resubscribeBody) emptyWorld))
  /\ Forall (fun d => composed quietEnv (payload d)
                      /\ shownAsSent (payload d))
       (newDeliveries emptyWorld
          (snd (subscribeHandler quietEnv (VObj resubscribeBody)
                  emptyWorld))).
Proof.
  assert (H : serverStep quietEnv emptyWorld
                (snd (subscribeHandler quietEnv (VObj resubscribeBody)
                        emptyWorld))) by apply StepSubscribe.
  split; [exact H|].
  exact (pushes_are_shown_as_sent quietEnv _ _ H).
Defined.

(** ** Where the endpoints of the collection come from *)

Lemma deleteOne_endpointsAmong known filter c :
  endpointsAmong known c -> endpointsAmong known (Store.deleteOne filter c).
Proof.
  unfold endpointsAmong. intros H.
  destruct (deleteOne_cases filter c)
    as [->|[before [d [after [-> [-> _]]]]]]; [assumption|].
  rewrite endpoints_app in *. intros e He. apply H.
  apply in_app_or in He as [He|He]; apply in_or_app;
    [now left|right; now right].
Qed.

Lemma updateMany_endpointsAmong known filter now next c :
  endpointsAmong known c ->
  endpointsAmong known
    (Store.updateMany filter
       [("lastNotified", VDate now); ("nextNotificationTime", VDate next)]
       c).
Proof.
  unfold endpointsAmong. now rewrite updateMany_endpoints.
Qed.

Lemma upsert_endpointsAmong E known subscription s now c :
  truthy (optProp subscription "endpoint") = true ->
  In (optProp subscription "endpoint") known ->
  endpointsAmong known c ->
  endpointsAmong known
    (Store.updateOneUpsert [("endpoint", optProp subscription "endpoint")]
       (subDocOf E subscription s now) c).
Proof.
  unfold endpointsAmong. intros Ht Hin H.
  rewrite upsert_endpoints;
    [|now apply truthy_notNullish|apply subDocOf_fields].
  destruct (hasEndpoint _ c); [assumption|].
  apply incl_app; [assumption|]. intros e [<-|[]]. assumption.
Qed.

Section EndpointsAmong.

Variable E : env.
Variable known : list value.

#[local] Abbreviation R := (keeps (endpointsAmong known)).

Lemma endpointsAmong_step w q :
  R w {| db := db w; pushes := pushes w; requests := q;
         tick := S (tick w) |}.
Proof. intros H. exact H. Qed.

Lemma endpointsAmong_push w d :
  R w {| db := db w; pushes := pushes w ++ [d]; requests := requests w;
         tick := S (tick w) |}.
Proof. intros H. exact H. Qed.

Lemma endpointsAmong_delete w filter :
  R w {| db := Store.deleteOne filter (db w); pushes := pushes w;
         requests := requests w; tick := S (tick w) |}.
Proof. intros H. now apply deleteOne_endpointsAmong. Qed.

Lemma endpointsAmong_notified w filter now next :
  R w {| db := Store.updateMany filter
                 [("lastNotified", VDate now);
                  ("nextNotificationTime", VDate next)] (db w);
         pushes := pushes w; requests := requests w; tick := S (tick w) |}.
Proof. intros H. now apply updateMany_endpointsAmong. Qed.

Ltac among_side :=
  lazymatch goal with
  | |- preserves _ _ => fail
  | _ => first [ exact (keeps_refl (endpointsAmong known))
               | exact (keeps_trans (endpointsAmong known))
               | exact endpointsAmong_step
               | exact endpointsAmong_push
               | exact endpointsAmong_delete
               | exact endpointsAmong_notified ]
  end.

Lemma subscribeHandler_endpointsAmong body :
  In (optProp (optProp body "subscription") "endpoint") known ->
  preserves R (subscribeHandler E body).
Proof.
  intros Hknown. unfold subscribeHandler, prop.
  apply preserves_tryCatch; try among_side;
    [|intros err; apply preserves_ret; among_side].
  apply preserves_bind_lift; try among_side. intros subscription Hsub.
  apply getProp_optProp in Hsub. subst subscription.
  apply preserves_bind; try among_side;
    [apply preserves_lift; among_side|].
  intros location.
  destruct (truthy (optProp (optProp body "subscription") "endpoint"))
    eqn:Hendpoint;
    [|apply preserves_ret; among_side].
  destruct (truthy (optProp (optProp body "subscription") "keys"));
    [|apply preserves_ret; among_side].
  simpl.
  apply preserves_bind; try among_side;
    [apply preserves_lift; among_side|].
  intros s.
  apply preserves_bind; try among_side;
    [apply preserves_newDate; among_side|].
  intros now.
  apply preserves_bind_lift; try among_side. intros endpoint Hprop.
  rewrite (prop_endpoint_optProp _ _ Hprop Hendpoint).
  apply preserves_bind; try among_side.
  - apply preserves_storeCall; try among_side.
    intros w H. cbn [db snd]. now apply upsert_endpointsAmong.
  - intros _.
    apply preserves_bind; try among_side;
      [|intros _; apply preserves_ret; among_side].
    apply preserves_sendWeatherUpdateForSubscription; among_side.
Qed.

Lemma unsubscribeHandler_endpointsAmong errorMessage body :
  preserves R (unsubscribeHandler E errorMessage body).
Proof. apply preserves_unsubscribeHandler; among_side. Qed.

Lemma checkHandler_endpointsAmong body : preserves R (checkHandler E body).
Proof. apply preserves_checkHandler; among_side. Qed.

Lemma sendTwoHourWeatherUpdates_endpointsAmong :
  preserves R (sendTwoHourWeatherUpdates E).
Proof. apply preserves_sendTwoHourWeatherUpdates; among_side. Qed.

End EndpointsAmong.

(** X13.  No operation of the server invents a subscriber.  After an
    unsubscribe, a check or a cycle, every endpoint in the collection
    was in it before; after a subscribe, every endpoint in the
    collection was in it before or is the endpoint of the request. *)
Theorem endpoints_come_from_subscribes E w :
  (forall body,
     incl (endpoints (db (snd (subscribeHandler E body w))))
       (endpoints (db w)
        ++ [optProp (optProp body "subscription") "endpoint"]))
  /\ (forall errorMessage body,
        incl (endpoints (db (snd (unsubscribeHandler E errorMessage body w))))
          (endpoints (db w)))
  /\ (forall body,
        incl (endpoints (db (snd (checkHandler E body w))))
          (endpoints (db w)))
  /\ incl (endpoints (db (snd (sendTwoHourWeatherUpdates E w))))
       (endpoints (db w)).
Proof.
  split; [|split; [|split]].
  - intros body.
    apply (subscribeHandler_endpointsAmong E
             (endpoints (db w)
              ++ [optProp (optProp body "subscription") "endpoint"]) body).
    + apply in_or_app. right. now left.
    + apply incl_appl, incl_refl.
  - intros errorMessage body.
    apply (unsubscribeHandler_endpointsAmong E (endpoints (db w))).
    apply incl_refl.
  - intros body.
    apply (checkHandler_endpointsAmong E (endpoints (db w))).
    apply incl_refl.
  - apply (sendTwoHourWeatherUpdates_endpointsAmong E (endpoints (db w))).
    apply incl_refl.
Qed.

(** ** The weather requests of a cycle *)

Lemma sameRequests_refl w : sameRequests w w.
Proof. reflexivity. Qed.

Lemma sameRequests_trans w1 w2 w3 :
  sameRequests w1 w2 -> sameRequests w2 w3 -> sameRequests w1 w3.
Proof. unfold sameRequests. congruence. Qed.

Section SameRequests.

Variable E : env.

#[local] Abbreviation R := sameRequests.

Ltac quiet_side :=
  lazymatch goal with
  | |- preserves _ _ => fail
  | _ => first [ exact sameRequests_refl | exact sameRequests_trans ]
  end.

Ltac quiet_bind := apply preserves_bind; [quiet_side| |].

Lemma quiet_ret {A} (a : A) : preserves R (ret a).
Proof. apply preserves_ret; quiet_side. Qed.

Lemma quiet_lift {A} (r : result A) : preserves R (lift r).
Proof. apply preserves_lift; quiet_side. Qed.

Lemma quiet_newDate : preserves R (newDate E).
Proof. intros w. reflexivity. Qed.

Lemma quiet_storeCall {A} op (f : list obj -> A * list obj) :
  preserves R (storeCall E op f).
Proof.
  intros w. unfold storeCall.
  now destruct (storeFails E (tick w) op).
Qed.

Lemma quiet_webpushSend sub p : preserves R (webpushSend E sub p).
Proof.
  intros w. unfold webpushSend.
  now destruct (transport E (tick w) sub p).
Qed.

Lemma quiet_sendBatchNotifications subs p :
  preserves R (sendBatchNotifications E subs p).
Proof.
  intros w.
  destruct (sendBatchNotifications_settles E p subs w)
    as [answers [results [w' [Hrun [_ [_ [_ [Hreq _]]]]]]]].
  now rewrite Hrun.
Qed.

Lemma quiet_hourOf weatherData h : preserves R (hourOf weatherData h).
Proof.
  unfold hourOf, prop.
  repeat first [ apply quiet_lift | quiet_bind; [|intros ?] ].
Qed.

Lemma quiet_pure {A} (m : M A) : pureM m -> preserves R m.
Proof. intros [r Hm] w. now rewrite Hm. Qed.

Lemma quiet_sendLocationNotifications location current next :
  preserves R (sendLocationNotifications E location current next).
Proof.
  unfold sendLocationNotifications, prop.
  quiet_bind; [apply quiet_lift|]. intros ctime.
  quiet_bind; [apply quiet_lift|]. intros ntime.
  quiet_bind; [apply quiet_storeCall|]. intros subscribers.
  destruct subscribers as [|sub r]; [apply quiet_ret|].
  quiet_bind; [apply quiet_pure, pureM_currentNotification|]. intros c.
  quiet_bind; [apply quiet_pure, pureM_forecastNotification|]. intros f.
  quiet_bind; [apply quiet_sendBatchNotifications|]. intros _.
  quiet_bind; [apply quiet_sendBatchNotifications|]. intros _.
  quiet_bind; [apply quiet_newDate|]. intros now.
  apply quiet_storeCall.
Qed.

(** What follows a computation makes no request: the requests are those
    of the computation. *)
Lemma requests_bind {A B} (m : M A) (k : A -> M B) w :
  (forall a, preserves R (k a)) ->
  requests (snd (bind m k w)) = requests (snd (m w)).
Proof.
  intros Hk. unfold bind. destruct (m w) as [[a|e] w1]; [|reflexivity].
  apply Hk.
Qed.

Lemma requests_tryCatch {A} (m : M A) h w :
  (forall e, preserves R (h e)) ->
  requests (snd (tryCatch m h w)) = requests (snd (m w)).
Proof.
  intros Hh. unfold tryCatch. destruct (m w) as [[a|e] w1]; [reflexivity|].
  apply Hh.
Qed.

Lemma fetchWeatherData_requests location w :
  requests (snd (fetchWeatherData E location w))
  = requests w ++ weatherRequests location.
Proof.
  destruct location as [| | x | x | s | x | xs | fs];
    try (cbn; now rewrite app_nil_r).
  unfold weatherRequests.
  destruct (split s) as [|a [|b [|c r]]] eqn:Hs;
    try (rewrite fetchWeatherData_short by (rewrite Hs; simpl; lia);
         cbn; now rewrite app_nil_r).
  rewrite (fetchWeatherData_three E w s a b c r Hs).
  unfold axiosGet. now destruct (upstream E (tick w) _).
Qed.

Lemma currentAndNext_requests offset location w :
  requests (snd (currentAndNext E offset location w))
  = requests w ++ weatherRequests location.
Proof.
  unfold currentAndNext. rewrite requests_bind.
  - apply fetchWeatherData_requests.
  - intros weatherData.
    quiet_bind; [apply quiet_newDate|]. intros now.
    quiet_bind; [apply quiet_hourOf|]. intros currentData.
    quiet_bind; [apply quiet_hourOf|]. intros nextData.
    destruct (negb (truthy currentData) || negb (truthy nextData));
      [apply preserves_throw|apply quiet_ret]; quiet_side.
Qed.

Lemma processLocation_requests group w :
  requests (snd (processLocation E group w))
  = requests w ++ weatherRequests (fst group).
Proof.
  unfold processLocation. rewrite requests_tryCatch, requests_bind.
  - apply currentAndNext_requests.
  - intros hours. apply quiet_sendLocationNotifications.
  - intros err. quiet_bind; [apply quiet_lift|]. intros label.
    quiet_bind; [apply quiet_sendBatchNotifications|].
    intros _. apply quiet_ret.
Qed.

Lemma fold_processLocation_requests groups : forall w,
  requests (fold_left (fun w g => snd (processLocation E g w)) groups w)
  = requests w ++ concat (map weatherRequests (map fst groups)).
Proof.
  induction groups as [|g r IH]; intros w; cbn [fold_left map concat];
    [now rewrite app_nil_r|].
  now rewrite IH, processLocation_requests, app_assoc.
Qed.

Lemma cycleStart_requests w : requests (cycleStart E w) = requests w.
Proof.
  unfold cycleStart, getAllSubscriptions.
  rewrite requests_tryCatch; [apply quiet_storeCall|].
  intros e. apply quiet_ret.
Qed.

End SameRequests.



(** ** The hours of the cycles *)

Lemma first_cycle_minute tz now :
  (LocalTime tz (now + minutesToNextUpdate tz now * 60 * 1000)
   / msPerMinute) mod 120 = 0.
Proof.
  unfold minutesToNextUpdate, getHours, getMinutes.
  rewrite minute_of_two_hours.
  set (L := LocalTime tz now).
  set (T := L / msPerMinute).
  pose proof (Z.mod_pos_bound T 120 ltac:(lia)) as B.
  rewrite Z.rem_mod_nonneg by lia.
  set (m := (120 - T mod 120) mod 120).
  replace (LocalTime tz (now + m * 60 * 1000)) with (L + m * msPerMinute)
    by (unfold L, LocalTime, msPerMinute; lia).
  rewrite Z.div_add by (unfold msPerMinute; lia). fold T.
  unfold m. destruct (Z.eq_dec (T mod 120) 0) as [H0|H0].
  - rewrite H0. simpl. rewrite Z.add_0_r. exact H0.
  - rewrite (Z.mod_small (120 - T mod 120)) by lia.
    pose proof (Z.div_mod T 120 ltac:(lia)).
    replace (T + (120 - T mod 120)) with ((T / 120 + 1) * 120) by lia.
    apply Z.mod_mul. lia.
Qed.

Lemma even_hour_of_minute L :
  (L / msPerMinute) mod 120 = 0 ->
  Z.even (HourFromTime L) = true /\ MinFromTime L = 0.
Proof.
  intros H. set (T := L / msPerMinute) in *.
  pose proof (Z.div_mod T 120 ltac:(lia)) as Hd. rewrite H in Hd.
  split.
  - unfold HourFromTime, msPerHour.
    replace 3600000 with (msPerMinute * 60) by reflexivity.
    rewrite <- Z.div_div by (unfold msPerMinute; lia). fold T.
    replace (T / 60) with (2 * (T / 120)).
    2:{ apply Z.div_unique with (r := 0); lia. }
    rewrite Z.even_spec.
    pose proof (Z.div_mod (2 * (T / 120)) 24 ltac:(lia)) as H24.
    exists (T / 120 - 12 * (2 * (T / 120) / 24)). lia.
  - unfold MinFromTime. fold T.
    replace T with ((2 * (T / 120)) * 60) by lia.
    apply Z.mod_mul. lia.
Qed.

Lemma cycleTime_succ tz now k :
  LocalTime tz (cycleTime tz now (S k))
  = LocalTime tz (cycleTime tz now k) + 2 * msPerHour.
Proof. unfold cycleTime, LocalTime, msPerHour. lia. Qed.

Lemma cycleTime_minute tz now k :
  (LocalTime tz (cycleTime tz now k) / msPerMinute) mod 120 = 0.
Proof.
  induction k as [|k IH].
  - unfold cycleTime. cbn [Z.of_nat]. rewrite Z.add_0_r.
    apply first_cycle_minute.
  - rewrite cycleTime_succ.
    replace (2 * msPerHour) with (120 * msPerMinute) by reflexivity.
    rewrite Z.div_add by (unfold msPerMinute; lia).
    replace (LocalTime tz (cycleTime tz now k) / msPerMinute + 120)
      with (LocalTime tz (cycleTime tz now k) / msPerMinute + 1 * 120)
      by lia.
    rewrite Z.mod_add by lia. exact IH.
Qed.

(** X15.  [zone] gives the offset of the host's zone at an instant.
    For a cycle, the cycle after it, a time [t] in the local hour of the
    cycle and the time [calculateNextNotificationTime] gives for [t]:
    when the offset at these four instants is the offset at the start of
    the scheduler (no change of daylight saving in between), the cycle
    is set for the first minute of an even hour of local time, and the
    [nextNotificationTime] stamped at [t] is the start of the hour for
    which the next cycle is set. *)
Theorem cycles_in_even_hours (zone : Z -> Z) now k t :
  let tz := zone now in
  let cycle := cycleTime tz now k in
  let next := cycleTime tz now (S k) in
  let stamp := calculateNextNotificationTime (zone t) t in
  zone cycle = tz ->
  zone next = tz ->
  zone t = tz ->
  zone stamp = tz ->
  LocalTime (zone t) t / msPerHour
  = LocalTime (zone cycle) cycle / msPerHour ->
  Z.even (getHours (zone cycle) cycle) = true
  /\ getMinutes (zone cycle) cycle = 0
  /\ LocalTime (zone stamp) stamp
     = LocalTime (zone next) next / msPerHour * msPerHour.
Proof.
  intros tz cycle next stamp Hcycle Hnext Ht Hstamp Hhour.
  rewrite Hstamp. unfold stamp. rewrite Hcycle, Hnext, Ht in *.
  destruct (even_hour_of_minute _ (cycleTime_minute tz now k))
    as [Heven Hmin].
  split; [exact Heven|]. split; [exact Hmin|].
  rewrite calculateNextNotificationTime_local, Hhour.
  unfold next, cycle. rewrite cycleTime_succ.
  rewrite Z.div_add by (unfold msPerHour; lia). lia.
Qed.

Lemma cycles_in_even_hours_witness :
  LocalTime 0 (at_ 0 14 20) / msPerHour
  = LocalTime 0 (cycleTime 0 (at_ 0 13 45) 0) / msPerHour
  /\ cycleTime 0 (at_ 0 13 45) 0 = at_ 0 14 0
  /\ calculateNextNotificationTime 0 (at_ 0 14 20) = at_ 0 16 0.
Proof.
  split; [reflexivity|]. split; [reflexivity|].
  destruct (cycles_in_even_hours (fun _ => 0) (at_ 0 13 45) 0 (at_ 0 14 20)
              eq_refl eq_refl eq_refl eq_refl eq_refl)
    as [_ [_ H]].
  unfold LocalTime in H. rewrite Z.add_0_r in H. rewrite H. reflexivity.
Defined.

(** ** The answers of the weather routes *)

Lemma axiosGet_routeAnswer E failure request w :
  routeAnswer E failure w
    (tryCatch
       (data <- axiosGet E request;; ret (respond 200 data))
       (fun _ =>
          ret (respond 500 (VObj [("error", VStr (lit failure))])))
       w).
Proof.
  unfold routeAnswer, tryCatch, bind, axiosGet, ret.
  destruct (upstream E (tick w) request) as [data|] eqn:Hup; cbn.
  - split; [|split; reflexivity]. left. eauto.
  - split; [|split; reflexivity]. right. split; [reflexivity|]. eauto.
Qed.

Lemma thrown_routeAnswer E failure w :
  routeAnswer E failure w
    (Ok (respond 500 (VObj [("error", VStr (lit failure))])), w).
Proof.
  unfold routeAnswer. cbn. split; [|split; reflexivity].
  right. split; [reflexivity|]. now left.
Qed.

(** X16.  The three weather routes answer every request, whatever the
    query holds and whatever the weather API does: with 200 and the data
    of the API, unchanged, when the API answers the one request the
    route makes, and otherwise with 500 and the error text of the route.
    They make no second request and touch neither the collection nor
    the pushes. *)
Theorem weather_routes_always_answer E key w :
  (forall query,
     routeAnswer E "Failed to fetch location suggestions" w
       (searchHandler E key query w))
  /\ (forall query,
        routeAnswer E "City weather fetch failed" w
          (cityHandler E key query w))
  /\ (forall query,
        routeAnswer E "Coordinates weather fetch failed" w
          (coordsHandler E key query w)).
Proof.
  split; [|split]; intros query.
  - apply axiosGet_routeAnswer.
  - unfold cityHandler, prop.
    destruct (getProp query "name") as [name|e] eqn:Hname.
    + assert (Hq : forall k, getProp query k = Ok (optProp query k)).
      { intros k. apply getProp_defined.
        destruct query; try reflexivity; discriminate. }
      rewrite (Hq "region"), (Hq "country").
      apply (axiosGet_routeAnswer E "City weather fetch failed").
    + unfold tryCatch, bind, lift, ret. cbn.
      apply thrown_routeAnswer.
  - unfold coordsHandler, prop.
    destruct (getProp query "lat") as [lat|e] eqn:Hlat.
    + assert (Hq : forall k, getProp query k = Ok (optProp query k)).
      { intros k. apply getProp_defined.
        destruct query; try reflexivity; discriminate. }
      rewrite (Hq "lon").
      apply (axiosGet_routeAnswer E "Coordinates weather fetch failed").
    + unfold tryCatch, bind, lift, ret. cbn.
      apply thrown_routeAnswer.
Qed.
